(** * SEO audit tool: crawl, analyse, aggregate

    A shallow embedding of the server side of the SEO audit tool
    ([server/src/utils/helpers.ts], [server/src/services/analyzer.ts],
    [server/src/services/crawler.ts], [server/src/routes/audit.ts],
    [shared/types.ts]) and the proofs of
    the properties its specification states about it.  In the source tree
    the helpers are [src/unnamed/part_003], and the crawler follows the
    analyzer in [server/src/services/analyzer.ts].

    Conventions.
    - JavaScript strings are [string], holding the bytes of the UTF-8
      encoding of the text (a lone surrogate as the three bytes of
      generalised UTF-8), so that ASCII text is held as itself; equality,
      concatenation and the search for an ASCII pattern are those of the
      bytes.  [JS.length] counts UTF-16 code units, as [.length] does;
      [String.length] counts bytes and only bounds recursions.
    - Status codes and response times are [Z]; lengths and counters that the
      code only ever increments from [0] are [nat].
    - [Set<string>] is [gset string]; arrays are lists, [push] appends at the
      end and [shift] takes the head.
    - Objects the code mutates in place ([PageData.issues], the crawler's
      fields) are passed and returned explicitly. *)

From Stdlib Require Import ZArith QArith Qpower Qround Lqa String Ascii List Lia Bool.
From stdpp Require Import base gmap sets list strings sorting.

Local Open Scope string_scope.
Local Open Scope list_scope.

(** ** JavaScript string primitives *)

Module JS.

(** [s.startsWith(p)] *)
Definition startsWith (s p : string) : bool := String.prefix p s.

(** [s.endsWith(p)]: [s] is [p], or the tail of [s] ends with [p]. *)
Fixpoint endsWith (s p : string) : bool :=
  String.eqb s p ||
  match s with
  | EmptyString => false
  | String _ s' => endsWith s' p
  end.

(** [s.includes(p)] *)
Fixpoint includes (s p : string) : bool :=
  String.prefix p s ||
  match s with
  | EmptyString => false
  | String _ s' => includes s' p
  end.

(** [s.slice(0, -1)] for a string that ends with a character of one
    byte, as the code calls it (after [endsWith('/')]): [s] without its
    last byte. *)
Fixpoint slice_0_m1 (s : string) : string :=
  match s with
  | EmptyString => EmptyString
  | String _ EmptyString => EmptyString
  | String c s' => String c (slice_0_m1 s')
  end.

(** White space in the sense of [trim] and of [\s], by the bytes of its
    encoding: TAB, LF, VT, FF, CR and SPACE in one byte; U+00A0 in two
    ([C2 A0]); U+1680 ([E1 9A 80]), U+2000 to U+200A ([E2 80 80] to
    [E2 80 8A]), U+2028 and U+2029 ([E2 80 A8], [E2 80 A9]), U+202F
    ([E2 80 AF]), U+205F ([E2 81 9F]), U+3000 ([E3 80 80]) and U+FEFF
    ([EF BB BF]) in three. *)
Definition is_space1 (c : ascii) : bool :=
  let n := N_of_ascii c in
  ((9 <=? n)%N && (n <=? 13)%N) || (n =? 32)%N.

Definition is_space2 (c1 c2 : ascii) : bool :=
  (N_of_ascii c1 =? 194)%N && (N_of_ascii c2 =? 160)%N.

Definition is_space3 (c1 c2 c3 : ascii) : bool :=
  let n1 := N_of_ascii c1 in
  let n2 := N_of_ascii c2 in
  let n3 := N_of_ascii c3 in
  ((n1 =? 225)%N && (n2 =? 154)%N && (n3 =? 128)%N) ||
  ((n1 =? 226)%N && (n2 =? 128)%N &&
   (((128 <=? n3)%N && (n3 <=? 138)%N) || (n3 =? 168)%N || (n3 =? 169)%N || (n3 =? 175)%N)) ||
  ((n1 =? 226)%N && (n2 =? 129)%N && (n3 =? 159)%N) ||
  ((n1 =? 227)%N && (n2 =? 128)%N && (n3 =? 128)%N) ||
  ((n1 =? 239)%N && (n2 =? 187)%N && (n3 =? 191)%N).

Section Strip.

(** The characters to strip, of one, two and three bytes. *)
Variable sp1 : ascii → bool.
Variable sp2 : ascii → ascii → bool.
Variable sp3 : ascii → ascii → ascii → bool.

(** [s] without the characters to strip at its head. *)
Fixpoint strip (s : string) : string :=
  match s with
  | EmptyString => EmptyString
  | String c1 s1 =>
      if sp1 c1 then strip s1
      else
        match s1 with
        | EmptyString => s
        | String c2 s2 =>
            if sp2 c1 c2 then strip s2
            else
              match s2 with
              | EmptyString => s
              | String c3 s3 => if sp3 c1 c2 c3 then strip s3 else s
              end
        end
  end.

End Strip.

(** [s.trimStart()] *)
Definition trimStart (s : string) : string := strip is_space1 is_space2 is_space3 s.

(** [s.trimEnd()]: the white space at the end of [s] is at the head of
    the reversed bytes, with its own bytes reversed. *)
Definition trimEnd (s : string) : string :=
  String.rev
    (strip is_space1 (λ c2 c1, is_space2 c1 c2) (λ c3 c2 c1, is_space3 c1 c2 c3)
       (String.rev s)).

(** [s.trim()] *)
Definition trim (s : string) : string := trimEnd (trimStart s).

Definition lower_ascii (c : ascii) : ascii :=
  let n := N_of_ascii c in
  if ((65 <=? n)%N && (n <=? 90)%N)%bool then ascii_of_N (n + 32) else c.

(** [s.toLowerCase()], on the ASCII range, where the host name and the
    path of a parsed URL are. *)
Fixpoint toLowerCase (s : string) : string :=
  match s with
  | EmptyString => EmptyString
  | String c s' => String (lower_ascii c) (toLowerCase s')
  end.

(** [a.includes(x)] on an array of strings. *)
Definition array_includes (a : list string) (x : string) : bool :=
  existsb (String.eqb x) a.

(** Truthiness of a string: the empty string is falsy. *)
Definition truthy (s : string) : bool := negb (String.eqb s "").

(** Truthiness of [string | undefined]. *)
Definition truthy_opt (o : option string) : bool :=
  match o with
  | Some s => truthy s
  | None => false
  end.

(** [o || null] for [o : string | undefined]. *)
Definition or_null (o : option string) : option string :=
  match o with
  | Some s => if truthy s then Some s else None
  | None => None
  end.

(** The UTF-16 code units that one byte of the encoding stands for: none
    for a continuation byte ([80] to [BF]), two for the first byte of a
    character of four bytes (a surrogate pair), one for every other
    byte. *)
Definition code_units (c : ascii) : nat :=
  let n := N_of_ascii c in
  if ((128 <=? n)%N && (n <? 192)%N)%bool then 0%nat
  else if (240 <=? n)%N then 2%nat
  else 1%nat.

(** [s.length] *)
Fixpoint length (s : string) : nat :=
  match s with
  | EmptyString => 0%nat
  | String c s' => (code_units c + length s')%nat
  end.

End JS.

(** ** shared/types.ts *)

Inductive IssueType := error | warning.

#[export] Instance IssueType_eq_dec : EqDecision IssueType.
Proof. solve_decision. Defined.

Record Issue := {
  issue_type : IssueType;
  issue_code : string;
  issue_title : string;
  issue_description : string;
  issue_urls : list string;
  issue_count : nat
}.

Record OgTags := {
  og_title : option string;
  og_description : option string;
  og_image : option string
}.

Record Images := {
  images_total : nat;
  images_withoutAlt : nat
}.

Record PageData := {
  url : string;
  statusCode : Z;
  responseTime : Z;
  title : option string;
  metaDescription : option string;
  h1Tags : list string;
  h1Count : nat;
  hasCanonical : bool;
  canonicalUrl : option string;
  hasViewport : bool;
  hasRobotsMeta : bool;
  robotsContent : option string;
  ogTags : OgTags;
  images : Images;
  textToHtmlRatio : Q;
  pageSize : nat;
  internalLinks : list string;
  externalLinks : list string;
  issues : list Issue
}.

Record CrawledPages := {
  total : nat;
  healthy : nat;
  withIssues : nat;
  redirects : nat;
  broken : nat
}.

Module ERROR_CODES.
Definition BROKEN_INTERNAL_LINK := "broken_internal_link".
Definition BROKEN_EXTERNAL_LINK := "broken_external_link".
Definition SERVER_ERROR := "server_error_5xx".
Definition MISSING_TITLE := "missing_title".
Definition REDIRECT_CHAIN := "redirect_chain".
Definition REDIRECT_LOOP := "redirect_loop".
End ERROR_CODES.

Module WARNING_CODES.
Definition MISSING_META_DESCRIPTION := "missing_meta_description".
Definition MISSING_H1 := "missing_h1".
Definition MULTIPLE_H1 := "multiple_h1".
Definition LOW_TEXT_HTML_RATIO := "low_text_html_ratio".
Definition TITLE_TOO_LONG := "title_too_long".
Definition TITLE_TOO_SHORT := "title_too_short".
Definition META_DESCRIPTION_TOO_LONG := "meta_description_too_long".
Definition META_DESCRIPTION_TOO_SHORT := "meta_description_too_short".
Definition MISSING_CANONICAL := "missing_canonical".
Definition MISSING_VIEWPORT := "missing_viewport".
Definition MISSING_ALT_TEXT := "missing_alt_text".
Definition LARGE_PAGE_SIZE := "large_page_size".
Definition SLOW_RESPONSE := "slow_response".
Definition ORPHAN_PAGE := "orphan_page".
Definition MISSING_OG_TAGS := "missing_og_tags".
Definition MISSING_ROBOTS_META := "missing_robots_meta".
End WARNING_CODES.

Record IssueDefinition := {
  def_title : string;
  def_description : string;
  def_type : IssueType
}.

(** The [ISSUE_DEFINITIONS] table, in the order of the source. *)
Definition ISSUE_DEFINITIONS_entries : list (string * IssueDefinition) :=
  [ (ERROR_CODES.BROKEN_INTERNAL_LINK,
      {| def_title := "Broken internal links";
         def_description := "Internal links returning 4XX status codes";
         def_type := error |});
    (ERROR_CODES.BROKEN_EXTERNAL_LINK,
      {| def_title := "Broken external links";
         def_description := "External links returning 4XX or 5XX status codes";
         def_type := error |});
    (ERROR_CODES.SERVER_ERROR,
      {| def_title := "Pages with server errors";
         def_description := "Pages returning 5XX status codes";
         def_type := error |});
    (ERROR_CODES.MISSING_TITLE,
      {| def_title := "Pages missing title tag";
         def_description := "Pages without a title tag or with empty title";
         def_type := error |});
    (ERROR_CODES.REDIRECT_CHAIN,
      {| def_title := "Redirect chains detected";
         def_description := "URLs with 3 or more redirect hops";
         def_type := error |});
    (ERROR_CODES.REDIRECT_LOOP,
      {| def_title := "Redirect loops detected";
         def_description := "URLs with circular redirects";
         def_type := error |});
    (WARNING_CODES.MISSING_META_DESCRIPTION,
      {| def_title := "Pages missing meta description";
         def_description := "Pages without a meta description tag";
         def_type := warning |});
    (WARNING_CODES.MISSING_H1,
      {| def_title := "Pages missing H1 heading";
         def_description := "Pages without an H1 heading tag";
         def_type := warning |});
    (WARNING_CODES.MULTIPLE_H1,
      {| def_title := "Pages with multiple H1 tags";
         def_description := "Pages with more than one H1 heading";
         def_type := warning |});
    (WARNING_CODES.LOW_TEXT_HTML_RATIO,
      {| def_title := "Pages with low text-to-HTML ratio";
         def_description := "Pages with less than 10% text content";
         def_type := warning |});
    (WARNING_CODES.TITLE_TOO_LONG,
      {| def_title := "Title tags too long";
         def_description := "Title tags exceeding 60 characters";
         def_type := warning |});
    (WARNING_CODES.TITLE_TOO_SHORT,
      {| def_title := "Title tags too short";
         def_description := "Title tags shorter than 30 characters";
         def_type := warning |});
    (WARNING_CODES.META_DESCRIPTION_TOO_LONG,
      {| def_title := "Meta descriptions too long";
         def_description := "Meta descriptions exceeding 160 characters";
         def_type := warning |});
    (WARNING_CODES.META_DESCRIPTION_TOO_SHORT,
      {| def_title := "Meta descriptions too short";
         def_description := "Meta descriptions shorter than 70 characters";
         def_type := warning |});
    (WARNING_CODES.MISSING_CANONICAL,
      {| def_title := "Pages missing canonical tag";
         def_description := "Pages without a canonical URL specified";
         def_type := warning |});
    (WARNING_CODES.MISSING_VIEWPORT,
      {| def_title := "Pages missing viewport meta tag";
         def_description := "Pages without viewport meta for mobile responsiveness";
         def_type := warning |});
    (WARNING_CODES.MISSING_ALT_TEXT,
      {| def_title := "Images missing alt text";
         def_description := "Pages with images lacking alt attributes";
         def_type := warning |});
    (WARNING_CODES.LARGE_PAGE_SIZE,
      {| def_title := "Large page size";
         def_description := "Pages larger than 3MB";
         def_type := warning |});
    (WARNING_CODES.SLOW_RESPONSE,
      {| def_title := "Slow page response time";
         def_description := "Pages taking more than 3 seconds to respond";
         def_type := warning |});
    (WARNING_CODES.ORPHAN_PAGE,
      {| def_title := "Orphan pages detected";
         def_description := "Pages not linked from any other crawled page";
         def_type := warning |});
    (WARNING_CODES.MISSING_OG_TAGS,
      {| def_title := "Missing Open Graph tags";
         def_description := "Pages without OG tags for social sharing";
         def_type := warning |});
    (WARNING_CODES.MISSING_ROBOTS_META,
      {| def_title := "Missing robots meta tag";
         def_description := "Pages without robots meta tag";
         def_type := warning |}) ].

Definition ISSUE_DEFINITIONS : gmap string IssueDefinition :=
  list_to_map ISSUE_DEFINITIONS_entries.


(** [IssueGroup] of shared/types.ts. *)
Record IssueGroup := {
  group_type : string;
  group_code : string;
  group_title : string;
  group_description : string;
  group_issueType : IssueType;
  group_count : nat;
  group_urls : list string
}.

(** The progress of an audit, [AuditProgress] of shared/types.ts. *)
Inductive ProgressStatus :=
  initializing | crawling | analyzing | generating_report | complete | failed.

Record AuditProgress := {
  progress_status : ProgressStatus;
  pagesCrawled : nat;
  totalPagesFound : nat;
  currentUrl : string;
  percentComplete : Z;
  progress_error : option string
}.

(** ** JavaScript maps

    A [Map] with string keys keeps its entries in the order of their first
    insertion: it is the list of its entries.  [set] on a key of the map
    replaces the value where it stands, and appends the entry otherwise. *)

Module JSMap.

Fixpoint get {V : Type} (m : list (string * V)) (k : string) : option V :=
  match m with
  | [] => None
  | (k', v) :: m' => if String.eqb k k' then Some v else get m' k
  end.

Fixpoint set {V : Type} (m : list (string * V)) (k : string) (v : V) : list (string * V) :=
  match m with
  | [] => [(k, v)]
  | (k', v') :: m' =>
      if String.eqb k k' then (k, v) :: m' else (k', v') :: set m' k v
  end.

(** [Array.from(m.values())] and [Array.from(m.keys())] *)
Definition values {V : Type} (m : list (string * V)) : list V := snd <$> m.
Definition keys {V : Type} (m : list (string * V)) : list string := fst <$> m.

End JSMap.

(** ** JavaScript numbers

    A JavaScript number is an IEEE 754 binary64 value.  The numbers of this
    program are counts, status codes, lengths and quotients of those, so a
    finite number is modelled by the rational it denotes, and every arithmetic
    operation returns the exact result rounded to the nearest binary64 value,
    ties to even ([fl64]).  The exponent range is not modelled: no value
    computed from counts below [2^53] leaves it. *)

Module Number.

Local Open Scope Q_scope.

Definition number := Q.

(** [2^k] for an integer [k] of either sign. *)
Definition pow2 (k : Z) : Q := 2 ^ k.

(** [floor (log2 x)] for [0 < x]. *)
Definition ilog2 (x : Q) : Z :=
  let k := (Z.log2 (Qnum x) - Z.log2 (Zpos (Qden x)))%Z in
  if Qle_bool (pow2 k) x then k else (k - 1)%Z.

(** Nearest integer, ties to the even one. *)
Definition rne (q : Q) : Z :=
  let f := Qfloor q in
  match Qcompare (q - inject_Z f) (1 # 2) with
  | Lt => f
  | Gt => (f + 1)%Z
  | Eq => if Z.even f then f else (f + 1)%Z
  end.

(** Rounding of [0 < x] to 53 significant bits. *)
Definition round_pos (x : Q) : Q :=
  let e := (ilog2 x - 52)%Z in
  inject_Z (rne (x * pow2 (- e))) * pow2 e.

Definition fl64 (x : Q) : number :=
  let x := Qred x in
  match Qnum x with
  | Z0 => 0
  | Zpos _ => Qred (round_pos x)
  | Zneg _ => Qred (- round_pos (- x))
  end.

Definition of_nat (n : nat) : number := fl64 (inject_Z (Z.of_nat n)).
Definition of_Z (n : Z) : number := fl64 (inject_Z n).

Definition add (a b : number) : number := fl64 (a + b).
Definition sub (a b : number) : number := fl64 (a - b).
Definition mul (a b : number) : number := fl64 (a * b).
Definition div (a b : number) : number := fl64 (a / b).

Definition ltb (a b : number) : bool := negb (Qle_bool b a).
Definition eqb (a b : number) : bool := Qeq_bool a b.

(** [Math.max(a, b)] *)
Definition Math_max (a b : number) : number := if Qle_bool a b then b else a.

(** [Math.round(x)]: the nearest integer, ties towards [+∞]. *)
Definition Math_round (x : number) : Z := Qfloor (x + (1 # 2)).

End Number.

(** ** The URL class of the runtime

    [new URL(...)] is the WHATWG URL parser of Node.js; it is not code of
    this repository.  A parsed URL is the record of the components the code
    reads or writes, and the parser and the serialiser are the operations of a
    class, so that every function below is stated for any implementation. *)

Record URL := {
  protocol : string;                      (* "https:" *)
  userinfo : string;
  hostname : string;
  port : string;
  pathname : string;
  searchParams : list (string * string);  (* decoded name/value pairs *)
  hash : string                           (* "" or "#fragment" *)
}.

Class UrlApi := {
  (** [new URL(input)]; [None] when the constructor throws. *)
  url_parse : string → option URL;
  (** [new URL(input, base)]; [None] when the constructor throws. *)
  url_parse_base : string → string → option URL;
  (** The [href] getter. *)
  url_href : URL → string
}.

(** [parsed.hash = ''] *)
Definition set_hash_empty (u : URL) : URL :=
  {| protocol := protocol u; userinfo := userinfo u; hostname := hostname u;
     port := port u; pathname := pathname u; searchParams := searchParams u;
     hash := "" |}.

(** [parsed.searchParams.delete(param)] *)
Definition searchParams_delete (param : string) (u : URL) : URL :=
  {| protocol := protocol u; userinfo := userinfo u; hostname := hostname u;
     port := port u; pathname := pathname u;
     searchParams := filter (λ kv, negb (String.eqb (fst kv) param)) (searchParams u);
     hash := hash u |}.

(** ** server/src/utils/helpers.ts *)

Section Helpers.

Context `{UrlApi}.

Definition CHECKS_PER_PAGE : Number.number := 16%Q.

Definition normalizeUrl (url : string) : string :=
  let normalized := JS.trim url in
  let normalized :=
    if negb (JS.startsWith normalized "http://") && negb (JS.startsWith normalized "https://")
    then "https://" +:+ normalized
    else normalized in
  if JS.endsWith normalized "/" then JS.slice_0_m1 normalized else normalized.

Record ValidationResult := {
  valid : bool;
  validation_error : option string
}.

Definition validateUrl (url : string) : ValidationResult :=
  match url_parse url with
  | Some parsed =>
      if negb (JS.array_includes ["http:"; "https:"] (protocol parsed)) then
        {| valid := false;
           validation_error := Some "Invalid protocol. Use http:// or https://" |}
      else
        let hostname := JS.toLowerCase (hostname parsed) in
        if String.eqb hostname "localhost" ||
           String.eqb hostname "127.0.0.1" ||
           JS.startsWith hostname "192.168." ||
           JS.startsWith hostname "10." ||
           JS.startsWith hostname "172.16." ||
           JS.endsWith hostname ".local"
        then
          {| valid := false;
             validation_error := Some "Cannot audit localhost or private IP addresses" |}
        else if negb (JS.includes hostname ".") then
          {| valid := false; validation_error := Some "Invalid domain name" |}
        else
          {| valid := true; validation_error := None |}
  | None =>
      {| valid := false; validation_error := Some "Invalid URL format" |}
  end.

Definition getBaseDomain (url : string) : string :=
  match url_parse url with
  | Some parsed => hostname parsed
  | None => ""
  end.

Definition isInternalLink (baseUrl linkUrl : string) : bool :=
  match url_parse baseUrl with
  | Some base =>
      match url_parse_base linkUrl baseUrl with
      | Some link => String.eqb (hostname base) (hostname link)
      | None => false
      end
  | None => false
  end.

Definition resolveUrl (baseUrl relativeUrl : string) : string :=
  match url_parse_base relativeUrl baseUrl with
  | Some u => url_href u
  | None => ""
  end.

Import Number.

Definition calculateSiteHealthScore (errorsCount warningsCount totalPages : number) : Z :=
  if Number.eqb totalPages 0%Q then 0%Z
  else
    let totalChecks := mul totalPages CHECKS_PER_PAGE in
    let errorWeight := 10%Q in
    let warningWeight := 2%Q in
    let deductions := add (mul errorsCount errorWeight) (mul warningsCount warningWeight) in
    let score := Math_max 0%Q (sub 100%Q (mul (div deductions totalChecks) 100%Q)) in
    Math_round score.

(** The body of the loop of [calculateCrawledPagesBreakdown]: one page is
    counted in exactly one of the four counters. *)
Definition breakdown_step (acc : CrawledPages) (page : PageData) : CrawledPages :=
  let statusCode := statusCode page in
  if (300 <=? statusCode)%Z && (statusCode <? 400)%Z then
    {| total := total acc; healthy := healthy acc; withIssues := withIssues acc;
       redirects := S (redirects acc); broken := broken acc |}
  else if (400 <=? statusCode)%Z then
    {| total := total acc; healthy := healthy acc; withIssues := withIssues acc;
       redirects := redirects acc; broken := S (broken acc) |}
  else if (0 <? length (issues page))%nat then
    {| total := total acc; healthy := healthy acc; withIssues := S (withIssues acc);
       redirects := redirects acc; broken := broken acc |}
  else
    {| total := total acc; healthy := S (healthy acc); withIssues := withIssues acc;
       redirects := redirects acc; broken := broken acc |}.

Definition calculateCrawledPagesBreakdown (pages : list PageData) : CrawledPages :=
  foldl breakdown_step
    {| total := length pages; healthy := 0; withIssues := 0; redirects := 0; broken := 0 |}
    pages.

Definition paramsToRemove : list string :=
  ["utm_source"; "utm_medium"; "utm_campaign"; "utm_term"; "utm_content"; "fbclid"; "gclid"].

Definition sanitizeUrlForCrawl (url : string) : string :=
  match url_parse url with
  | Some parsed =>
      let parsed := set_hash_empty parsed in
      let parsed := foldl (λ u param, searchParams_delete param u) parsed paramsToRemove in
      url_href parsed
  | None => url
  end.

Definition skipExtensions : list string :=
  [ ".pdf"; ".jpg"; ".jpeg"; ".png"; ".gif"; ".svg"; ".webp"; ".ico";
    ".mp4"; ".webm"; ".avi"; ".mov"; ".wmv";
    ".mp3"; ".wav"; ".ogg";
    ".zip"; ".rar"; ".tar"; ".gz";
    ".doc"; ".docx"; ".xls"; ".xlsx"; ".ppt"; ".pptx";
    ".css"; ".js"; ".json"; ".xml"; ".txt" ].

Definition shouldCrawlUrl (url : string) : bool :=
  match url_parse url with
  | Some parsed =>
      if negb (JS.array_includes ["http:"; "https:"] (protocol parsed)) then false
      else
        let pathname := JS.toLowerCase (pathname parsed) in
        if existsb (λ ext, JS.endsWith pathname ext) skipExtensions then false
        else true
  | None => false
  end.

(** *** [extractTextContent]

    The four regular-expression replacements, written as scanners of the
    bytes: [<], [>] and the letters of the tag names are ASCII and occur
    in no other character's encoding. *)

(** [p] is a prefix of [s], ignoring ASCII case: under the [i] flag
    without [u] a character outside ASCII never matches an ASCII
    letter. *)
Fixpoint prefix_ci (p s : string) : bool :=
  match p, s with
  | EmptyString, _ => true
  | String a p', String b s' =>
      Ascii.eqb (JS.lower_ascii a) (JS.lower_ascii b) && prefix_ci p' s'
  | String _ _, EmptyString => false
  end.

Fixpoint string_drop (n : nat) (s : string) : string :=
  match n, s with
  | O, _ => s
  | S n', String _ s' => string_drop n' s'
  | S _, EmptyString => EmptyString
  end.

(** What follows the first occurrence of [p] in [s], ignoring case: the
    lazy [[\s\S]*?] followed by the literal [p]. *)
Fixpoint after_first_ci (p s : string) : option string :=
  if prefix_ci p s then Some (string_drop (String.length p) s)
  else match s with
       | EmptyString => None
       | String _ s' => after_first_ci p s'
       end.

(** [[^>]*>] (with [min = 0]) or [[^>]+>] (with [min = 1]) at the head of
    [s]: the characters up to the first [>], at least [min] of them. *)
Fixpoint upto_gt (min : nat) (s : string) : option string :=
  match s with
  | EmptyString => None
  | String c s' =>
      if Ascii.eqb c ">"%char then
        match min with O => Some s' | S _ => None end
      else upto_gt (pred min) s'
  end.

(** A match of [<tag[^>]*>[\s\S]*?</tag>] with flag [i] at the head of
    [s]; the result is what follows the match. *)
Definition match_block (tag : string) (s : string) : option string :=
  if prefix_ci ("<" +:+ tag) s then
    match upto_gt 0 (string_drop (S (String.length tag)) s) with
    | Some body => after_first_ci ("</" +:+ tag +:+ ">") body
    | None => None
    end
  else None.

(** [s.replace(/<tag[^>]*>[\s\S]*?<\/tag>/gi, '')] *)
Fixpoint replace_block (tag : string) (fuel : nat) (s : string) : string :=
  match fuel with
  | O => s
  | S fuel' =>
      match s with
      | EmptyString => EmptyString
      | String c s' =>
          match match_block tag s with
          | Some rest => replace_block tag fuel' rest
          | None => String c (replace_block tag fuel' s')
          end
      end
  end.

(** [s.replace(/<[^>]+>/g, ' ')] *)
Fixpoint replace_tags (fuel : nat) (s : string) : string :=
  match fuel with
  | O => s
  | S fuel' =>
      match s with
      | EmptyString => EmptyString
      | String c s' =>
          if Ascii.eqb c "<"%char then
            match upto_gt 1 s' with
            | Some rest => String " "%char (replace_tags fuel' rest)
            | None => String c (replace_tags fuel' s')
            end
          else String c (replace_tags fuel' s')
      end
  end.

(** [s.replace(/\s+/g, ' ')]; [in_run] says that the previous character
    was white space, whose run has already been replaced.  No white space
    starts at a continuation byte, so that a character that is not white
    space is copied byte by byte. *)
Fixpoint collapse_spaces_from (in_run : bool) (s : string) : string :=
  match s with
  | EmptyString => EmptyString
  | String c1 s1 =>
      if JS.is_space1 c1 then
        if in_run then collapse_spaces_from true s1
        else String " "%char (collapse_spaces_from true s1)
      else
        match s1 with
        | EmptyString => String c1 (collapse_spaces_from false s1)
        | String c2 s2 =>
            if JS.is_space2 c1 c2 then
              if in_run then collapse_spaces_from true s2
              else String " "%char (collapse_spaces_from true s2)
            else
              match s2 with
              | EmptyString => String c1 (collapse_spaces_from false s1)
              | String c3 s3 =>
                  if JS.is_space3 c1 c2 c3 then
                    if in_run then collapse_spaces_from true s3
                    else String " "%char (collapse_spaces_from true s3)
                  else String c1 (collapse_spaces_from false s1)
              end
        end
  end.

Definition collapse_spaces (s : string) : string := collapse_spaces_from false s.

Definition extractTextContent (html : string) : string :=
  let text := replace_block "script" (String.length html) html in
  let text := replace_block "style" (String.length text) text in
  let text := replace_tags (String.length text) text in
  let text := collapse_spaces text in
  JS.trim text.

Definition calculateTextToHtmlRatio (html : string) : number :=
  let text := extractTextContent html in
  if (JS.length html =? 0)%nat then 0%Q
  else mul (div (of_nat (JS.length text)) (of_nat (JS.length html))) 100%Q.

(** *** [groupIssues] *)

(** The body of the inner loop of [groupIssues]: the map after one more
    issue of the page at [pageUrl].  [ISSUE_DEFINITIONS] is read at its own
    keys: under a name that the object only inherits (as [toString]) the
    source stores a group whose [issueType] is undefined, which neither of
    the two filters at the end lets through, and the model stores none. *)
Definition group_add (pageUrl : string) (issueMap : list (string * IssueGroup))
    (issue : Issue) : list (string * IssueGroup) :=
  let key := issue_code issue in
  match JSMap.get issueMap key with
  | Some existing =>
      JSMap.set issueMap key
        {| group_type := group_type existing;
           group_code := group_code existing;
           group_title := group_title existing;
           group_description := group_description existing;
           group_issueType := group_issueType existing;
           group_count := S (group_count existing);
           group_urls :=
             if negb (JS.array_includes (group_urls existing) pageUrl)
             then group_urls existing ++ [pageUrl]
             else group_urls existing |}
  | None =>
      match ISSUE_DEFINITIONS !! key with
      | Some definition =>
          JSMap.set issueMap key
            {| group_type := key;
               group_code := key;
               group_title := def_title definition;
               group_description := def_description definition;
               group_issueType := def_type definition;
               group_count := 1;
               group_urls := [pageUrl] |}
      | None => issueMap
      end
  end.

(** The map [issueMap] after the two loops of [groupIssues]. *)
Definition issueMap_of (pages : list PageData) : list (string * IssueGroup) :=
  foldl (λ issueMap page, foldl (group_add (url page)) issueMap (issues page)) [] pages.

(** [a.sort((a, b) => b.count - a.count)]: the sort of an array is stable,
    so a group goes before the first group of a smaller count that
    follows it. *)
Fixpoint insert_by_count (x : IssueGroup) (l : list IssueGroup) : list IssueGroup :=
  match l with
  | [] => [x]
  | y :: l' =>
      if (group_count x <? group_count y)%nat then y :: insert_by_count x l'
      else x :: l
  end.

Definition sort_by_count (l : list IssueGroup) : list IssueGroup :=
  foldr insert_by_count [] l.

Definition is_error (i : IssueGroup) : bool :=
  match group_issueType i with error => true | warning => false end.

Definition is_warning (i : IssueGroup) : bool :=
  match group_issueType i with warning => true | error => false end.

Record GroupedIssues := {
  errors : list IssueGroup;
  warnings : list IssueGroup
}.

Definition groupIssues (pages : list PageData) : GroupedIssues :=
  let allIssues := JSMap.values (issueMap_of pages) in
  {| errors := sort_by_count (List.filter is_error allIssues);
     warnings := sort_by_count (List.filter is_warning allIssues) |}.

End Helpers.
(** ** cheerio

    [cheerio.load(html)] is the HTML parser of the cheerio package.  What the
    code reads from a loaded document are the results of a fixed set of
    selector queries; [Dom] is the record of those results, in document
    order, before any processing by the analyzer. *)

Record Dom := {
  (** [$('title').first().text()] *)
  dom_title_text : string;
  (** [$('meta[name="description"]').attr('content')] *)
  dom_meta_description : option string;
  (** [$(el).text()] for each [el] of [$('h1')] *)
  dom_h1_texts : list string;
  (** [$('link[rel="canonical"]').attr('href')] *)
  dom_canonical_href : option string;
  (** [$('meta[name="viewport"]').attr('content')] *)
  dom_viewport : option string;
  (** [$('meta[name="robots"]').attr('content')] *)
  dom_robots : option string;
  (** [$('meta[property="og:title"]').attr('content')] and its two siblings *)
  dom_og_title : option string;
  dom_og_description : option string;
  dom_og_image : option string;
  (** [$(img).attr('alt')] for each [img] of [$('img')] *)
  dom_img_alts : list (option string);
  (** [$(el).attr('href')] for each [el] of [$('a[href]')] *)
  dom_anchor_hrefs : list string
}.

Class Cheerio := {
  cheerio_load : string → Dom
}.

(** ** server/src/services/crawler.ts: the result of one fetch *)

Module CrawlResult.
Record t := {
  url : string;
  statusCode : Z;
  responseTime : Z;
  html : string;
  headers : list (string * string);
  redirectChain : list string;
  error : option string
}.
End CrawlResult.

(** ** server/src/services/analyzer.ts *)

Section Analyzer.

Context `{UrlApi} `{Cheerio}.

Record AnalyzerConfig := {
  checkExternalLinks : bool;
  externalLinkTimeout : Z
}.

Definition DEFAULT_CONFIG : AnalyzerConfig :=
  {| checkExternalLinks := true; externalLinkTimeout := 5000 |}.

Definition createIssue (code : string) : Issue :=
  let definition := ISSUE_DEFINITIONS !! code in
  {| issue_type := from_option def_type warning definition;
     issue_code := code;
     issue_title :=
       match definition with
       | Some d => if JS.truthy (def_title d) then def_title d else code
       | None => code
       end;
     issue_description := from_option def_description "" definition;
     issue_urls := [];
     issue_count := 1 |}.

(** [if (cond) issues.push(createIssue(code))] *)
Definition push_if (cond : bool) (code : string) (issues : list Issue) : list Issue :=
  if cond then issues ++ [createIssue code] else issues.

(** [page.issues = issues] *)
Definition set_issues (page : PageData) (l : list Issue) : PageData :=
  {| url := url page; statusCode := statusCode page; responseTime := responseTime page;
     title := title page; metaDescription := metaDescription page;
     h1Tags := h1Tags page; h1Count := h1Count page;
     hasCanonical := hasCanonical page; canonicalUrl := canonicalUrl page;
     hasViewport := hasViewport page; hasRobotsMeta := hasRobotsMeta page;
     robotsContent := robotsContent page; ogTags := ogTags page; images := images page;
     textToHtmlRatio := textToHtmlRatio page; pageSize := pageSize page;
     internalLinks := internalLinks page; externalLinks := externalLinks page;
     issues := l |}.

(** The page data [analyzePage] starts from. *)
Definition initialPageData (result : CrawlResult.t) : PageData :=
  {| url := CrawlResult.url result;
     statusCode := CrawlResult.statusCode result;
     responseTime := CrawlResult.responseTime result;
     title := None;
     metaDescription := None;
     h1Tags := [];
     h1Count := 0;
     hasCanonical := false;
     canonicalUrl := None;
     hasViewport := false;
     hasRobotsMeta := false;
     robotsContent := None;
     ogTags := {| og_title := None; og_description := None; og_image := None |};
     images := {| images_total := 0; images_withoutAlt := 0 |};
     textToHtmlRatio := 0%Q;
     pageSize := JS.length (CrawlResult.html result);
     internalLinks := [];
     externalLinks := [];
     issues := [] |}.

(** The body of the [$('a[href]').each] callback: the two link arrays
    after one more anchor. *)
Definition link_step (resultUrl baseUrl : string)
    (links : list string * list string) (href : string) : list string * list string :=
  let '(internalLinks, externalLinks) := links in
  if JS.truthy href then
    let absoluteUrl := resolveUrl resultUrl href in
    if JS.truthy absoluteUrl then
      if isInternalLink baseUrl absoluteUrl then
        if negb (JS.array_includes internalLinks absoluteUrl)
        then (internalLinks ++ [absoluteUrl], externalLinks)
        else links
      else if JS.startsWith absoluteUrl "http" then
        if negb (JS.array_includes externalLinks absoluteUrl)
        then (internalLinks, externalLinks ++ [absoluteUrl])
        else links
      else links
    else links
  else links.

Definition extract_links (resultUrl baseUrl : string) (hrefs : list string)
    : list string * list string :=
  foldl (link_step resultUrl baseUrl) ([], []) hrefs.

(** The checks of [analyzePage] on the title, the meta description and the
    H1 count, each with the issues pushed before it. *)
Definition check_title (title : string) (issues : list Issue) : list Issue :=
  if negb (JS.truthy title) then push_if true ERROR_CODES.MISSING_TITLE issues
  else
    let issues := push_if (60 <? JS.length title)%nat WARNING_CODES.TITLE_TOO_LONG issues in
    push_if (JS.length title <? 30)%nat WARNING_CODES.TITLE_TOO_SHORT issues.

Definition check_metaDescription (metaDescription : option string) (issues : list Issue)
    : list Issue :=
  match metaDescription with
  | None => push_if true WARNING_CODES.MISSING_META_DESCRIPTION issues
  | Some d =>
      let issues :=
        push_if (160 <? JS.length d)%nat WARNING_CODES.META_DESCRIPTION_TOO_LONG issues in
      push_if (JS.length d <? 70)%nat WARNING_CODES.META_DESCRIPTION_TOO_SHORT issues
  end.

Definition check_h1 (h1Count : nat) (issues : list Issue) : list Issue :=
  if (h1Count =? 0)%nat then push_if true WARNING_CODES.MISSING_H1 issues
  else push_if (1 <? h1Count)%nat WARNING_CODES.MULTIPLE_H1 issues.

(** The part of [analyzePage] that needs the markup, in the order of the
    source; [issues] are the issues pushed before it. *)
Definition analyzeMarkup (result : CrawlResult.t) (baseUrl : string)
    (dom : Dom) (issues : list Issue) : PageData :=
  let html := CrawlResult.html result in
  (* title *)
  let title := JS.trim (dom_title_text dom) in
  let issues := check_title title issues in
  (* meta description *)
  let metaDescription := JS.or_null (JS.trim <$> dom_meta_description dom) in
  let issues := check_metaDescription metaDescription issues in
  (* h1 *)
  let h1Count := length (dom_h1_texts dom) in
  let h1Tags := filter (λ t, JS.truthy t = true) (JS.trim <$> dom_h1_texts dom) in
  let issues := check_h1 h1Count issues in
  (* canonical *)
  let canonical := dom_canonical_href dom in
  let issues := push_if (negb (JS.truthy_opt canonical)) WARNING_CODES.MISSING_CANONICAL issues in
  (* viewport *)
  let viewport := dom_viewport dom in
  let issues := push_if (negb (JS.truthy_opt viewport)) WARNING_CODES.MISSING_VIEWPORT issues in
  (* robots meta *)
  let robotsMeta := dom_robots dom in
  let issues := push_if (negb (JS.truthy_opt robotsMeta)) WARNING_CODES.MISSING_ROBOTS_META issues in
  (* Open Graph *)
  let og :=
    {| og_title := JS.or_null (dom_og_title dom);
       og_description := JS.or_null (dom_og_description dom);
       og_image := JS.or_null (dom_og_image dom) |} in
  let issues :=
    push_if (negb (JS.truthy_opt (og_title og)) &&
             negb (JS.truthy_opt (og_description og)) &&
             negb (JS.truthy_opt (og_image og)))
      WARNING_CODES.MISSING_OG_TAGS issues in
  (* images *)
  let imagesWithoutAlt :=
    length (filter (λ alt, JS.truthy_opt alt = false) (dom_img_alts dom)) in
  let issues := push_if (0 <? imagesWithoutAlt)%nat WARNING_CODES.MISSING_ALT_TEXT issues in
  (* text to HTML ratio, page size, response time *)
  let ratio := calculateTextToHtmlRatio html in
  let issues := push_if (Number.ltb ratio 10%Q) WARNING_CODES.LOW_TEXT_HTML_RATIO issues in
  let pageSize := JS.length html in
  let issues :=
    push_if (3 * 1024 * 1024 <? Z.of_nat pageSize)%Z WARNING_CODES.LARGE_PAGE_SIZE issues in
  let issues :=
    push_if (3000 <? CrawlResult.responseTime result)%Z WARNING_CODES.SLOW_RESPONSE issues in
  (* links *)
  let links := extract_links (CrawlResult.url result) baseUrl (dom_anchor_hrefs dom) in
  {| url := CrawlResult.url result;
     statusCode := CrawlResult.statusCode result;
     responseTime := CrawlResult.responseTime result;
     title := if JS.truthy title then Some title else None;
     metaDescription := metaDescription;
     h1Tags := h1Tags;
     h1Count := h1Count;
     hasCanonical := JS.truthy_opt canonical;
     canonicalUrl := JS.or_null canonical;
     hasViewport := JS.truthy_opt viewport;
     hasRobotsMeta := JS.truthy_opt robotsMeta;
     robotsContent := JS.or_null robotsMeta;
     ogTags := og;
     images := {| images_total := length (dom_img_alts dom);
                  images_withoutAlt := imagesWithoutAlt |};
     textToHtmlRatio := ratio;
     pageSize := pageSize;
     internalLinks := fst links;
     externalLinks := snd links;
     issues := issues |}.

Definition analyzePage (result : CrawlResult.t) (baseUrl : string)
    (config : AnalyzerConfig) : PageData :=
  let issues := [] in
  let dollar :=
    if JS.truthy (CrawlResult.html result)
    then Some (cheerio_load (CrawlResult.html result)) else None in
  let pageData := initialPageData result in
  let issues :=
    push_if (500 <=? CrawlResult.statusCode result)%Z ERROR_CODES.SERVER_ERROR issues in
  let issues :=
    push_if (3 <=? length (CrawlResult.redirectChain result))%nat
      ERROR_CODES.REDIRECT_CHAIN issues in
  match dollar with
  | None => set_issues pageData issues
  | Some dom =>
      if negb (JS.truthy (CrawlResult.html result)) then set_issues pageData issues
      else analyzeMarkup result baseUrl dom issues
  end.

(** [linkedPages.add(link)] and the addition of its slash variant. *)
Definition add_link (linkedPages : gset string) (link : string) : gset string :=
  let linkedPages := {[link]} ∪ linkedPages in
  if JS.endsWith link "/" then {[JS.slice_0_m1 link]} ∪ linkedPages
  else {[link +:+ "/"]} ∪ linkedPages.

(** The set [linkedPages] after the first loop of [detectOrphanPages]. *)
Definition linkedPages_of (pages : list PageData) (baseUrl : string) : gset string :=
  foldl (λ linkedPages page, foldl add_link linkedPages (internalLinks page))
        ({[baseUrl +:+ "/"]} ∪ ({[baseUrl]} ∪ ∅)) pages.

(** [linkedPages.has(x)] *)
Definition has (linkedPages : gset string) (x : string) : bool :=
  bool_decide (x ∈ linkedPages).

(** The body of the second loop of [detectOrphanPages]. *)
Definition orphan_check (linkedPages : gset string) (baseUrl : string)
    (page : PageData) : PageData :=
  let url := url page in
  let urlWithSlash := if JS.endsWith url "/" then url else url +:+ "/" in
  let urlWithoutSlash := if JS.endsWith url "/" then JS.slice_0_m1 url else url in
  if negb (has linkedPages url) && negb (has linkedPages urlWithSlash) &&
     negb (has linkedPages urlWithoutSlash)
  then
    if negb (String.eqb url baseUrl) && negb (String.eqb url (baseUrl +:+ "/"))
    then set_issues page (issues page ++ [createIssue WARNING_CODES.ORPHAN_PAGE])
    else page
  else page.

Definition detectOrphanPages (pages : list PageData) (baseUrl : string) : list PageData :=
  let linkedPages := linkedPages_of pages baseUrl in
  orphan_check linkedPages baseUrl <$> pages.

Definition analyzeCrawlResults (crawlResults : list CrawlResult.t) (baseUrl : string)
    (config : AnalyzerConfig) : list PageData :=
  let pageDataList := (λ result, analyzePage result baseUrl config) <$> crawlResults in
  detectOrphanPages pageDataList baseUrl.

End Analyzer.

(** ** server/src/services/analyzer.ts: the link checks

    [checkBrokenLinks] and [checkExternalLinks] change the issue lists of
    the pages in place: they return the pages they leave. *)

Module LinkChecks.

(** The map [crawledUrls] after the first loop of [checkBrokenLinks]. *)
Definition crawledUrls_of (crawlResults : list CrawlResult.t) : gmap string Z :=
  foldl (λ crawledUrls result,
           let url := CrawlResult.url result in
           let status := CrawlResult.statusCode result in
           let crawledUrls := <[url := status]> crawledUrls in
           if JS.endsWith url "/" then <[JS.slice_0_m1 url := status]> crawledUrls
           else <[url +:+ "/" := status]> crawledUrls)
        ∅ crawlResults.

(** [a || b] on [number | undefined]: [0] and [undefined] are falsy. *)
Definition num_or (a b : option Z) : option Z :=
  match a with
  | Some n => if (n =? 0)%Z then b else a
  | None => b
  end.

(** [link.replace(/\/$/, '')] *)
Definition replace_trailing_slash (link : string) : string :=
  if JS.endsWith link "/" then JS.slice_0_m1 link else link.

(** [crawledUrls.get(link) || crawledUrls.get(link + '/') ||
    crawledUrls.get(link.replace(/\/$/, ''))] *)
Definition link_status (crawledUrls : gmap string Z) (link : string) : option Z :=
  num_or (num_or (crawledUrls !! link) (crawledUrls !! (link +:+ "/")))
         (crawledUrls !! replace_trailing_slash link).

(** [statusCode && statusCode >= 400 && statusCode < 600] *)
Definition is_broken_status (statusCode : option Z) : bool :=
  match statusCode with
  | Some n => negb (n =? 0)%Z && (400 <=? n)%Z && (n <? 600)%Z
  | None => false
  end.

(** [issues.some(i => i.code === code)] *)
Definition has_issue (issues : list Issue) (code : string) : bool :=
  existsb (λ i, String.eqb (issue_code i) code) issues.

(** The body of the loop of [checkBrokenLinks] over the internal links of
    one page. *)
Definition check_broken_link (crawledUrls : gmap string Z) (issues : list Issue)
    (link : string) : list Issue :=
  if is_broken_status (link_status crawledUrls link) then
    if negb (has_issue issues ERROR_CODES.BROKEN_INTERNAL_LINK)
    then issues ++ [createIssue ERROR_CODES.BROKEN_INTERNAL_LINK]
    else issues
  else issues.

Definition checkBrokenLinks (pages : list PageData) (crawlResults : list CrawlResult.t)
    : list PageData :=
  let crawledUrls := crawledUrls_of crawlResults in
  (λ page, set_issues page
             (foldl (check_broken_link crawledUrls) (issues page) (internalLinks page)))
  <$> pages.

(** *** [checkExternalLinks] *)

Section ExternalLinks.

(** [axios.head(link, { timeout, ... })]: the status of the response, or
    [None] when the request fails. *)
Variable head : string → Z → option Z.

(** The keys of the map [externalLinks], in the order of their insertion. *)
Definition collect_external (pages : list PageData) : list string :=
  foldl (λ keys page,
           foldl (λ keys link,
                    if negb (JS.array_includes keys link) then keys ++ [link] else keys)
                 keys (externalLinks page))
        [] pages.

Definition linksToCheck (pages : list PageData) : list string :=
  take 50 (collect_external pages).

(** The probe of one link: broken when the response is at least 400 or the
    request fails. *)
Definition probe_broken (timeout : Z) (link : string) : bool :=
  match head link timeout with
  | Some status => (400 <=? status)%Z
  | None => true
  end.

(** The set [brokenLinks] once every probe has settled. *)
Definition brokenLinks_of (pages : list PageData) (timeout : Z) : gset string :=
  list_to_set (List.filter (probe_broken timeout) (linksToCheck pages)).

(** The body of the last loop of [checkExternalLinks] over the external
    links of one page. *)
Definition check_external_link (brokenLinks : gset string) (issues : list Issue)
    (link : string) : list Issue :=
  if bool_decide (link ∈ brokenLinks) then
    if negb (has_issue issues ERROR_CODES.BROKEN_EXTERNAL_LINK)
    then issues ++ [createIssue ERROR_CODES.BROKEN_EXTERNAL_LINK]
    else issues
  else issues.

Definition checkExternalLinks (pages : list PageData) (timeout : Z) : list PageData :=
  let brokenLinks := brokenLinks_of pages timeout in
  (λ page, set_issues page
             (foldl (check_external_link brokenLinks) (issues page)
                    (externalLinks page)))
  <$> pages.

End ExternalLinks.

End LinkChecks.


(** ** server/src/routes/audit.ts

    The results that [runAudit] builds from the crawl results, without the
    identifier, the time stamps and the writes to the database and to
    the progress map. *)

Module Audit.

Section RunAudit.

Context `{UrlApi} `{Cheerio}.

(** [axios.head], as in [LinkChecks]. *)
Variable head : string → Z → option Z.

(** The pages after [analyzeCrawlResults], [checkBrokenLinks] and
    [checkExternalLinks]. *)
Definition analyzed_pages (url : string) (crawlResults : list CrawlResult.t)
    : list PageData :=
  let pages := analyzeCrawlResults crawlResults url DEFAULT_CONFIG in
  let pages := LinkChecks.checkBrokenLinks pages crawlResults in
  LinkChecks.checkExternalLinks head pages 5000.

(** [groups.reduce((sum, e) => sum + e.count, 0)]: a sum of counters,
    exact in JavaScript numbers below [2^53]. *)
Definition sum_counts (groups : list IssueGroup) : nat :=
  foldl (λ sum e, sum + group_count e)%nat 0%nat groups.

(** The two lists of [const { errors, warnings } = groupIssues(pages)]. *)
Definition error_groups (pages : list PageData) : list IssueGroup :=
  errors (groupIssues pages).

Definition warning_groups (pages : list PageData) : list IssueGroup :=
  warnings (groupIssues pages).

Record AuditResults := {
  siteHealthScore : Z;
  crawledPages : CrawledPages;
  totalPages : nat;
  pagesCrawled : nat;
  errorsCount : nat;
  warningsCount : nat;
  errors : list IssueGroup;
  warnings : list IssueGroup;
  pages : list PageData
}.

Definition runAudit (url : string) (crawlResults : list CrawlResult.t) : AuditResults :=
  let pages := analyzed_pages url crawlResults in
  let errors := error_groups pages in
  let warnings := warning_groups pages in
  let crawledPages := calculateCrawledPagesBreakdown pages in
  let errorsCount := sum_counts errors in
  let warningsCount := sum_counts warnings in
  let siteHealthScore :=
    calculateSiteHealthScore (Number.of_nat errorsCount) (Number.of_nat warningsCount)
      (Number.of_nat (length pages)) in
  {| siteHealthScore := siteHealthScore;
     crawledPages := crawledPages;
     totalPages := length pages;
     pagesCrawled := length pages;
     errorsCount := errorsCount;
     warningsCount := warningsCount;
     errors := errors;
     warnings := warnings;
     pages := pages |}.

End RunAudit.

End Audit.


(** ** server/src/services/crawler.ts

    The crawler is a single-threaded event loop: [processQueue] suspends at
    its 100 ms timer, every [crawlPage] call suspends at [axios.get], and
    [stop] may be called from outside.  Its state is the fields of the
    [Crawler] object together with the pending [crawlPage] calls; what runs
    between two suspension points is one step of the machine. *)

Module Crawler.

Record CrawlerConfig := {
  maxPages : nat;
  maxDepth : nat;
  timeout : Z;
  respectRobotsTxt : bool;
  userAgent : string;
  maxConcurrentRequests : nat
}.

(** The defaults when the environment variables are not set. *)
Definition DEFAULT_CONFIG : CrawlerConfig :=
  {| maxPages := 50;
     maxDepth := 3;
     timeout := 10000;
     respectRobotsTxt := true;
     userAgent := "SnappySEOBot/1.0 (+https://gosnappy.io)";
     maxConcurrentRequests := 5 |}.

(** An element of [queue]: [{ url, depth }]. *)
Record Target := {
  target_url : string;
  target_depth : nat
}.

(** Where [crawl] stands. *)
Inductive Phase :=
| Waiting    (* in the outer loop of processQueue, at the 100 ms timer *)
| Spinning   (* in the outer loop, iterating without ever suspending *)
| Draining.  (* past the outer loop, at Promise.all(promises) *)

Record State := {
  visited : gset string;
  queue : list Target;
  results : list CrawlResult.t;
  activeRequests : nat;
  stopped : bool;
  (** the [crawlPage(url, depth)] calls suspended at [axios.get] *)
  pending : list Target;
  phase : Phase
}.

(** How [axios.get] settles.  [data] is [Some] when [response.data] is a
    string; [redirects] are the hops recorded by [beforeRedirect];
    [elapsed] is [Date.now() - startTime]. *)
Inductive Outcome :=
| Response (status : Z) (data : option string) (headers : list (string * string))
           (redirects : list string) (elapsed : Z)
| Failure (message : string) (elapsed : Z).

Inductive Event :=
| Tick                                  (* the 100 ms timer fires *)
| Settle (i : nat) (o : Outcome)        (* the i-th pending fetch settles *)
| Stop.                                 (* stop() is called *)

(** [emitProgress]: the progress object that is emitted. *)
Definition emitProgress (status : ProgressStatus) (pagesCrawled totalPagesFound : nat)
    (currentUrl : string) : AuditProgress :=
  {| progress_status := status;
     pagesCrawled := pagesCrawled;
     totalPagesFound := totalPagesFound;
     currentUrl := currentUrl;
     percentComplete :=
       if (0 <? totalPagesFound)%nat then
         Number.Math_round
           (Number.mul (Number.div (Number.of_nat pagesCrawled) (Number.of_nat totalPagesFound))
                       100%Q)
       else 0%Z;
     progress_error := None |}.

(** The progress [crawlPage] emits at its end, in the state it leaves. *)
Definition crawlPage_progress (st : State) (url : string) : AuditProgress :=
  emitProgress crawling (length (results st))
    (Nat.max (length (results st)) (length (queue st) + length (results st))) url.

(** The progress [crawl] emits before it returns. *)
Definition crawl_progress (st : State) : AuditProgress :=
  emitProgress complete (length (results st)) (length (results st)) "".

Section Machine.

Context `{UrlApi} `{Cheerio}.

Variable config : CrawlerConfig.
(** [this.robotsTxt]: [None] is [null]; the function is
    [robotsTxt.isAllowed], whose result may be [undefined]. *)
Variable robotsTxt : option (string → string → option bool).
(** [this.baseUrl] *)
Variable baseUrl : string.

Definition isAllowedByRobots (url : string) : bool :=
  match robotsTxt with
  | None => true
  | Some isAllowed =>
      match isAllowed url (userAgent config) with
      | Some false => false
      | _ => true
      end
  end.

Definition extractLinks (html baseUrl : string) : list string :=
  foldl (λ links href,
           if JS.truthy href then
             let absoluteUrl := resolveUrl baseUrl href in
             if JS.truthy absoluteUrl && negb (JS.array_includes links absoluteUrl)
             then links ++ [absoluteUrl]
             else links
           else links)
        [] (dom_anchor_hrefs (cheerio_load html)).

Definition set_queue (st : State) (q : list Target) : State :=
  {| visited := visited st; queue := q; results := results st;
     activeRequests := activeRequests st; stopped := stopped st;
     pending := pending st; phase := phase st |}.

Definition set_phase (st : State) (p : Phase) : State :=
  {| visited := visited st; queue := queue st; results := results st;
     activeRequests := activeRequests st; stopped := stopped st;
     pending := pending st; phase := p |}.

(** [visited.add(url); activeRequests++; crawlPage(url, depth)] up to the
    suspension of [crawlPage] at [axios.get]. *)
Definition start_request (st : State) (url : string) (depth : nat) : State :=
  {| visited := {[url]} ∪ visited st; queue := queue st; results := results st;
     activeRequests := S (activeRequests st); stopped := stopped st;
     pending := pending st ++ [{| target_url := url; target_depth := depth |}];
     phase := phase st |}.

(** The inner loop of [processQueue], by recursion on the queue it
    shifts. *)
Fixpoint dispatch (q : list Target) (st : State) : State :=
  match q with
  | [] => set_queue st []
  | item :: q' =>
      if (activeRequests st <? maxConcurrentRequests config)%nat &&
         (length (results st) <? maxPages config)%nat &&
         negb (stopped st)
      then
        let normalizedUrl := sanitizeUrlForCrawl (target_url item) in
        if bool_decide (normalizedUrl ∈ visited st) then dispatch q' st
        else if (maxDepth config <? target_depth item)%nat then dispatch q' st
        else if negb (isAllowedByRobots normalizedUrl) then dispatch q' st
        else dispatch q' (start_request st normalizedUrl (target_depth item))
      else set_queue st (item :: q')
  end.

(** One iteration of the outer loop of [processQueue], from its test to
    its next suspension.  When the inner loop leaves a non-empty queue
    and nothing is in flight, the next iteration finds the same state and
    so does every later one: the loop never suspends again. *)
Definition processQueue_iter (st : State) : State :=
  if ((0 <? length (queue st))%nat || (0 <? activeRequests st)%nat) && negb (stopped st)
  then
    let st := dispatch (queue st) st in
    if (0 <? activeRequests st)%nat then set_phase st Waiting
    else if (length (queue st) =? 0)%nat then set_phase st Draining
    else set_phase st Spinning
  else set_phase st Draining.

(** The loop of [crawlPage] over the extracted links. *)
Definition enqueue_links (st : State) (depth : nat) (links : list string) : list Target :=
  foldl (λ q link,
           if isInternalLink baseUrl link &&
              shouldCrawlUrl link &&
              negb (bool_decide (sanitizeUrlForCrawl link ∈ visited st)) &&
              (length (results st) + length q <? maxPages config)%nat
           then q ++ [{| target_url := link; target_depth := depth + 1 |}]
           else q)
        (queue st) links.

(** [crawlPage(url, depth)] from the settlement of [axios.get] to its
    end, followed by the [finally] callback. *)
Definition crawlPage_resume (st : State) (url : string) (depth : nat) (o : Outcome) : State :=
  match o with
  | Response status data headers redirects elapsed =>
      let result :=
        {| CrawlResult.url := url;
           CrawlResult.statusCode := status;
           CrawlResult.responseTime := elapsed;
           CrawlResult.html := default "" data;
           CrawlResult.headers := headers;
           CrawlResult.redirectChain := redirects;
           CrawlResult.error := None |} in
      let q :=
        match data with
        | Some html =>
            if (200 <=? status)%Z && (status <? 400)%Z &&
               (length (results st) <? maxPages config)%nat
            then enqueue_links st depth (extractLinks html url)
            else queue st
        | None => queue st
        end in
      {| visited := visited st; queue := q; results := results st ++ [result];
         activeRequests := pred (activeRequests st); stopped := stopped st;
         pending := pending st; phase := phase st |}
  | Failure message elapsed =>
      let result :=
        {| CrawlResult.url := url;
           CrawlResult.statusCode := 0;
           CrawlResult.responseTime := elapsed;
           CrawlResult.html := "";
           CrawlResult.headers := [];
           CrawlResult.redirectChain := [];
           CrawlResult.error :=
             Some (if JS.truthy message then message else "Unknown error") |} in
      {| visited := visited st; queue := queue st; results := results st ++ [result];
         activeRequests := pred (activeRequests st); stopped := stopped st;
         pending := pending st; phase := phase st |}
  end.

Definition set_pending (st : State) (l : list Target) : State :=
  {| visited := visited st; queue := queue st; results := results st;
     activeRequests := activeRequests st; stopped := stopped st;
     pending := l; phase := phase st |}.

Definition step (st : State) (e : Event) : State :=
  match phase st with
  | Spinning => st
  | _ =>
      match e with
      | Tick =>
          match phase st with
          | Waiting => processQueue_iter st
          | _ => st
          end
      | Settle i o =>
          match pending st !! i with
          | Some t =>
              crawlPage_resume (set_pending st (delete i (pending st)))
                (target_url t) (target_depth t) o
          | None => st
          end
      | Stop =>
          {| visited := visited st; queue := queue st; results := results st;
             activeRequests := activeRequests st; stopped := true;
             pending := pending st; phase := phase st |}
      end
  end.

(** [crawl(startUrl)] up to the first suspension of [processQueue], on a
    [Crawler] object that runs no other crawl, as [crawlWebsite] makes
    them. *)
Definition crawl_start (startUrl : string) : State :=
  processQueue_iter
    {| visited := ∅;
       queue := [{| target_url := startUrl; target_depth := 0 |}];
       results := [];
       activeRequests := 0;
       stopped := false;
       pending := [];
       phase := Waiting |}.

Definition run (st : State) (events : list Event) : State := foldl step st events.

(** What [crawl] returns, once it does: [Promise.all] resolves when
    nothing is pending any more. *)
Definition returned (st : State) : option (list CrawlResult.t) :=
  match phase st, pending st with
  | Draining, [] => Some (results st)
  | _, _ => None
  end.

End Machine.

(** [crawl(startUrl)] under a schedule of events; [this.baseUrl] is
    [startUrl]. *)
Definition crawl `{UrlApi} `{Cheerio} (config : CrawlerConfig)
    (robotsTxt : option (string → string → option bool))
    (startUrl : string) (events : list Event) : State :=
  run config robotsTxt startUrl (crawl_start config robotsTxt startUrl) events.

End Crawler.

(** ** A concrete runtime for the examples

    The answers of the URL class and of cheerio on the strings the examples
    below use, as tables: every row is what Node.js returns for that input.
    Inputs outside the tables are treated as unparsable. *)

Module Demo.

Fixpoint assoc {A : Type} (k : string) (l : list (string * A)) : option A :=
  match l with
  | [] => None
  | (k', v) :: l' => if String.eqb k k' then Some v else assoc k l'
  end.

Definition mkurl (protocol hostname pathname : string) : URL :=
  {| protocol := protocol; userinfo := ""; hostname := hostname; port := "";
     pathname := pathname; searchParams := []; hash := "" |}.

Definition home := mkurl "https:" "shop.example" "/".
Definition page_a := mkurl "https:" "shop.example" "/a".
Definition page_b := mkurl "https:" "shop.example" "/b".

(** [new URL(input)]; the parser puts the host name in lower case. *)
Definition absolute_urls : list (string * URL) :=
  [ ("https://shop.example", home);
    ("https://shop.example/", home);
    ("https://shop.example/a", page_a);
    ("https://shop.example/b", page_b);
    ("http://172.20.0.1", mkurl "http:" "172.20.0.1" "/");
    ("http://127.0.0.2", mkurl "http:" "127.0.0.2" "/");
    ("ftp://shop.example/catalog.zip", mkurl "ftp:" "shop.example" "/catalog.zip");
    ("mailto:info@shop.example", mkurl "mailto:" "" "info@shop.example");
    ("https://Shop.Example", home) ].

(** Path-absolute references, resolved against a base of [shop.example]. *)
Definition relative_urls : list (string * URL) :=
  [ ("/", home); ("/a", page_a); ("/b", page_b) ].

Definition serialize_params (l : list (string * string)) : string :=
  match l with
  | [] => ""
  | _ => "?" +:+ String.concat "&" ((λ kv, fst kv +:+ "=" +:+ snd kv) <$> l)
  end.

(** The serialiser, for URLs without credentials and port. *)
Definition href (u : URL) : string :=
  (if String.eqb (hostname u) "" then protocol u else protocol u +:+ "//" +:+ hostname u)
  +:+ pathname u +:+ serialize_params (searchParams u) +:+ hash u.

Definition parse (input : string) : option URL := assoc input absolute_urls.

(** [new URL(input, base)]: the base must parse; an absolute input ignores
    it; a path-absolute reference takes the place of the base's path. *)
Definition parse_base (input base : string) : option URL :=
  match parse base with
  | None => None
  | Some b =>
      match parse input with
      | Some u => Some u
      | None =>
          if String.eqb (hostname b) "shop.example" then assoc input relative_urls
          else None
      end
  end.

#[export] Instance url_api : UrlApi :=
  {| url_parse := parse; url_parse_base := parse_base; url_href := href |}.

Definition empty_dom : Dom :=
  {| dom_title_text := ""; dom_meta_description := None; dom_h1_texts := [];
     dom_canonical_href := None; dom_viewport := None; dom_robots := None;
     dom_og_title := None; dom_og_description := None; dom_og_image := None;
     dom_img_alts := []; dom_anchor_hrefs := [] |}.

Definition with_anchors (hrefs : list string) : Dom :=
  {| dom_title_text := ""; dom_meta_description := None; dom_h1_texts := [];
     dom_canonical_href := None; dom_viewport := None; dom_robots := None;
     dom_og_title := None; dom_og_description := None; dom_og_image := None;
     dom_img_alts := []; dom_anchor_hrefs := hrefs |}.

(** A home page that links to two pages, and a page without links. *)
Definition home_html : string := "<a href='/a'>A</a><a href='/b'>B</a>".
Definition leaf_html : string := "<p>Nothing to see here.</p>".

(** A page with a mail link, a download link on the same host and an
    ordinary link. *)
Definition links_html : string :=
  "<a href='mailto:info@shop.example'>Mail</a><a href='ftp://shop.example/catalog.zip'>Catalog</a><a href='/a'>A</a>".

(** A page with a title of 45 characters, a description of 100, one H1, a
    canonical link and a viewport, and neither Open Graph tags nor images;
    [robots] is its robots meta element, if any. *)
Definition product_html (robots : string) : string :=
  "<html><head><title>Handcrafted oak tables and chairs for my home</title>"
  +:+ "<meta name='description' content='Browse solid oak dining tables, chairs and shelves, built to order in our workshop and shipped free.'>"
  +:+ "<link rel='canonical' href='https://shop.example/'>"
  +:+ "<meta name='viewport' content='width=device-width, initial-scale=1'>"
  +:+ robots
  +:+ "</head><body><h1>Oak furniture, built to order</h1>"
  +:+ "<p>Every piece is cut, joined and finished by hand from sustainably grown oak. Choose a size and a finish, and we deliver within four weeks.</p>"
  +:+ "</body></html>".

Definition robots_meta : string := "<meta name='robots' content='index, follow'>".

Definition product_dom (robots : option string) : Dom :=
  {| dom_title_text := "Handcrafted oak tables and chairs for my home";
     dom_meta_description :=
       Some "Browse solid oak dining tables, chairs and shelves, built to order in our workshop and shipped free.";
     dom_h1_texts := ["Oak furniture, built to order"];
     dom_canonical_href := Some "https://shop.example/";
     dom_viewport := Some "width=device-width, initial-scale=1";
     dom_robots := robots;
     dom_og_title := None; dom_og_description := None; dom_og_image := None;
     dom_img_alts := []; dom_anchor_hrefs := [] |}.

(** [cheerio.load(html)] *)
Definition documents : list (string * Dom) :=
  [ (home_html, with_anchors ["/a"; "/b"]);
    (leaf_html, empty_dom);
    (links_html,
      with_anchors ["mailto:info@shop.example"; "ftp://shop.example/catalog.zip"; "/a"]);
    (product_html "", product_dom None);
    (product_html robots_meta, product_dom (Some "index, follow")) ].

#[export] Instance cheerio : Cheerio :=
  {| cheerio_load := λ html, default empty_dom (assoc html documents) |}.

(** A fetch that answers [200] with the given body in 120 ms. *)
Definition ok (html : string) : Crawler.Outcome :=
  Crawler.Response 200 (Some html) [("content-type", "text/html")] [] 120.

(** A crawl limited to two pages, five requests at a time. *)
Definition two_pages : Crawler.CrawlerConfig :=
  {| Crawler.maxPages := 2;
     Crawler.maxDepth := 3;
     Crawler.timeout := 10000;
     Crawler.respectRobotsTxt := true;
     Crawler.userAgent := "SnappySEOBot/1.0 (+https://gosnappy.io)";
     Crawler.maxConcurrentRequests := 5 |}.

(** A crawl limited to one page. *)
Definition one_page : Crawler.CrawlerConfig :=
  {| Crawler.maxPages := 1;
     Crawler.maxDepth := 3;
     Crawler.timeout := 10000;
     Crawler.respectRobotsTxt := true;
     Crawler.userAgent := "SnappySEOBot/1.0 (+https://gosnappy.io)";
     Crawler.maxConcurrentRequests := 5 |}.

(** A crawl limited to two pages, one request at a time. *)
Definition one_at_a_time : Crawler.CrawlerConfig :=
  {| Crawler.maxPages := 2;
     Crawler.maxDepth := 3;
     Crawler.timeout := 10000;
     Crawler.respectRobotsTxt := true;
     Crawler.userAgent := "SnappySEOBot/1.0 (+https://gosnappy.io)";
     Crawler.maxConcurrentRequests := 1 |}.

(** The home page answers; the timer fires and both links are fetched at
    once; both answer; the timer fires again. *)
Definition schedule : list Crawler.Event :=
  [ Crawler.Settle 0 (ok home_html);
    Crawler.Tick;
    Crawler.Settle 0 (ok leaf_html);
    Crawler.Settle 0 (ok leaf_html);
    Crawler.Tick ].

(** The home page answers [503] without a body, after the given redirects. *)
Definition unavailable (redirects : list string) : CrawlResult.t :=
  {| CrawlResult.url := "https://shop.example/";
     CrawlResult.statusCode := 503;
     CrawlResult.responseTime := 250;
     CrawlResult.html := "";
     CrawlResult.headers := [];
     CrawlResult.redirectChain := redirects;
     CrawlResult.error := None |}.

Definition three_hops : list string :=
  ["https://www.shop.example/"; "https://shop.example/home"; "https://shop.example/"].

Definition fetched (url html : string) : CrawlResult.t :=
  {| CrawlResult.url := url;
     CrawlResult.statusCode := 200;
     CrawlResult.responseTime := 120;
     CrawlResult.html := html;
     CrawlResult.headers := [("content-type", "text/html")];
     CrawlResult.redirectChain := [];
     CrawlResult.error := None |}.

End Demo.


(** ** Further examples *)

Module Cases.

Import Demo.

(** Three analysed pages: the product page without robots meta, the home
    page that answers 503 after three redirects, and a page without
    markup of interest. *)
Definition product_page : PageData :=
  analyzePage (fetched "https://shop.example/a" (product_html ""))
    "https://shop.example" DEFAULT_CONFIG.

Definition unavailable_page : PageData :=
  analyzePage (unavailable three_hops) "https://shop.example" DEFAULT_CONFIG.

Definition leaf_page : PageData :=
  analyzePage (fetched "https://shop.example/b" leaf_html)
    "https://shop.example" DEFAULT_CONFIG.

Definition three_pages : list PageData := [product_page; unavailable_page; leaf_page].

(** The group of the issue [missing_og_tags] over the three pages. *)
Definition og_group : IssueGroup :=
  {| group_type := "missing_og_tags";
     group_code := "missing_og_tags";
     group_title := "Missing Open Graph tags";
     group_description := "Pages without OG tags for social sharing";
     group_issueType := warning;
     group_count := 2;
     group_urls := ["https://shop.example/a"; "https://shop.example/b"] |}.

(** The home page, which links to [/a] and [/b]. *)
Definition home_page : PageData :=
  analyzePage (fetched "https://shop.example/" home_html)
    "https://shop.example" DEFAULT_CONFIG.

(** A fetch that is answered [404], and one that is not answered. *)
Definition not_found (url : string) : CrawlResult.t :=
  {| CrawlResult.url := url;
     CrawlResult.statusCode := 404;
     CrawlResult.responseTime := 80;
     CrawlResult.html := "<h1>Not found</h1>";
     CrawlResult.headers := [("content-type", "text/html")];
     CrawlResult.redirectChain := [];
     CrawlResult.error := None |}.

Definition failed (url : string) : CrawlResult.t :=
  {| CrawlResult.url := url;
     CrawlResult.statusCode := 0;
     CrawlResult.responseTime := 10000;
     CrawlResult.html := "";
     CrawlResult.headers := [];
     CrawlResult.redirectChain := [];
     CrawlResult.error := Some "timeout of 10000ms exceeded" |}.

(** The home page and its two links: [/a] is missing in the first crawl
    and unreachable in the second. *)
Definition crawl_with_404 : list CrawlResult.t :=
  [ fetched "https://shop.example/" home_html;
    not_found "https://shop.example/a";
    fetched "https://shop.example/b" leaf_html ].

Definition crawl_with_timeout : list CrawlResult.t :=
  [ fetched "https://shop.example/" home_html;
    failed "https://shop.example/a";
    fetched "https://shop.example/b" leaf_html ].

(** A page with two links to other sites. *)
Definition partners_page : PageData :=
  {| url := "https://shop.example/partners"; statusCode := 200; responseTime := 120;
     title := Some "Our partners"; metaDescription := None;
     h1Tags := ["Partners"]; h1Count := 1;
     hasCanonical := false; canonicalUrl := None;
     hasViewport := true; hasRobotsMeta := false; robotsContent := None;
     ogTags := {| og_title := None; og_description := None; og_image := None |};
     images := {| images_total := 0; images_withoutAlt := 0 |};
     textToHtmlRatio := 40%Q; pageSize := 2048;
     internalLinks := ["https://shop.example/"];
     externalLinks := ["https://forest.example/"; "https://mill.example/closed"];
     issues := [] |}.

(** Every site answers [200]; and every site but the mill does. *)
Definition all_up (link : string) (timeout : Z) : option Z := Some 200%Z.

Definition mill_down (link : string) (timeout : Z) : option Z :=
  if String.eqb link "https://mill.example/closed" then None else Some 200%Z.

(** Titles outside ASCII: 58 characters in 64 bytes, 16 characters in 48
    bytes, and 45 characters between U+00A0 and U+2028. *)
Definition french_title : string :=
  "Tables et chaises en chêne, façonnées à la main à Besançon".

Definition japanese_title : string := "手作りのオーク材のテーブルと椅子".

Definition padded_title : string :=
  String "194"%char (String "160"%char
    ("Handcrafted oak tables and chairs for my home"
     +:+ String "226"%char (String "128"%char (String "168"%char "")))).

End Cases.

(** ** Notions used by the statements *)

(** The four categories of [calculateCrawledPagesBreakdown]. *)
Inductive Category := Redirect | Broken | WithIssues | Healthy.

#[export] Instance Category_eq_dec : EqDecision Category.
Proof. solve_decision. Defined.

(** The branch of the loop body a page takes. *)
Definition category (page : PageData) : Category :=
  if (300 <=? statusCode page)%Z && (statusCode page <? 400)%Z then Redirect
  else if (400 <=? statusCode page)%Z then Broken
  else if (0 <? length (issues page))%nat then WithIssues
  else Healthy.

Definition count (c : Category) (pages : list PageData) : nat :=
  length (filter (λ page, category page = c) pages).

(** A URL without its trailing slash, if it has one: [urlWithoutSlash] of
    [detectOrphanPages]. *)
Definition without_slash (url : string) : string :=
  if JS.endsWith url "/" then JS.slice_0_m1 url else url.

(** What [link_step] keeps true of the two link arrays. *)
Definition links_classified `{UrlApi} (baseUrl : string)
    (links : list string * list string) : Prop :=
  Forall (λ u, isInternalLink baseUrl u = true) (fst links) ∧
  Forall (λ u, isInternalLink baseUrl u = false ∧ JS.startsWith u "http" = true) (snd links).

(** The URLs fetched or being fetched by the crawler. *)
Definition crawled_urls (st : Crawler.State) : list string :=
  (CrawlResult.url <$> Crawler.results st) ++ (Crawler.target_url <$> Crawler.pending st).

(** What every step of the crawler keeps true: a URL is fetched at most
    once, every fetched URL is a sanitised URL marked as visited, the counter
    of active requests is the number of pending fetches, and results and
    active requests together stay below the page cap plus the concurrency
    cap. *)
Record crawler_inv `{UrlApi} (config : Crawler.CrawlerConfig) (st : Crawler.State) : Prop := {
  inv_nodup : NoDup (crawled_urls st);
  inv_visited : ∀ u, u ∈ crawled_urls st →
                u ∈ Crawler.visited st ∧ ∃ x, u = sanitizeUrlForCrawl x;
  inv_active : Crawler.activeRequests st = length (Crawler.pending st);
  inv_bound : (length (Crawler.results st) + Crawler.activeRequests st
               <= Crawler.maxPages config + Crawler.maxConcurrentRequests config - 1)%nat
}.

(** Every issue of every page, with the URL of its page, in the order
    [groupIssues] meets them. *)
Definition occurrences (pages : list PageData) : list (string * Issue) :=
  pages ≫= (λ page, (λ i, (url page, i)) <$> issues page).

(** The number of occurrences of the issue code [k]. *)
Definition count_code (k : string) (L : list (string * Issue)) : nat :=
  length (filter (λ e, issue_code (snd e) = k) L).

(** What the group stored under the key [k] is, once the occurrences [L]
    have been added to the map of [groupIssues]. *)
Record group_ok (L : list (string * Issue)) (k : string) (g : IssueGroup) : Prop := {
  ok_code : group_code g = k;
  ok_type : group_type g = k;
  ok_def : ISSUE_DEFINITIONS !! k =
           Some {| def_title := group_title g;
                   def_description := group_description g;
                   def_type := group_issueType g |};
  ok_count : group_count g = count_code k L;
  ok_nodup : NoDup (group_urls g);
  ok_urls : ∀ u, u ∈ group_urls g ↔ ∃ i, (u, i) ∈ L ∧ issue_code i = k
}.

Record map_ok (L : list (string * Issue)) (m : list (string * IssueGroup)) : Prop := {
  mok_keys : NoDup (JSMap.keys m);
  mok_some : ∀ k g, JSMap.get m k = Some g → group_ok L k g;
  mok_none : ∀ k, JSMap.get m k = None →
             ISSUE_DEFINITIONS !! k = None ∨ count_code k L = 0%nat
}.

(** The sum of the counts of the groups of type [t]. *)
Definition type_total (t : IssueType) (l : list IssueGroup) : nat :=
  sum_list_with (λ g, if decide (group_issueType g = t) then group_count g else 0%nat) l.

(** The severity that the taxonomy gives to an issue code, if it has it. *)
Definition severity (code : string) : option IssueType :=
  def_type <$> ISSUE_DEFINITIONS !! code.

(** The issues of the pages whose code has the severity [t]. *)
Definition issues_of_type (t : IssueType) (pages : list PageData) : list Issue :=
  filter (λ i, severity (issue_code i) = Some t) (pages ≫= issues).


(** The first loop of [checkBrokenLinks] stores the status of [result]
    under the key [k]: under its URL and under that URL with the
    trailing slash taken away or put on. *)
Definition stored_under (k : string) (result : CrawlResult.t) : bool :=
  let url := CrawlResult.url result in
  String.eqb k url ||
  (if JS.endsWith url "/" then String.eqb k (JS.slice_0_m1 url)
   else String.eqb k (url +:+ "/")).

(** The test of [checkBrokenLinks] on one link. *)
Definition broken_target (crawlResults : list CrawlResult.t) (link : string) : bool :=
  LinkChecks.is_broken_status
    (LinkChecks.link_status (LinkChecks.crawledUrls_of crawlResults) link).

(** [page'] is [page], with one issue of [code] more at the end of its
    issues if [cond] holds, and as it was if not. *)
Definition gains (code : string) (cond : Prop) (page page' : PageData) : Prop :=
  page' = set_issues page (issues page') ∧
  ((cond ∧ issues page' = issues page ++ [createIssue code]) ∨
   (¬ cond ∧ issues page' = issues page)).


(** The codes of a list of issues. *)
Definition codes (l : list Issue) : list string := issue_code <$> l.

(** The codes that [analyzePage] pushes, in the order of its checks. *)
Definition analysis_order : list string :=
  [ ERROR_CODES.SERVER_ERROR; ERROR_CODES.REDIRECT_CHAIN;
    ERROR_CODES.MISSING_TITLE; WARNING_CODES.TITLE_TOO_LONG; WARNING_CODES.TITLE_TOO_SHORT;
    WARNING_CODES.MISSING_META_DESCRIPTION; WARNING_CODES.META_DESCRIPTION_TOO_LONG;
    WARNING_CODES.META_DESCRIPTION_TOO_SHORT;
    WARNING_CODES.MISSING_H1; WARNING_CODES.MULTIPLE_H1;
    WARNING_CODES.MISSING_CANONICAL; WARNING_CODES.MISSING_VIEWPORT;
    WARNING_CODES.MISSING_ROBOTS_META; WARNING_CODES.MISSING_OG_TAGS;
    WARNING_CODES.MISSING_ALT_TEXT; WARNING_CODES.LOW_TEXT_HTML_RATIO;
    WARNING_CODES.LARGE_PAGE_SIZE; WARNING_CODES.SLOW_RESPONSE ].

(** The pairs of codes whose checks are branches of one conditional or
    bounds on one length. *)
Definition exclusive_codes : list (string * string) :=
  [ (ERROR_CODES.MISSING_TITLE, WARNING_CODES.TITLE_TOO_LONG);
    (ERROR_CODES.MISSING_TITLE, WARNING_CODES.TITLE_TOO_SHORT);
    (WARNING_CODES.TITLE_TOO_LONG, WARNING_CODES.TITLE_TOO_SHORT);
    (WARNING_CODES.MISSING_META_DESCRIPTION, WARNING_CODES.META_DESCRIPTION_TOO_LONG);
    (WARNING_CODES.MISSING_META_DESCRIPTION, WARNING_CODES.META_DESCRIPTION_TOO_SHORT);
    (WARNING_CODES.META_DESCRIPTION_TOO_LONG, WARNING_CODES.META_DESCRIPTION_TOO_SHORT);
    (WARNING_CODES.MISSING_H1, WARNING_CODES.MULTIPLE_H1) ].

(** No pair of [exclusive_codes] is in [cs] with both its codes. *)
Definition exclusive (cs : list string) : Prop :=
  Forall (λ p, ¬ (fst p ∈ cs ∧ snd p ∈ cs)) exclusive_codes.


(** An issue as [createIssue] makes it from a code of the taxonomy. *)
Definition known_issue (i : Issue) : Prop :=
  i = createIssue (issue_code i) ∧ is_Some (severity (issue_code i)).

(** All the issues of the pages. *)
Definition all_issues (pages : list PageData) : list Issue := pages ≫= issues.


(** [url] with a trailing slash. *)
Definition with_slash (url : string) : string :=
  if JS.endsWith url "/" then url else url +:+ "/".

(** The first loop of [detectOrphanPages] adds [x] for the link [link]:
    [x] is the link, or the link with its trailing slash taken away or
    put on. *)
Definition added_for (link x : string) : bool :=
  String.eqb x link ||
  (if JS.endsWith link "/" then String.eqb x (JS.slice_0_m1 link)
   else String.eqb x (link +:+ "/")).

(** [x] is in the set [linkedPages] of [detectOrphanPages]. *)
Definition is_linked (pages : list PageData) (baseUrl x : string) : Prop :=
  x = baseUrl ∨ x = baseUrl +:+ "/" ∨
  ∃ page link, page ∈ pages ∧ link ∈ internalLinks page ∧ added_for link x = true.


(** What every step of the crawler keeps true of the requests it makes:
    robots.txt allows every URL that was or is being fetched, no request
    is deeper than [maxDepth], and the requests in flight are as many as
    the counter says and no more than [maxConcurrentRequests]. *)
Record crawler_polite (config : Crawler.CrawlerConfig)
    (robotsTxt : option (string → string → option bool)) (st : Crawler.State) : Prop := {
  polite_results :
    Forall (λ r, Crawler.isAllowedByRobots config robotsTxt (CrawlResult.url r) = true)
      (Crawler.results st);
  polite_pending :
    Forall (λ t, Crawler.isAllowedByRobots config robotsTxt (Crawler.target_url t) = true ∧
                 (Crawler.target_depth t <= Crawler.maxDepth config)%nat)
      (Crawler.pending st);
  polite_active : Crawler.activeRequests st = length (Crawler.pending st);
  polite_concurrency :
    (Crawler.activeRequests st <= Crawler.maxConcurrentRequests config)%nat
}.


(** From [st0] on nothing was started: requests in flight have settled,
    each into one more result. *)
Definition only_settled (st0 st : Crawler.State) : Prop :=
  Crawler.pending st `sublist_of` Crawler.pending st0 ∧
  Crawler.results st0 `prefix_of` Crawler.results st ∧
  (length (Crawler.results st) + length (Crawler.pending st)
   = length (Crawler.results st0) + length (Crawler.pending st0))%nat.

(** A list that is empty or has one element of a given list is a
    sublist of it. *)
Ltac one_of_the_lists :=
  first [ apply sublist_nil_l
        | apply singleton_sublist_l;
          repeat first [apply list_elem_of_here | apply list_elem_of_further] ].

(** A sum over the bytes of a text. *)
Fixpoint weight (w : ascii → nat) (s : string) : nat :=
  match s with
  | EmptyString => 0%nat
  | String c s' => (w c + weight w s')%nat
  end.

(** * Properties *)

Import Demo.

(** ** Strings *)

Lemma app_cons (c : ascii) (s t : string) : String c s +:+ t = String c (s +:+ t).
Proof. reflexivity. Qed.

Lemma endsWith_app_slash (s : string) : JS.endsWith (s +:+ "/") "/" = true.
Proof.
  induction s as [|c s IH]; [reflexivity|].
  rewrite app_cons. cbn [JS.endsWith]. rewrite IH. apply orb_true_r.
Qed.

Lemma slice_app_slash (s : string) : JS.slice_0_m1 (s +:+ "/") = s.
Proof.
  induction s as [|c s IH]; [reflexivity|].
  rewrite app_cons. cbn [JS.slice_0_m1]. rewrite IH.
  destruct s; reflexivity.
Qed.

Lemma endsWith_slash_inv (s : string) :
  JS.endsWith s "/" = true → s = JS.slice_0_m1 s +:+ "/".
Proof.
  induction s as [|c s IH]; [discriminate|].
  destruct s as [|d s'].
  - intros E. cbn [JS.endsWith] in E. rewrite orb_false_r in E.
    apply String.eqb_eq in E. by rewrite E.
  - intros E. cbn [JS.endsWith] in E.
    replace (String.eqb (String c (String d s')) "/") with false in E.
    + cbn [orb] in E. apply IH in E.
      change (JS.slice_0_m1 (String c (String d s')))
        with (String c (JS.slice_0_m1 (String d s'))).
      rewrite app_cons. by rewrite <- E.
    + symmetry. apply String.eqb_neq. intros E'. inversion E'.
Qed.

Lemma without_slash_eq (u b : string) :
  without_slash u = without_slash b →
  u = b ∨ u = b +:+ "/" ∨ (JS.endsWith u "/" = false ∧ u +:+ "/" = b).
Proof.
  unfold without_slash.
  destruct (JS.endsWith u "/") eqn:Eu, (JS.endsWith b "/") eqn:Eb; intros E.
  - left. rewrite (endsWith_slash_inv u Eu), (endsWith_slash_inv b Eb). by rewrite E.
  - right; left. rewrite (endsWith_slash_inv u Eu). by rewrite E.
  - right; right. split; [done|]. rewrite (endsWith_slash_inv b Eb). by rewrite E.
  - by left.
Qed.

(** ** The pages breakdown *)

Lemma breakdown_step_total (acc : CrawledPages) (page : PageData) :
  total (breakdown_step acc page) = total acc.
Proof. unfold breakdown_step. repeat case_match; reflexivity. Qed.

Lemma breakdown_step_counts (acc : CrawledPages) (page : PageData) :
  let b := breakdown_step acc page in
  redirects b = redirects acc + count Redirect [page] ∧
  broken b = broken acc + count Broken [page] ∧
  withIssues b = withIssues acc + count WithIssues [page] ∧
  healthy b = healthy acc + count Healthy [page].
Proof.
  unfold breakdown_step, count, category. cbn [filter list_filter].
  destruct ((300 <=? statusCode page)%Z && (statusCode page <? 400)%Z);
    [|destruct (400 <=? statusCode page)%Z;
      [|destruct (0 <? length (issues page))%nat]];
    repeat case_decide; try discriminate; try congruence; cbn; lia.
Qed.

Lemma count_app (c : Category) (l1 l2 : list PageData) :
  count c (l1 ++ l2) = count c l1 + count c l2.
Proof. unfold count. by rewrite filter_app, length_app. Qed.

Lemma breakdown_fold (pages : list PageData) (acc : CrawledPages) :
  let b := foldl breakdown_step acc pages in
  total b = total acc ∧
  redirects b = redirects acc + count Redirect pages ∧
  broken b = broken acc + count Broken pages ∧
  withIssues b = withIssues acc + count WithIssues pages ∧
  healthy b = healthy acc + count Healthy pages.
Proof.
  revert acc. induction pages as [|page pages IH]; intros acc.
  - cbn. unfold count. cbn. lia.
  - cbn [foldl]. specialize (IH (breakdown_step acc page)).
    destruct IH as (Ht & Hr & Hb & Hw & Hh).
    pose proof (breakdown_step_total acc page) as Ht'.
    destruct (breakdown_step_counts acc page) as (Hr' & Hb' & Hw' & Hh').
    change (page :: pages) with ([page] ++ pages).
    rewrite !count_app. cbn zeta. lia.
Qed.

Lemma count_partition (pages : list PageData) :
  count Healthy pages + count WithIssues pages + count Redirect pages + count Broken pages
  = length pages.
Proof.
  induction pages as [|page pages IH]; [reflexivity|].
  change (page :: pages) with ([page] ++ pages). rewrite !count_app.
  cbn [length app]. rewrite <- IH.
  unfold count at 1 3 5 7. cbn [filter list_filter].
  destruct (category page); repeat case_decide; try congruence; cbn; lia.
Qed.

(** C3. For every list of pages, the breakdown's [total] is the number of
    pages, and [healthy + withIssues + redirects + broken] is that total:
    every page is counted in exactly one category. *)
Theorem breakdown_partitions_pages (pages : list PageData) :
  let b := calculateCrawledPagesBreakdown pages in
  total b = length pages ∧
  healthy b + withIssues b + redirects b + broken b = total b.
Proof.
  unfold calculateCrawledPagesBreakdown.
  destruct (breakdown_fold pages
              {| total := length pages; healthy := 0; withIssues := 0;
                 redirects := 0; broken := 0 |}) as (Ht & Hr & Hb & Hw & Hh).
  cbn zeta. cbn [total healthy withIssues redirects broken] in *.
  pose proof (count_partition pages). lia.
Qed.

Lemma breakdown_counts (pages : list PageData) :
  let b := calculateCrawledPagesBreakdown pages in
  redirects b = count Redirect pages ∧ broken b = count Broken pages ∧
  withIssues b = count WithIssues pages ∧ healthy b = count Healthy pages.
Proof.
  unfold calculateCrawledPagesBreakdown.
  destruct (breakdown_fold pages
              {| total := length pages; healthy := 0; withIssues := 0;
                 redirects := 0; broken := 0 |}) as (Ht & Hr & Hb & Hw & Hh).
  cbn zeta. cbn [total healthy withIssues redirects broken] in *. lia.
Qed.

Lemma count_single (c : Category) (page : PageData) :
  count c [page] = if decide (category page = c) then 1 else 0.
Proof. unfold count. cbn [filter list_filter]. by case_decide. Qed.

Lemma category_status_0 (page : PageData) :
  statusCode page = 0%Z →
  category page = match issues page with [] => Healthy | _ => WithIssues end.
Proof.
  intros E. unfold category. rewrite E. cbn.
  destruct (issues page); reflexivity.
Qed.

(** C9. A page with status code 0 (transport failure), wherever it stands in
    the list, adds one to [healthy] when it has no issue and one to
    [withIssues] otherwise, and nothing to [broken] or [redirects]. *)
Theorem status_0_page_is_healthy_or_withIssues
    (before after : list PageData) (page : PageData) :
  statusCode page = 0%Z →
  let b := calculateCrawledPagesBreakdown (before ++ page :: after) in
  let b' := calculateCrawledPagesBreakdown (before ++ after) in
  broken b = broken b' ∧ redirects b = redirects b' ∧
  match issues page with
  | [] => healthy b = S (healthy b') ∧ withIssues b = withIssues b'
  | _ :: _ => withIssues b = S (withIssues b') ∧ healthy b = healthy b'
  end.
Proof.
  intros E b b'.
  destruct (breakdown_counts (before ++ page :: after)) as (Hr & Hb & Hw & Hh).
  destruct (breakdown_counts (before ++ after)) as (Hr' & Hb' & Hw' & Hh').
  fold b in Hr, Hb, Hw, Hh. fold b' in Hr', Hb', Hw', Hh'.
  rewrite Hr, Hb, Hw, Hh, Hr', Hb', Hw', Hh'.
  change (page :: after) with ([page] ++ after). rewrite !count_app.
  rewrite !count_single, (category_status_0 page E).
  destruct (issues page); repeat case_decide; try congruence; lia.
Qed.

(** A failed fetch of the example home page, between two healthy pages. *)
Lemma status_0_page_is_healthy_or_withIssues_witness :
  let ok_page := analyzePage (fetched "https://shop.example/a" leaf_html)
                   "https://shop.example" DEFAULT_CONFIG in
  let failed :=
    {| url := "https://shop.example/b"; statusCode := 0; responseTime := 10000;
       title := None; metaDescription := None; h1Tags := []; h1Count := 0;
       hasCanonical := false; canonicalUrl := None; hasViewport := false;
       hasRobotsMeta := false; robotsContent := None;
       ogTags := {| og_title := None; og_description := None; og_image := None |};
       images := {| images_total := 0; images_withoutAlt := 0 |};
       textToHtmlRatio := 0%Q; pageSize := 0; internalLinks := []; externalLinks := [];
       issues := [] |} in
  let b := calculateCrawledPagesBreakdown ([ok_page] ++ failed :: [ok_page]) in
  let b' := calculateCrawledPagesBreakdown ([ok_page] ++ [ok_page]) in
  broken b = broken b' ∧ redirects b = redirects b' ∧
  healthy b = S (healthy b') ∧ withIssues b = withIssues b'.
Proof.
  intros ok_page failed.
  apply (status_0_page_is_healthy_or_withIssues [ok_page] [ok_page] failed).
  reflexivity.
Defined.

(** ** Orphan detection *)

Lemma add_link_mono (s : gset string) (link x : string) :
  x ∈ s → x ∈ add_link s link.
Proof. unfold add_link. case_match; set_solver. Qed.

Lemma fold_add_link_mono (links : list string) (s : gset string) (x : string) :
  x ∈ s → x ∈ foldl add_link s links.
Proof.
  revert s. induction links as [|link links IH]; intros s Hx; [done|].
  cbn [foldl]. by apply IH, add_link_mono.
Qed.

Lemma linkedPages_mono (pages : list PageData) (s : gset string) (x : string) :
  x ∈ s →
  x ∈ foldl (λ linkedPages page, foldl add_link linkedPages (internalLinks page)) s pages.
Proof.
  revert s. induction pages as [|page pages IH]; intros s Hx; [done|].
  cbn [foldl]. by apply IH, fold_add_link_mono.
Qed.

Lemma homepage_is_linked (pages : list PageData) (baseUrl : string) :
  has (linkedPages_of pages baseUrl) baseUrl = true ∧
  has (linkedPages_of pages baseUrl) (baseUrl +:+ "/") = true.
Proof.
  unfold has, linkedPages_of.
  split; apply bool_decide_eq_true, linkedPages_mono; set_solver.
Qed.

(** A page whose URL is the base URL, with or without a trailing slash on
    either of the two, leaves [detectOrphanPages] as it entered it: no
    [orphan_page] issue is appended to a homepage that is recorded under
    the base URL. *)
Theorem homepage_is_never_orphan
    (pages : list PageData) (baseUrl : string) (i : nat) (page : PageData) :
  pages !! i = Some page →
  without_slash (url page) = without_slash baseUrl →
  detectOrphanPages pages baseUrl !! i = Some page.
Proof.
  intros Hi Hu. unfold detectOrphanPages.
  rewrite list_lookup_fmap, Hi. cbn. f_equal.
  destruct (homepage_is_linked pages baseUrl) as [Hb Hs].
  unfold orphan_check.
  destruct (without_slash_eq _ _ Hu) as [E | [E | [Ens E]]].
  - rewrite E, Hb. reflexivity.
  - rewrite E, Hs. reflexivity.
  - rewrite Ens, E, Hb. cbn. by rewrite andb_false_r.
Qed.

(** The home page of the example site, which nothing links to, keeps its
    issues. *)
Lemma homepage_is_never_orphan_witness :
  let page := analyzePage (fetched "https://shop.example/" leaf_html)
                "https://shop.example" DEFAULT_CONFIG in
  detectOrphanPages [page] "https://shop.example" !! 0%nat = Some page.
Proof.
  intros page.
  apply (homepage_is_never_orphan [page] "https://shop.example" 0 page);
    reflexivity.
Defined.

(** ** The page analyzer *)

Section AnalyzerProperties.

Context `{UrlApi} `{Cheerio}.

Lemma analyzePage_without_html (r : CrawlResult.t) (baseUrl : string) (cfg : AnalyzerConfig) :
  CrawlResult.html r = "" →
  analyzePage r baseUrl cfg =
  set_issues (initialPageData r)
    (push_if (3 <=? length (CrawlResult.redirectChain r))%nat ERROR_CODES.REDIRECT_CHAIN
       (push_if (500 <=? CrawlResult.statusCode r)%Z ERROR_CODES.SERVER_ERROR [])).
Proof. intros E. unfold analyzePage. rewrite E. reflexivity. Qed.

Lemma analyzePage_with_html (r : CrawlResult.t) (baseUrl : string) (cfg : AnalyzerConfig) :
  CrawlResult.html r ≠ "" →
  analyzePage r baseUrl cfg =
  analyzeMarkup r baseUrl (cheerio_load (CrawlResult.html r))
    (push_if (3 <=? length (CrawlResult.redirectChain r))%nat ERROR_CODES.REDIRECT_CHAIN
       (push_if (500 <=? CrawlResult.statusCode r)%Z ERROR_CODES.SERVER_ERROR [])).
Proof.
  intros E. unfold analyzePage.
  assert (JS.truthy (CrawlResult.html r) = true) as ->; [|reflexivity].
  unfold JS.truthy. apply negb_true_iff, String.eqb_neq, E.
Qed.

Lemma orphan_check_cases (s : gset string) (baseUrl : string) (page : PageData) :
  orphan_check s baseUrl page = page ∨
  orphan_check s baseUrl page =
    set_issues page (issues page ++ [createIssue WARNING_CODES.ORPHAN_PAGE]).
Proof. unfold orphan_check. repeat case_match; auto. Qed.

(** C5, as the code has it. A fetch result with status code 503, an empty
    body and fewer than three redirect hops is analysed into the initial
    page data with the single issue [server_error_5xx]: no check that needs
    the markup is made, whatever the HTML parser would answer.  In the page
    list of [analyzeCrawlResults] that page is found either unchanged or
    with [orphan_page] appended by the second pass. *)
Theorem server_error_without_body
    (r : CrawlResult.t) (baseUrl : string) (cfg : AnalyzerConfig) :
  CrawlResult.statusCode r = 503%Z →
  CrawlResult.html r = "" →
  (length (CrawlResult.redirectChain r) < 3)%nat →
  let page := set_issues (initialPageData r) [createIssue ERROR_CODES.SERVER_ERROR] in
  analyzePage r baseUrl cfg = page ∧
  ∀ (crawlResults : list CrawlResult.t) (i : nat),
    crawlResults !! i = Some r →
    analyzeCrawlResults crawlResults baseUrl cfg !! i = Some page ∨
    analyzeCrawlResults crawlResults baseUrl cfg !! i =
      Some (set_issues (initialPageData r)
              [createIssue ERROR_CODES.SERVER_ERROR;
               createIssue WARNING_CODES.ORPHAN_PAGE]).
Proof.
  intros Hs Hh Hr page.
  assert (analyzePage r baseUrl cfg = page) as Hp.
  { rewrite analyzePage_without_html by done. rewrite Hs.
    replace (3 <=? length (CrawlResult.redirectChain r))%nat with false
      by (symmetry; apply Nat.leb_gt; lia).
    reflexivity. }
  split; [exact Hp|].
  intros crawlResults i Hi. unfold analyzeCrawlResults, detectOrphanPages.
  rewrite !list_lookup_fmap, Hi. cbn [fmap option_fmap option_map]. rewrite Hp.
  match goal with |- context [orphan_check ?s _ _] =>
    destruct (orphan_check_cases s baseUrl page) as [-> | ->] end; auto.
Qed.

(** C4, as the code has it. A page with a body, a status code below 500,
    fewer than three redirect hops, a response time of at most 3000 ms, at
    most 3 Mi code units of markup of which at least 10 percent is text, a
    title of 45 and a meta description of 100 UTF-16 code units after
    [trim] (which is what [.length] counts: characters, but for those
    outside the Basic Multilingual Plane, which count twice), one H1, a
    canonical link, a viewport meta and a robots meta, no Open Graph tag
    and no image is analysed into exactly one issue, the warning
    [missing_og_tags]. *)
Theorem only_og_tags_missing
    (r : CrawlResult.t) (baseUrl : string) (cfg : AnalyzerConfig) :
  let page := analyzePage r baseUrl cfg in
  CrawlResult.html r ≠ "" →
  (CrawlResult.statusCode r < 500)%Z →
  (length (CrawlResult.redirectChain r) < 3)%nat →
  (CrawlResult.responseTime r <= 3000)%Z →
  (Z.of_nat (pageSize page) <= 3 * 1024 * 1024)%Z →
  Number.ltb (textToHtmlRatio page) 10%Q = false →
  (∃ t, title page = Some t ∧ JS.length t = 45%nat) →
  (∃ d, metaDescription page = Some d ∧ JS.length d = 100%nat) →
  h1Count page = 1%nat →
  hasCanonical page = true →
  hasViewport page = true →
  hasRobotsMeta page = true →
  ogTags page = {| og_title := None; og_description := None; og_image := None |} →
  images_total (images page) = 0%nat →
  issues page = [createIssue WARNING_CODES.MISSING_OG_TAGS] ∧
  issue_type <$> issues page = [warning] ∧
  issue_code <$> issues page = ["missing_og_tags"].
Proof.
  intros page Hhtml Hstatus Hchain Htime. subst page.
  rewrite analyzePage_with_html by done.
  replace (500 <=? CrawlResult.statusCode r)%Z with false
    by (symmetry; apply Z.leb_gt; lia).
  replace (3 <=? length (CrawlResult.redirectChain r))%nat with false
    by (symmetry; apply Nat.leb_gt; lia).
  unfold analyzeMarkup.
  cbn [pageSize textToHtmlRatio title metaDescription h1Count hasCanonical
       hasViewport hasRobotsMeta ogTags images images_total issues].
  intros Hsize Hratio (t & Ht & Htl) (d & Hd & Hdl) Hh1 Hcan Hview Hrob Hog Himg.
  set (dom := cheerio_load (CrawlResult.html r)) in *.
  (* title: present, neither too long nor too short *)
  destruct (JS.truthy (JS.trim (dom_title_text dom))) eqn:Etitle; [|discriminate].
  injection Ht as Ht.
  assert (check_title (JS.trim (dom_title_text dom)) [] = []) as Hc1.
  { unfold check_title. rewrite Etitle, Ht, Htl. reflexivity. }
  (* meta description: present, neither too long nor too short *)
  rewrite Hd.
  assert (check_metaDescription (Some d) [] = []) as Hc2.
  { unfold check_metaDescription. rewrite Hdl. reflexivity. }
  (* the remaining conditions *)
  injection Hog as Hog1 Hog2 Hog3.
  apply length_zero_iff_nil in Himg.
  replace (3 * 1024 * 1024 <? Z.of_nat (JS.length (CrawlResult.html r)))%Z
    with false by (symmetry; apply Z.ltb_ge; lia).
  replace (3000 <? CrawlResult.responseTime r)%Z
    with false by (symmetry; apply Z.ltb_ge; lia).
  cbn [og_title og_description og_image].
  rewrite Hratio, Himg, Hog1, Hog2, Hog3, Hrob, Hview, Hcan, Hh1.
  cbn [push_if]. rewrite Hc1, Hc2.
  repeat split.
Qed.

Lemma link_step_classified (resultUrl baseUrl href : string)
    (links : list string * list string) :
  links_classified baseUrl links →
  links_classified baseUrl (link_step resultUrl baseUrl links href).
Proof.
  destruct links as [int ext]. intros [Hi He]. unfold link_step.
  destruct (JS.truthy href); [|by split].
  destruct (JS.truthy (resolveUrl resultUrl href)); [|by split].
  destruct (isInternalLink baseUrl (resolveUrl resultUrl href)) eqn:Eint.
  - destruct (negb _); [|by split].
    split; [|done]. cbn [fst]. apply Forall_app. split; [done|]. by constructor.
  - destruct (JS.startsWith (resolveUrl resultUrl href) "http") eqn:Ehttp; [|by split].
    destruct (negb _); [|by split].
    split; [done|]. cbn [snd]. apply Forall_app. split; [done|]. by constructor.
Qed.

Lemma extract_links_classified (resultUrl baseUrl : string) (hrefs : list string) :
  links_classified baseUrl (extract_links resultUrl baseUrl hrefs).
Proof.
  unfold extract_links.
  assert (links_classified baseUrl ([], [])) as Hinit by (split; constructor).
  revert Hinit. generalize (([], []) : list string * list string).
  induction hrefs as [|href hrefs IH]; intros links Hl; [done|].
  cbn [foldl]. by apply IH, link_step_classified.
Qed.

(** C10, as the code has it. In every analysed page, a URL that is not on the
    host of the base URL and does not begin with [http] (a [mailto:], [tel:]
    or [javascript:] link) is in neither [internalLinks] nor
    [externalLinks]. *)
Theorem foreign_scheme_links_are_skipped
    (r : CrawlResult.t) (baseUrl : string) (cfg : AnalyzerConfig) (u : string) :
  isInternalLink baseUrl u = false →
  JS.startsWith u "http" = false →
  (u ∉ internalLinks (analyzePage r baseUrl cfg)) ∧
  (u ∉ externalLinks (analyzePage r baseUrl cfg)).
Proof.
  intros Hint Hhttp.
  destruct (decide (CrawlResult.html r = "")) as [E|E].
  - rewrite analyzePage_without_html by done. cbn. split; apply not_elem_of_nil.
  - rewrite analyzePage_with_html by done.
    unfold analyzeMarkup. cbn [internalLinks externalLinks].
    destruct (extract_links_classified (CrawlResult.url r) baseUrl
                (dom_anchor_hrefs (cheerio_load (CrawlResult.html r)))) as [Hi He].
    rewrite Forall_forall in Hi, He.
    split; intros Hin.
    + apply Hi in Hin. congruence.
    + apply He in Hin. destruct Hin. congruence.
Qed.

Lemma array_includes_elem_of (a : list string) (x : string) :
  JS.array_includes a x = true ↔ x ∈ a.
Proof.
  unfold JS.array_includes. rewrite existsb_exists. split.
  - intros (y & Hy & E). apply String.eqb_eq in E. subst y. by apply list_elem_of_In.
  - intros Hx. exists x. split; [by apply list_elem_of_In | apply String.eqb_refl].
Qed.

Lemma link_step_nodup (resultUrl baseUrl href : string)
    (links : list string * list string) :
  NoDup (fst links) ∧ NoDup (snd links) →
  NoDup (fst (link_step resultUrl baseUrl links href)) ∧
  NoDup (snd (link_step resultUrl baseUrl links href)).
Proof.
  destruct links as [int ext]. cbn [fst snd]. intros [Hi He]. unfold link_step.
  repeat case_match; cbn [fst snd]; split; try done.
  - apply NoDup_app. split; [done|]. split; [|apply NoDup_singleton].
    intros x Hx Hx'. apply list_elem_of_singleton in Hx'. subst x.
    apply array_includes_elem_of in Hx.
    match goal with E : negb _ = true |- _ => rewrite Hx in E; discriminate end.
  - apply NoDup_app. split; [done|]. split; [|apply NoDup_singleton].
    intros x Hx Hx'. apply list_elem_of_singleton in Hx'. subst x.
    apply array_includes_elem_of in Hx.
    match goal with E : negb _ = true |- _ => rewrite Hx in E; discriminate end.
Qed.

(** The link lists of an analysed page hold no URL twice. *)
Lemma link_lists_have_no_duplicates
    (r : CrawlResult.t) (baseUrl : string) (cfg : AnalyzerConfig) :
  NoDup (internalLinks (analyzePage r baseUrl cfg)) ∧
  NoDup (externalLinks (analyzePage r baseUrl cfg)).
Proof.
  destruct (decide (CrawlResult.html r = "")) as [E|E].
  - rewrite analyzePage_without_html by done. cbn. split; apply NoDup_nil_2.
  - rewrite analyzePage_with_html by done.
    unfold analyzeMarkup. cbn [internalLinks externalLinks]. unfold extract_links.
    assert (NoDup (fst (([], []) : list string * list string)) ∧
            NoDup (snd (([], []) : list string * list string))) as Hinit
      by (split; apply NoDup_nil_2).
    revert Hinit. generalize (([], []) : list string * list string).
    induction (dom_anchor_hrefs (cheerio_load (CrawlResult.html r))) as [|href hrefs IH];
      intros links Hl; [done|].
    cbn [foldl]. by apply IH, link_step_nodup.
Qed.

End AnalyzerProperties.

(** The page of the example site with a body, a robots meta and everything
    else the scenario asks for has the single warning. *)
Lemma only_og_tags_missing_witness :
  let page := analyzePage (fetched "https://shop.example/" (product_html robots_meta))
                "https://shop.example" DEFAULT_CONFIG in
  issues page = [createIssue WARNING_CODES.MISSING_OG_TAGS] ∧
  issue_type <$> issues page = [warning] ∧
  issue_code <$> issues page = ["missing_og_tags"].
Proof.
  apply (only_og_tags_missing (fetched "https://shop.example/" (product_html robots_meta))
           "https://shop.example" DEFAULT_CONFIG).
  - intros E. vm_compute in E. discriminate.
  - vm_compute. reflexivity.
  - vm_compute. lia.
  - vm_compute. discriminate.
  - vm_compute. discriminate.
  - vm_compute. reflexivity.
  - eexists. split; vm_compute; reflexivity.
  - eexists. split; vm_compute; reflexivity.
  - vm_compute. reflexivity.
  - vm_compute. reflexivity.
  - vm_compute. reflexivity.
  - vm_compute. reflexivity.
  - vm_compute. reflexivity.
  - vm_compute. reflexivity.
Defined.

(** C4, as stated, fails: the same page without its robots meta satisfies
    every condition of the scenario and has two warnings. *)
Lemma scenario_page_without_robots_meta_has_two_warnings :
  let page := analyzePage (fetched "https://shop.example/" (product_html ""))
                "https://shop.example" DEFAULT_CONFIG in
  JS.length <$> title page = Some 45%nat ∧
  JS.length <$> metaDescription page = Some 100%nat ∧
  h1Count page = 1%nat ∧
  hasCanonical page = true ∧
  hasViewport page = true ∧
  ogTags page = {| og_title := None; og_description := None; og_image := None |} ∧
  images_total (images page) = 0%nat ∧
  issue_code <$> issues page = ["missing_robots_meta"; "missing_og_tags"] ∧
  issue_type <$> issues page = [warning; warning].
Proof. vm_compute. repeat split. Qed.

(** The home page answering 503 without a body and without redirects. *)
Lemma server_error_without_body_witness :
  let r := unavailable [] in
  let page := set_issues (initialPageData r) [createIssue ERROR_CODES.SERVER_ERROR] in
  analyzePage r "https://shop.example" DEFAULT_CONFIG = page ∧
  ∀ (crawlResults : list CrawlResult.t) (i : nat),
    crawlResults !! i = Some r →
    analyzeCrawlResults crawlResults "https://shop.example" DEFAULT_CONFIG !! i = Some page ∨
    analyzeCrawlResults crawlResults "https://shop.example" DEFAULT_CONFIG !! i =
      Some (set_issues (initialPageData r)
              [createIssue ERROR_CODES.SERVER_ERROR;
               createIssue WARNING_CODES.ORPHAN_PAGE]).
Proof.
  apply (server_error_without_body (unavailable []) "https://shop.example" DEFAULT_CONFIG).
  - reflexivity.
  - reflexivity.
  - cbn. lia.
Defined.

(** C5, as stated, fails: a 503 without a body that was reached through
    three redirects is analysed into two issues. *)
Lemma redirected_server_error_has_two_issues :
  let r := unavailable three_hops in
  CrawlResult.statusCode r = 503%Z ∧
  CrawlResult.html r = "" ∧
  issues <$> analyzeCrawlResults [r] "https://shop.example" DEFAULT_CONFIG =
    [[createIssue ERROR_CODES.SERVER_ERROR; createIssue ERROR_CODES.REDIRECT_CHAIN]] ∧
  (λ page, issue_code <$> issues page) <$>
    analyzeCrawlResults [r] "https://shop.example" DEFAULT_CONFIG =
    [["server_error_5xx"; "redirect_chain"]].
Proof. vm_compute. repeat split. Qed.

(** The mail link of the example page is in neither list. *)
Lemma foreign_scheme_links_are_skipped_witness :
  let page := analyzePage (fetched "https://shop.example/" links_html)
                "https://shop.example" DEFAULT_CONFIG in
  ("mailto:info@shop.example" ∉ internalLinks page) ∧
  ("mailto:info@shop.example" ∉ externalLinks page).
Proof.
  apply (foreign_scheme_links_are_skipped (fetched "https://shop.example/" links_html)
           "https://shop.example" DEFAULT_CONFIG "mailto:info@shop.example").
  - vm_compute. reflexivity.
  - vm_compute. reflexivity.
Defined.

(** C10, as stated, fails: the [ftp:] link of the example page resolves to a
    URL whose scheme is neither [http:] nor [https:], and it is listed as an
    internal link, the host being that of the base URL. *)
Lemma ftp_link_on_same_host_is_internal :
  let r := fetched "https://shop.example/" links_html in
  let page := analyzePage r "https://shop.example" DEFAULT_CONFIG in
  let href := "ftp://shop.example/catalog.zip" in
  href ∈ dom_anchor_hrefs (cheerio_load (CrawlResult.html r)) ∧
  resolveUrl (CrawlResult.url r) href = "ftp://shop.example/catalog.zip" ∧
  protocol <$> url_parse (resolveUrl (CrawlResult.url r) href) = Some "ftp:" ∧
  internalLinks page = ["ftp://shop.example/catalog.zip"; "https://shop.example/a"] ∧
  resolveUrl (CrawlResult.url r) href ∈ internalLinks page.
Proof.
  vm_compute. repeat split.
  - apply list_elem_of_In. cbn. auto.
  - apply list_elem_of_In. cbn. auto.
Qed.

(** ** Numbers *)

Section NumberProperties.

Import Number.
Local Open Scope Q_scope.

Lemma pow2_pos (k : Z) : 0 < pow2 k.
Proof. apply Qpower_0_lt. reflexivity. Qed.

Lemma pow2_add (a b : Z) : pow2 (a + b) == pow2 a * pow2 b.
Proof. apply Qpower_plus. discriminate. Qed.

Lemma pow2_le (a b : Z) : (a <= b)%Z → pow2 a <= pow2 b.
Proof. intros Hab. apply Qpower_le_compat_l; [exact Hab | discriminate]. Qed.

Lemma pow2_cancel (e : Z) : pow2 (- e) * pow2 e == 1.
Proof. rewrite <- pow2_add. replace (- e + e)%Z with 0%Z by lia. reflexivity. Qed.

Lemma pow2_inject (k : Z) : (0 <= k)%Z → pow2 k == inject_Z (2 ^ k).
Proof. intros Hk. unfold pow2. symmetry. apply (Zpower_Qpower 2 k Hk). Qed.

(** [ilog2 x] is at most the binary logarithm of [x]. *)
Lemma ilog2_le (x : Q) : 0 < x → pow2 (ilog2 x) <= x.
Proof.
  destruct x as [n d]. intros Hx. unfold ilog2. cbn [Qnum Qden].
  set (a := Z.log2 n). set (b := Z.log2 (Zpos d)).
  destruct (Qle_bool (pow2 (a - b)) (n # d)) eqn:E; [by apply Qle_bool_iff|].
  assert (0 < n)%Z as Hn.
  { unfold Qlt in Hx. cbn in Hx. lia. }
  destruct (Z.log2_spec n Hn) as [Ha _]. fold a in Ha.
  destruct (Z.log2_spec (Zpos d) eq_refl) as [_ Hb]. fold b in Hb.
  assert (0 <= a)%Z as Ha0 by apply Z.log2_nonneg.
  assert (0 <= b)%Z as Hb0 by apply Z.log2_nonneg.
  rewrite (Qmake_Qdiv n d).
  apply Qle_shift_div_l; [reflexivity|].
  apply Qle_trans with (pow2 (a - b - 1) * inject_Z (2 ^ Z.succ b)).
  - apply Qmult_le_l; [apply pow2_pos|]. rewrite <- Zle_Qle. lia.
  - rewrite <- pow2_inject by lia. rewrite <- pow2_add.
    replace (a - b - 1 + Z.succ b)%Z with a by lia.
    rewrite pow2_inject by lia. by rewrite <- Zle_Qle.
Qed.

Lemma rne_le (q : Q) (M : Z) : q <= inject_Z M → (rne q <= M)%Z.
Proof.
  intros Hq. unfold rne.
  assert (Qfloor q <= M)%Z as Hf.
  { rewrite <- (Qfloor_Z M). by apply Qfloor_resp_le. }
  assert (0 < q - inject_Z (Qfloor q) → (Qfloor q + 1 <= M)%Z) as Hup.
  { intros Hpos. enough (Qfloor q < M)%Z by lia.
    rewrite Zlt_Qlt. apply Qlt_le_trans with q; [|done].
    apply Qlt_minus_iff. exact Hpos. }
  destruct (Qcompare (q - inject_Z (Qfloor q)) (1 # 2)) eqn:E; [|done|].
  - destruct (Z.even (Qfloor q)); [done|].
    apply Hup. apply Qeq_alt in E. rewrite E. reflexivity.
  - apply Hup. apply Qgt_alt in E. by apply Qlt_trans with (1 # 2).
Qed.

Lemma rne_ge (q : Q) (M : Z) : inject_Z M <= q → (M <= rne q)%Z.
Proof.
  intros Hq.
  assert (M <= Qfloor q)%Z as Hf.
  { rewrite <- (Qfloor_Z M). by apply Qfloor_resp_le. }
  unfold rne. repeat case_match; lia.
Qed.

(** Rounding a positive number gives a positive number. *)
Lemma round_pos_pos (x : Q) : 0 < x → 0 < round_pos x.
Proof.
  intros Hx. unfold round_pos. set (e := (ilog2 x - 52)%Z).
  apply Qmult_lt_0_compat; [|apply pow2_pos].
  change 0 with (inject_Z 0). rewrite <- Zlt_Qlt.
  enough (2 ^ 52 <= rne (x * pow2 (- e)))%Z by lia.
  apply rne_ge. rewrite <- pow2_inject by lia.
  apply Qle_trans with (pow2 (ilog2 x) * pow2 (- e)).
  - rewrite <- pow2_add. apply pow2_le. lia.
  - apply Qmult_le_compat_r; [by apply ilog2_le | apply Qlt_le_weak, pow2_pos].
Qed.

(** Rounding does not cross an integer below [2^53] from below. *)
Lemma round_pos_le (x : Q) (M : Z) :
  (M < 2 ^ 53)%Z → 0 < x → x <= inject_Z M → round_pos x <= inject_Z M.
Proof.
  intros HM Hx HxM. unfold round_pos. set (e := (ilog2 x - 52)%Z).
  assert (ilog2 x < 53)%Z as Hl.
  { apply (Qpower_lt_compat_l_inv 2); [|reflexivity].
    apply Qle_lt_trans with x; [by apply ilog2_le|].
    apply Qle_lt_trans with (inject_Z M); [done|].
    change (2 ^ 53) with (pow2 53). rewrite pow2_inject by lia. by rewrite <- Zlt_Qlt. }
  assert (0 <= - e)%Z as He by lia.
  assert (rne (x * pow2 (- e)) <= M * 2 ^ (- e))%Z as Hr.
  { apply rne_le. rewrite inject_Z_mult, <- pow2_inject by done.
    apply Qmult_le_compat_r; [done | apply Qlt_le_weak, pow2_pos]. }
  apply Qle_trans with (inject_Z (M * 2 ^ (- e)) * pow2 e).
  - apply Qmult_le_compat_r; [by rewrite <- Zle_Qle | apply Qlt_le_weak, pow2_pos].
  - rewrite inject_Z_mult, <- pow2_inject by done.
    rewrite <- Qmult_assoc, pow2_cancel, Qmult_1_r. apply Qle_refl.
Qed.

Lemma Qred_num_sign (x : Q) :
  match Qnum (Qred x) with
  | Z0 => x == 0
  | Zpos _ => 0 < Qred x
  | Zneg _ => Qred x < 0
  end.
Proof.
  pose proof (Qred_correct x) as Hx.
  destruct (Qred x) as [n d] eqn:E. cbn [Qnum].
  destruct n.
  - rewrite <- Hx. reflexivity.
  - reflexivity.
  - reflexivity.
Qed.

Lemma fl64_compat (x y : Q) : x == y → fl64 x = fl64 y.
Proof. intros E. unfold fl64. by rewrite (Qred_complete x y E). Qed.

Lemma fl64_zero (x : Q) : x == 0 → fl64 x = 0.
Proof. intros E. by rewrite (fl64_compat x 0 E). Qed.

Lemma fl64_nonneg (x : Q) : 0 <= x → 0 <= fl64 x.
Proof.
  intros Hx. unfold fl64. pose proof (Qred_num_sign x) as Hs.
  destruct (Qnum (Qred x)).
  - apply Qle_refl.
  - rewrite Qred_correct. by apply Qlt_le_weak, round_pos_pos.
  - rewrite (Qred_correct x) in Hs. exfalso. apply (Qlt_not_le _ _ Hs Hx).
Qed.

Lemma fl64_pos (x : Q) : 0 < x → 0 < fl64 x.
Proof.
  intros Hx. unfold fl64. pose proof (Qred_num_sign x) as Hs.
  destruct (Qnum (Qred x)).
  - rewrite Hs in Hx. discriminate.
  - rewrite Qred_correct. by apply round_pos_pos.
  - rewrite (Qred_correct x) in Hs. exfalso.
    apply (Qlt_not_le _ _ Hs), Qlt_le_weak, Hx.
Qed.

(** Rounding does not cross a non-negative integer below [2^53]. *)
Lemma fl64_le (x : Q) (M : Z) :
  (0 <= M < 2 ^ 53)%Z → x <= inject_Z M → fl64 x <= inject_Z M.
Proof.
  intros HM Hx. unfold fl64. pose proof (Qred_num_sign x) as Hs.
  destruct (Qnum (Qred x)).
  - change 0 with (inject_Z 0). rewrite <- Zle_Qle. lia.
  - rewrite Qred_correct. apply round_pos_le; [lia | done |].
    by rewrite Qred_correct.
  - rewrite Qred_correct.
    apply Qle_trans with 0.
    + apply Qlt_le_weak. apply (Qopp_lt_compat 0 (round_pos (- Qred x))).
      apply round_pos_pos. apply (Qopp_lt_compat (Qred x) 0), Hs.
    + change 0 with (inject_Z 0). rewrite <- Zle_Qle. lia.
Qed.

Lemma of_nat_nonneg (n : nat) : 0 <= of_nat n.
Proof.
  apply fl64_nonneg. change 0 with (inject_Z 0). rewrite <- Zle_Qle. lia.
Qed.

Lemma of_nat_pos (n : nat) : n ≠ 0%nat → 0 < of_nat n.
Proof.
  intros Hn. apply fl64_pos. change 0 with (inject_Z 0). rewrite <- Zlt_Qlt. lia.
Qed.

Lemma mul_nonneg (a b : number) : 0 <= a → 0 <= b → 0 <= mul a b.
Proof. intros Ha Hb. apply fl64_nonneg. by apply Qmult_le_0_compat. Qed.

Lemma add_nonneg (a b : number) : 0 <= a → 0 <= b → 0 <= add a b.
Proof.
  intros Ha Hb. apply fl64_nonneg.
  apply Qle_trans with (0 + 0); [apply Qle_refl | by apply Qplus_le_compat].
Qed.

Lemma div_nonneg (a b : number) : 0 <= a → 0 <= b → 0 <= div a b.
Proof.
  intros Ha Hb. apply fl64_nonneg. unfold Qdiv.
  apply Qmult_le_0_compat; [done | by apply Qinv_le_0_compat].
Qed.

(** The last three operations of [calculateSiteHealthScore] on a
    non-negative penalty. *)
Lemma rounded_score_range (t : number) :
  0 <= t → (0 <= Math_round (Math_max 0%Q (sub 100%Q t)) <= 100)%Z.
Proof.
  intros Ht.
  assert (sub 100 t <= 100) as Hs.
  { apply (fl64_le (100 - t) 100); [lia|].
    apply Qle_trans with (100 + 0); [|discriminate].
    unfold Qminus. apply Qplus_le_r. apply (Qopp_le_compat 0 t Ht). }
  assert (0 <= Math_max 0 (sub 100 t) <= 100) as [Hlo Hhi].
  { unfold Math_max. destruct (Qle_bool 0 (sub 100 t)) eqn:E.
    - apply Qle_bool_iff in E. by split.
    - split; [apply Qle_refl | discriminate]. }
  unfold Math_round. split.
  - change 0%Z with (Qfloor (0 + (1 # 2))).
    apply Qfloor_resp_le, Qplus_le_compat; [done | apply Qle_refl].
  - change 100%Z with (Qfloor (100 + (1 # 2))).
    apply Qfloor_resp_le, Qplus_le_compat; [done | apply Qle_refl].
Qed.


End NumberProperties.


(** ** The crawler *)

Section CrawlerProperties.

Import Crawler.

Context `{UrlApi} `{Cheerio}.

Variable config : CrawlerConfig.
Variable robotsTxt : option (string → string → option bool).
Variable baseUrl : string.

Lemma inv_set_queue (st : State) (q : list Target) :
  crawler_inv config st → crawler_inv config (set_queue st q).
Proof. intros [? ? ? ?]. by split. Qed.

Lemma inv_set_phase (st : State) (p : Phase) :
  crawler_inv config st → crawler_inv config (set_phase st p).
Proof. intros [? ? ? ?]. by split. Qed.

Lemma inv_start_request (st : State) (x : string) (depth : nat) :
  sanitizeUrlForCrawl x ∉ visited st →
  activeRequests st < maxConcurrentRequests config →
  length (results st) < maxPages config →
  crawler_inv config st →
  crawler_inv config (start_request st (sanitizeUrlForCrawl x) depth).
Proof.
  intros Hnew Hact Hres [Hnd Hvis Hactive Hbound].
  assert (crawled_urls (start_request st (sanitizeUrlForCrawl x) depth)
          = crawled_urls st ++ [sanitizeUrlForCrawl x]) as Hurls.
  { unfold crawled_urls, start_request. cbn [results pending].
    by rewrite fmap_app, app_assoc. }
  split.
  - rewrite Hurls. apply NoDup_app. split; [done|]. split.
    + intros u Hu Hu'. apply list_elem_of_singleton in Hu'. subst u.
      by destruct (Hvis _ Hu) as [? _].
    + apply NoDup_singleton.
  - intros u. rewrite Hurls, elem_of_app, list_elem_of_singleton.
    unfold start_request. cbn [visited]. intros [Hu | ->].
    + destruct (Hvis _ Hu) as [? ?]. split; [apply elem_of_union; by right | done].
    + split; [apply elem_of_union; left; by apply elem_of_singleton | by eexists].
  - unfold start_request. cbn [activeRequests pending].
    rewrite length_app. cbn. lia.
  - unfold start_request. cbn [activeRequests results]. lia.
Qed.

Lemma inv_dispatch (q : list Target) (st : State) :
  crawler_inv config st → crawler_inv config (dispatch config robotsTxt q st).
Proof.
  revert st. induction q as [|item q IH]; intros st Hinv; cbn [dispatch].
  - by apply inv_set_queue.
  - destruct ((activeRequests st <? maxConcurrentRequests config)%nat &&
              (length (results st) <? maxPages config)%nat &&
              negb (stopped st)) eqn:Hgo; [|by apply inv_set_queue].
    apply andb_prop in Hgo as [Hgo _]. apply andb_prop in Hgo as [Hact Hres].
    apply Nat.ltb_lt in Hact, Hres.
    case_bool_decide as Hvis; [by apply IH|].
    destruct (maxDepth config <? target_depth item)%nat; [by apply IH|].
    destruct (negb (isAllowedByRobots config robotsTxt _)); [by apply IH|].
    by apply IH, inv_start_request.
Qed.

Lemma inv_processQueue_iter (st : State) :
  crawler_inv config st → crawler_inv config (processQueue_iter config robotsTxt st).
Proof.
  intros Hinv. unfold processQueue_iter.
  repeat case_match; by apply inv_set_phase; try apply inv_dispatch.
Qed.

Lemma inv_crawlPage_resume (st : State) (i : nat) (t : Target) (o : Outcome) :
  pending st !! i = Some t →
  crawler_inv config st →
  crawler_inv config (crawlPage_resume config baseUrl
                 (set_pending st (delete i (pending st)))
                 (target_url t) (target_depth t) o).
Proof.
  intros Hi [Hnd Hvis Hactive Hbound].
  set (st' := crawlPage_resume _ _ _ _ _ _).
  assert (CrawlResult.url <$> results st' = (CrawlResult.url <$> results st) ++ [target_url t]
          ∧ pending st' = delete i (pending st)
          ∧ visited st' = visited st
          ∧ activeRequests st' = pred (activeRequests st)) as (Hres & Hpen & Hv & Ha).
  { subst st'. destruct o; cbn; rewrite fmap_app; done. }
  assert (crawled_urls st' ≡ₚ crawled_urls st) as Hperm.
  { unfold crawled_urls. rewrite Hres, Hpen.
    rewrite (delete_Permutation (pending st) i t Hi) at 2.
    rewrite fmap_cons, <- app_assoc. reflexivity. }
  assert (0 < length (pending st)) as Hlen.
  { apply lookup_lt_Some in Hi. lia. }
  assert (length (pending st) = S (length (delete i (pending st)))) as Hdel.
  { by rewrite (delete_Permutation (pending st) i t Hi) at 1. }
  split.
  - by rewrite Hperm.
  - intros u Hu. rewrite Hperm in Hu. rewrite Hv. by apply Hvis.
  - rewrite Ha, Hpen, Hactive. lia.
  - rewrite Ha.
    assert (length (results st') = S (length (results st))) as ->.
    { rewrite <- (length_fmap CrawlResult.url), Hres, length_app, length_fmap. cbn. lia. }
    lia.
Qed.

Lemma inv_step (st : State) (e : Event) :
  crawler_inv config st → crawler_inv config (step config robotsTxt baseUrl st e).
Proof.
  intros Hinv. unfold step.
  destruct (phase st) eqn:Hph; [| done |].
  - destruct e as [|i o|].
    + by apply inv_processQueue_iter.
    + destruct (pending st !! i) as [t|] eqn:Hi; [|done].
      by apply inv_crawlPage_resume.
    + destruct Hinv. by split.
  - destruct e as [|i o|].
    + done.
    + destruct (pending st !! i) as [t|] eqn:Hi; [|done].
      by apply inv_crawlPage_resume.
    + destruct Hinv. by split.
Qed.

Lemma inv_run (events : list Event) (st : State) :
  crawler_inv config st → crawler_inv config (run config robotsTxt baseUrl st events).
Proof.
  revert st. induction events as [|e events IH]; intros st Hinv; [done|].
  cbn [run foldl]. by apply IH, inv_step.
Qed.

Lemma inv_crawl_start (startUrl : string) :
  crawler_inv config (crawl_start config robotsTxt startUrl).
Proof.
  apply inv_processQueue_iter. split; cbn.
  - apply NoDup_nil_2.
  - intros u Hu. by apply not_elem_of_nil in Hu.
  - done.
  - lia.
Qed.

End CrawlerProperties.

Lemma fmap_fixed_points {A : Type} (f : A → A) (l : list A) :
  (∀ x, x ∈ l → f x = x) → f <$> l = l.
Proof.
  intros Hf. induction l as [|x l IH]; [done|].
  cbn. rewrite Hf by apply list_elem_of_here.
  f_equal. apply IH. intros y Hy. apply Hf. by apply list_elem_of_further.
Qed.

Lemma returned_results (st : Crawler.State) (rs : list CrawlResult.t) :
  Crawler.returned st = Some rs → rs = Crawler.results st.
Proof. unfold Crawler.returned. repeat case_match; congruence. Qed.

Lemma crawl_inv `{UrlApi} `{Cheerio}
    (config : Crawler.CrawlerConfig)
    (robotsTxt : option (string → string → option bool))
    (startUrl : string) (events : list Crawler.Event) :
  crawler_inv config (Crawler.crawl config robotsTxt startUrl events).
Proof. apply inv_run, inv_crawl_start. Qed.

(** C7. Whenever re-sanitising a sanitised URL leaves it unchanged, as the
    URL class guarantees, the results of a crawl, at any moment of any
    schedule and in particular when [crawl] returns them, have pairwise
    distinct sanitised URLs. *)
Theorem crawl_never_revisits `{UrlApi} `{Cheerio}
    (config : Crawler.CrawlerConfig)
    (robotsTxt : option (string → string → option bool))
    (startUrl : string) (events : list Crawler.Event) :
  (∀ u, sanitizeUrlForCrawl (sanitizeUrlForCrawl u) = sanitizeUrlForCrawl u) →
  let st := Crawler.crawl config robotsTxt startUrl events in
  NoDup (sanitizeUrlForCrawl <$> (CrawlResult.url <$> Crawler.results st)) ∧
  ∀ rs, Crawler.returned st = Some rs →
        NoDup (sanitizeUrlForCrawl <$> (CrawlResult.url <$> rs)).
Proof.
  intros Hidem st.
  assert (NoDup (sanitizeUrlForCrawl <$> (CrawlResult.url <$> Crawler.results st))) as Hnd.
  { destruct (crawl_inv config robotsTxt startUrl events) as [Hnd Hvis _ _].
    fold st in Hnd, Hvis. unfold crawled_urls in Hnd, Hvis. apply NoDup_app in Hnd as (Hnd & _ & _).
    rewrite fmap_fixed_points; [done|].
    intros u Hu. destruct (Hvis u) as [_ [x ->]]; [apply elem_of_app; by left|].
    apply Hidem. }
  split; [done|]. intros rs Hrs. by rewrite (returned_results st rs Hrs).
Qed.


(** The URLs of the results are pairwise distinct, whatever the URL class
    and the schedule. *)
Lemma crawl_result_urls_distinct `{UrlApi} `{Cheerio}
    (config : Crawler.CrawlerConfig)
    (robotsTxt : option (string → string → option bool))
    (startUrl : string) (events : list Crawler.Event) :
  NoDup (CrawlResult.url <$>
           Crawler.results (Crawler.crawl config robotsTxt startUrl events)).
Proof.
  destruct (crawl_inv config robotsTxt startUrl events) as [Hnd _ _ _].
  unfold crawled_urls in Hnd. by apply NoDup_app in Hnd as (Hnd & _ & _).
Qed.

(** With one request at a time the page cap holds. *)
Lemma sequential_crawl_respects_page_cap `{UrlApi} `{Cheerio}
    (config : Crawler.CrawlerConfig)
    (robotsTxt : option (string → string → option bool))
    (startUrl : string) (events : list Crawler.Event) :
  Crawler.maxConcurrentRequests config = 1%nat →
  (length (Crawler.results (Crawler.crawl config robotsTxt startUrl events))
   <= Crawler.maxPages config)%nat.
Proof.
  intros Hone.
  destruct (crawl_inv config robotsTxt startUrl events) as [_ _ _ Hb]. lia.
Qed.

Lemma spinning_is_final `{UrlApi} `{Cheerio}
    (config : Crawler.CrawlerConfig)
    (robotsTxt : option (string → string → option bool))
    (baseUrl : string) (st : Crawler.State) (events : list Crawler.Event) :
  Crawler.phase st = Crawler.Spinning →
  Crawler.run config robotsTxt baseUrl st events = st.
Proof.
  intros Hs. induction events as [|e events IH]; [done|].
  cbn [Crawler.run foldl]. unfold Crawler.step at 2. rewrite Hs. exact IH.
Qed.

(** ** The example runtime *)

Lemma assoc_In {A : Type} (k : string) (v : A) (l : list (string * A)) :
  assoc k l = Some v → In (k, v) l.
Proof.
  induction l as [|[k' v'] l IH]; [discriminate|].
  cbn [assoc]. destruct (String.eqb_spec k k') as [-> | Hne].
  - intros [= ->]. by left.
  - intros Hl. right. by apply IH.
Qed.

Lemma demo_sanitize_idempotent (u : string) :
  sanitizeUrlForCrawl (sanitizeUrlForCrawl u) = sanitizeUrlForCrawl u.
Proof.
  unfold sanitizeUrlForCrawl at 2 3. cbn [url_parse url_api].
  destruct (parse u) as [p|] eqn:E.
  - apply assoc_In in E. cbn in E.
    repeat (destruct E as [E | E]; [injection E as <- <-; vm_compute; reflexivity|]).
    destruct E.
  - unfold sanitizeUrlForCrawl. cbn [url_parse url_api]. by rewrite E.
Qed.

(** The crawl of the example site, at the end of its schedule. *)
Lemma crawl_never_revisits_witness :
  let st := Crawler.crawl two_pages None "https://shop.example" schedule in
  NoDup (sanitizeUrlForCrawl <$> (CrawlResult.url <$> Crawler.results st)) ∧
  ∀ rs, Crawler.returned st = Some rs →
        NoDup (sanitizeUrlForCrawl <$> (CrawlResult.url <$> rs)).
Proof.
  apply (crawl_never_revisits two_pages None "https://shop.example" schedule).
  exact demo_sanitize_idempotent.
Defined.

(** C1 fails on the code. With a cap of two pages and five concurrent
    requests, a home page that links to two pages is crawled into three
    results: both links are dequeued while one result is in, and nothing
    counts the requests in flight. *)
Theorem crawl_exceeds_page_cap :
  let st := Crawler.crawl two_pages None "https://shop.example" schedule in
  Crawler.returned st =
    Some [ fetched "https://shop.example/" home_html;
           fetched "https://shop.example/a" leaf_html;
           fetched "https://shop.example/b" leaf_html ] ∧
  length (Crawler.results st) = 3%nat ∧
  Crawler.maxPages two_pages = 2%nat.
Proof. vm_compute. repeat split. Qed.

(** C8 fails on the code. An address of the private range 172.16.0.0/12
    outside 172.16.x.x, and a loopback address other than 127.0.0.1, pass
    the validation. *)
Theorem private_and_loopback_addresses_pass_validation :
  normalizeUrl "http://172.20.0.1" = "http://172.20.0.1" ∧
  validateUrl "http://172.20.0.1" = {| valid := true; validation_error := None |} ∧
  validateUrl "http://127.0.0.2" = {| valid := true; validation_error := None |}.
Proof. vm_compute. repeat split. Qed.

(** What [validateUrl] does reject, for any URL class. *)
Lemma validateUrl_rejects `{UrlApi} (url : string) (parsed : URL) :
  url_parse url = Some parsed →
  let host := JS.toLowerCase (hostname parsed) in
  (protocol parsed ≠ "http:" ∧ protocol parsed ≠ "https:") ∨
  host = "localhost" ∨ host = "127.0.0.1" ∨
  JS.startsWith host "192.168." = true ∨
  JS.startsWith host "10." = true ∨
  JS.startsWith host "172.16." = true ∨
  JS.endsWith host ".local" = true ∨
  JS.includes host "." = false →
  valid (validateUrl url) = false.
Proof.
  intros Hp host Hcases. unfold validateUrl. rewrite Hp. fold host.
  destruct (JS.array_includes ["http:"; "https:"] (protocol parsed)) eqn:Eproto; [|done].
  cbn [negb].
  destruct Hcases as [[Hn1 Hn2] | Hcases].
  { cbn in Eproto. apply String.eqb_neq in Hn1, Hn2. by rewrite Hn1, Hn2 in Eproto. }
  destruct (_ || _ || _ || _ || _ || _) eqn:Ehost; [done|].
  repeat (apply orb_false_elim in Ehost as [Ehost ?]).
  destruct Hcases as [E | [E | [E | [E | [E | [E | E]]]]]].
  - apply String.eqb_eq in E. congruence.
  - apply String.eqb_eq in E. congruence.
  - congruence.
  - congruence.
  - congruence.
  - congruence.
  - by rewrite E.
Qed.

(** When the page cap is reached while the queue is not empty and no
    request is in flight, the pass of [processQueue] that finds this
    state, at the start of the crawl or at a timer, starts nothing and
    does not suspend: the loop iterates for ever on the same state, no
    later event is taken, and [crawl] never returns. *)
Theorem crawl_spins_at_page_cap `{UrlApi} `{Cheerio}
    (config : Crawler.CrawlerConfig)
    (robotsTxt : option (string → string → option bool))
    (baseUrl : string) (st : Crawler.State) :
  Crawler.stopped st = false →
  Crawler.activeRequests st = 0%nat →
  Crawler.queue st ≠ [] →
  (Crawler.maxPages config <= length (Crawler.results st))%nat →
  let st' := Crawler.processQueue_iter config robotsTxt st in
  (Crawler.phase st = Crawler.Waiting →
   Crawler.step config robotsTxt baseUrl st Crawler.Tick = st') ∧
  Crawler.phase st' = Crawler.Spinning ∧
  Crawler.queue st' = Crawler.queue st ∧
  Crawler.results st' = Crawler.results st ∧
  ∀ events,
    Crawler.run config robotsTxt baseUrl st' events = st' ∧
    Crawler.returned (Crawler.run config robotsTxt baseUrl st' events) = None.
Proof.
  intros Hstop Hact Hq Hcap st'.
  assert (st' = Crawler.set_phase st Crawler.Spinning) as Hst'.
  { subst st'. unfold Crawler.processQueue_iter.
    destruct (Crawler.queue st) as [|item q] eqn:Eq; [done|].
    rewrite Hstop. cbn [length Nat.ltb Nat.leb orb negb andb]. cbn zeta.
    assert (Crawler.dispatch config robotsTxt (item :: q) st = st) as ->.
    { cbn [Crawler.dispatch].
      replace (length (Crawler.results st) <? Crawler.maxPages config)%nat with false
        by (symmetry; apply Nat.ltb_ge; exact Hcap).
      rewrite andb_false_r. cbn [andb]. rewrite <- Eq. by destruct st. }
    rewrite Hact, Eq. reflexivity. }
  assert (Crawler.phase st' = Crawler.Spinning) as Hphase by (by rewrite Hst').
  split; [|split; [exact Hphase | split; [by rewrite Hst' | split; [by rewrite Hst'|]]]].
  - intros Hw. unfold Crawler.step. by rewrite Hw.
  - intros events. rewrite spinning_is_final by exact Hphase.
    split; [reflexivity|]. unfold Crawler.returned. by rewrite Hphase.
Qed.

(** With a cap of one page, the home page of the example site fills the cap
    and leaves one link in the queue: at the next timer [processQueue]
    iterates without suspending, and no later event makes [crawl] return. *)
Lemma crawl_spins_at_page_cap_witness :
  let st := Crawler.crawl one_page None "https://shop.example"
              [Crawler.Settle 0 (ok home_html)] in
  let st' := Crawler.processQueue_iter one_page None st in
  (Crawler.phase st = Crawler.Waiting ∧
   length (Crawler.results st) = 1%nat ∧
   Crawler.target_url <$> Crawler.queue st = ["https://shop.example/a"] ∧
   Crawler.activeRequests st = 0%nat) ∧
  (Crawler.phase st = Crawler.Waiting →
   Crawler.step one_page None "https://shop.example" st Crawler.Tick = st') ∧
  Crawler.phase st' = Crawler.Spinning ∧
  Crawler.queue st' = Crawler.queue st ∧
  Crawler.results st' = Crawler.results st ∧
  ∀ events,
    Crawler.run one_page None "https://shop.example" st' events = st' ∧
    Crawler.returned (Crawler.run one_page None "https://shop.example" st' events) = None.
Proof.
  intros st st'. split.
  - vm_compute. repeat split.
  - apply (crawl_spins_at_page_cap one_page None "https://shop.example" st).
    + vm_compute. reflexivity.
    + vm_compute. reflexivity.
    + vm_compute. discriminate.
    + vm_compute. lia.
Defined.

(** The example site crawled one request at a time, under the schedule that
    overshoots with five. *)
Lemma sequential_crawl_respects_page_cap_witness :
  (length (Crawler.results
             (Crawler.crawl one_at_a_time None "https://shop.example" schedule))
   <= 2)%nat.
Proof.
  apply (sequential_crawl_respects_page_cap one_at_a_time None "https://shop.example" schedule).
  reflexivity.
Defined.

(** A mail address is not a URL to audit. *)
Lemma validateUrl_rejects_witness :
  valid (validateUrl "mailto:info@shop.example") = false.
Proof.
  apply (validateUrl_rejects "mailto:info@shop.example"
           (mkurl "mailto:" "" "info@shop.example")).
  - reflexivity.
  - left. split; discriminate.
Defined.

(** ** Monotonicity of the arithmetic *)

Section NumberMonotone.

Import Number.
Local Open Scope Q_scope.

(** [ilog2 x] is more than the binary logarithm of [x] minus one. *)
Lemma ilog2_lt (x : Q) : 0 < x → x < pow2 (ilog2 x + 1).
Proof.
  destruct x as [n d]. intros Hx. unfold ilog2. cbn [Qnum Qden].
  set (a := Z.log2 n). set (b := Z.log2 (Zpos d)).
  destruct (Qle_bool (pow2 (a - b)) (n # d)) eqn:E.
  - assert (0 < n)%Z as Hn.
    { unfold Qlt in Hx. cbn in Hx. lia. }
    destruct (Z.log2_spec n Hn) as [_ Ha]. fold a in Ha.
    destruct (Z.log2_spec (Zpos d) eq_refl) as [Hb _]. fold b in Hb.
    assert (0 <= a)%Z as Ha0 by apply Z.log2_nonneg.
    assert (0 <= b)%Z as Hb0 by apply Z.log2_nonneg.
    rewrite (Qmake_Qdiv n d).
    apply Qlt_shift_div_r; [reflexivity|].
    apply Qlt_le_trans with (inject_Z (2 ^ Z.succ a)); [rewrite <- Zlt_Qlt; lia|].
    rewrite <- pow2_inject by lia.
    replace (Z.succ a) with (a - b + 1 + b)%Z by lia.
    rewrite pow2_add. apply Qmult_le_l; [apply pow2_pos|].
    rewrite pow2_inject by lia. by rewrite <- Zle_Qle.
  - replace (a - b - 1 + 1)%Z with (a - b)%Z by lia.
    apply Qnot_le_lt. intros Hle. apply Qle_bool_iff in Hle. congruence.
Qed.

Lemma ilog2_mono (x y : Q) : 0 < x → x <= y → (ilog2 x <= ilog2 y)%Z.
Proof.
  intros Hx Hxy.
  assert (0 < y) as Hy by (by apply Qlt_le_trans with x).
  destruct (Z.le_gt_cases (ilog2 x) (ilog2 y)) as [|Hgt]; [done|]. exfalso.
  apply (Qlt_irrefl (pow2 (ilog2 x))).
  apply Qle_lt_trans with x; [by apply ilog2_le|].
  apply Qle_lt_trans with y; [done|].
  apply Qlt_le_trans with (pow2 (ilog2 y + 1)); [by apply ilog2_lt|].
  apply pow2_le. lia.
Qed.

Lemma rne_floor (q : Q) : (Qfloor q <= rne q <= Qfloor q + 1)%Z.
Proof. unfold rne. repeat case_match; lia. Qed.

Lemma rne_mono (p q : Q) : p <= q → (rne p <= rne q)%Z.
Proof.
  intros Hpq.
  pose proof (Qfloor_resp_le p q Hpq) as Hf.
  pose proof (rne_floor p) as Hp. pose proof (rne_floor q) as Hq.
  destruct (Z.eq_dec (Qfloor p) (Qfloor q)) as [E|]; [|lia].
  assert (p - inject_Z (Qfloor p) <= q - inject_Z (Qfloor q)) as Hr.
  { rewrite E. unfold Qminus. by apply Qplus_le_l. }
  unfold rne in *. rewrite E in *.
  destruct (Qcompare (p - inject_Z (Qfloor q)) (1 # 2)) eqn:Ep;
    destruct (Qcompare (q - inject_Z (Qfloor q)) (1 # 2)) eqn:Eq;
    try (destruct (Z.even (Qfloor q))); try lia; exfalso;
    repeat match goal with
           | H : Qcompare _ _ = Datatypes.Eq |- _ => apply Qeq_alt in H
           | H : Qcompare _ _ = Lt |- _ => apply Qlt_alt in H
           | H : Qcompare _ _ = Gt |- _ => apply Qgt_alt in H
           end;
    lra.
Qed.

(** The rounded value of [x] lies between the powers of two around [x]. *)
Lemma round_pos_bounds (x : Q) :
  0 < x → pow2 (ilog2 x) <= round_pos x <= pow2 (ilog2 x + 1).
Proof.
  intros Hx. unfold round_pos. set (e := (ilog2 x - 52)%Z). split.
  - apply Qle_trans with (inject_Z (2 ^ 52) * pow2 e).
    + rewrite <- pow2_inject by lia. rewrite <- pow2_add. apply pow2_le. lia.
    + apply Qmult_le_compat_r; [|apply Qlt_le_weak, pow2_pos].
      rewrite <- Zle_Qle. apply rne_ge. rewrite <- pow2_inject by lia.
      apply Qle_trans with (pow2 (ilog2 x) * pow2 (- e)).
      * rewrite <- pow2_add. apply pow2_le. lia.
      * apply Qmult_le_compat_r; [by apply ilog2_le | apply Qlt_le_weak, pow2_pos].
  - apply Qle_trans with (inject_Z (2 ^ 53) * pow2 e).
    + apply Qmult_le_compat_r; [|apply Qlt_le_weak, pow2_pos].
      rewrite <- Zle_Qle. apply rne_le. rewrite <- pow2_inject by lia.
      apply Qle_trans with (pow2 (ilog2 x + 1) * pow2 (- e)).
      * apply Qmult_le_compat_r; [|apply Qlt_le_weak, pow2_pos].
        by apply Qlt_le_weak, ilog2_lt.
      * rewrite <- pow2_add. apply pow2_le. lia.
    + rewrite <- pow2_inject by lia. rewrite <- pow2_add. apply pow2_le. lia.
Qed.

Lemma round_pos_mono (x y : Q) : 0 < x → x <= y → round_pos x <= round_pos y.
Proof.
  intros Hx Hxy.
  assert (0 < y) as Hy by (by apply Qlt_le_trans with x).
  pose proof (ilog2_mono x y Hx Hxy) as Hl.
  destruct (Z.eq_dec (ilog2 x) (ilog2 y)) as [E|Hne].
  - unfold round_pos. rewrite E.
    apply Qmult_le_compat_r; [|apply Qlt_le_weak, pow2_pos].
    rewrite <- Zle_Qle. apply rne_mono.
    apply Qmult_le_compat_r; [done | apply Qlt_le_weak, pow2_pos].
  - apply Qle_trans with (pow2 (ilog2 x + 1)); [by apply round_pos_bounds|].
    apply Qle_trans with (pow2 (ilog2 y)); [apply pow2_le; lia | by apply round_pos_bounds].
Qed.

Lemma fl64_of_pos (x : Q) : 0 < x → fl64 x == round_pos (Qred x).
Proof.
  intros Hx. unfold fl64. pose proof (Qred_num_sign x) as Hs.
  destruct (Qnum (Qred x)).
  - rewrite Hs in Hx. discriminate.
  - apply Qred_correct.
  - rewrite (Qred_correct x) in Hs. lra.
Qed.

Lemma fl64_of_neg (x : Q) : x < 0 → fl64 x == - round_pos (- Qred x).
Proof.
  intros Hx. unfold fl64. pose proof (Qred_num_sign x) as Hs.
  destruct (Qnum (Qred x)).
  - rewrite Hs in Hx. discriminate.
  - rewrite (Qred_correct x) in Hs. lra.
  - apply Qred_correct.
Qed.

Lemma fl64_neg (x : Q) : x < 0 → fl64 x < 0.
Proof.
  intros Hx. rewrite (fl64_of_neg x Hx).
  assert (0 < round_pos (- Qred x)); [|lra].
  apply round_pos_pos. rewrite Qred_correct. lra.
Qed.

(** Rounding to binary64 is monotone. *)
Lemma fl64_mono (x y : Q) : x <= y → fl64 x <= fl64 y.
Proof.
  intros Hxy.
  destruct (Q_dec x 0) as [[Hx|Hx]|Hx].
  - destruct (Q_dec y 0) as [[Hy|Hy]|Hy].
    + rewrite (fl64_of_neg x Hx), (fl64_of_neg y Hy).
      apply Qopp_le_compat, round_pos_mono; rewrite !Qred_correct; lra.
    + pose proof (fl64_neg x Hx). pose proof (fl64_pos y Hy). lra.
    + pose proof (fl64_neg x Hx). rewrite (fl64_zero y Hy). lra.
  - assert (0 < y) as Hy by lra.
    rewrite (fl64_of_pos x Hx), (fl64_of_pos y Hy).
    apply round_pos_mono; rewrite !Qred_correct; lra.
  - rewrite (fl64_zero x Hx). apply fl64_nonneg. lra.
Qed.

End NumberMonotone.

(** ** Insertion-ordered maps *)

Section JSMapProperties.

Context {V : Type}.
Implicit Types (m : list (string * V)) (k : string) (v : V).

Lemma get_set m k v k' :
  JSMap.get (JSMap.set m k v) k' = if String.eqb k' k then Some v else JSMap.get m k'.
Proof.
  induction m as [|[k0 v0] m IH]; cbn [JSMap.set JSMap.get].
  - by destruct (String.eqb k' k).
  - destruct (String.eqb_spec k k0) as [-> | Hne]; cbn [JSMap.get].
    + by destruct (String.eqb k' k0).
    + destruct (String.eqb_spec k' k0) as [-> | Hne'].
      * destruct (String.eqb_spec k0 k); [congruence | done].
      * exact IH.
Qed.

Lemma get_None_keys m k : JSMap.get m k = None ↔ k ∉ JSMap.keys m.
Proof.
  unfold JSMap.keys. induction m as [|[k0 v0] m IH]; cbn [JSMap.get fmap list_fmap fst].
  - split; [intros _; apply not_elem_of_nil | done].
  - rewrite not_elem_of_cons. destruct (String.eqb_spec k k0) as [-> | Hne].
    + split; [done | intros [? _]; done].
    + rewrite IH. split; [by split | by intros [_ ?]].
Qed.

Lemma get_Some_elem_of m k v : JSMap.get m k = Some v → (k, v) ∈ m.
Proof.
  induction m as [|[k0 v0] m IH]; cbn [JSMap.get]; [done|].
  destruct (String.eqb_spec k k0) as [-> | Hne].
  - intros [= ->]. apply list_elem_of_here.
  - intros Hm. apply list_elem_of_further. by apply IH.
Qed.

Lemma elem_of_get_Some m k v : NoDup (JSMap.keys m) → (k, v) ∈ m → JSMap.get m k = Some v.
Proof.
  unfold JSMap.keys. induction m as [|[k0 v0] m IH]; [by intros _ ?%not_elem_of_nil|].
  cbn [fmap list_fmap fst JSMap.get]. rewrite NoDup_cons. intros [Hk0 Hnd].
  rewrite elem_of_cons. intros [[= -> ->] | Hin].
  - by rewrite String.eqb_refl.
  - destruct (String.eqb_spec k k0) as [-> | Hne]; [|by apply IH].
    exfalso. apply Hk0. apply list_elem_of_fmap. by exists (k0, v).
Qed.

Lemma keys_set_Some m k v v0 :
  JSMap.get m k = Some v0 → JSMap.keys (JSMap.set m k v) = JSMap.keys m.
Proof.
  unfold JSMap.keys. induction m as [|[k1 v1] m IH]; cbn [JSMap.get JSMap.set]; [done|].
  destruct (String.eqb_spec k k1) as [-> | Hne]; [done|].
  intros Hm. cbn. f_equal. by apply IH.
Qed.

Lemma keys_set_None m k v :
  JSMap.get m k = None → JSMap.keys (JSMap.set m k v) = JSMap.keys m ++ [k].
Proof.
  unfold JSMap.keys. induction m as [|[k1 v1] m IH]; cbn [JSMap.get JSMap.set]; [done|].
  destruct (String.eqb_spec k k1) as [-> | Hne]; [done|].
  intros Hm. cbn. f_equal. by apply IH.
Qed.

Lemma sum_set_Some (f : V → nat) m k v v0 :
  JSMap.get m k = Some v0 →
  (sum_list_with f (JSMap.values (JSMap.set m k v)) + f v0
   = sum_list_with f (JSMap.values m) + f v)%nat.
Proof.
  unfold JSMap.values. induction m as [|[k1 v1] m IH]; cbn [JSMap.get JSMap.set]; [done|].
  destruct (String.eqb_spec k k1) as [-> | Hne].
  - intros [= ->]. cbn. lia.
  - intros Hm. specialize (IH Hm). cbn. lia.
Qed.

Lemma sum_set_None (f : V → nat) m k v :
  JSMap.get m k = None →
  (sum_list_with f (JSMap.values (JSMap.set m k v))
   = sum_list_with f (JSMap.values m) + f v)%nat.
Proof.
  unfold JSMap.values. induction m as [|[k1 v1] m IH]; cbn [JSMap.get JSMap.set].
  - intros _. cbn. lia.
  - destruct (String.eqb_spec k k1) as [-> | Hne]; [done|].
    intros Hm. specialize (IH Hm). cbn. lia.
Qed.

End JSMapProperties.

(** ** The grouping of issues *)

Lemma issueMap_of_occurrences (pages : list PageData) :
  issueMap_of pages = foldl (λ m e, group_add (fst e) m (snd e)) [] (occurrences pages).
Proof.
  unfold issueMap_of, occurrences. generalize ([] : list (string * IssueGroup)).
  induction pages as [|page pages IH]; intros m; [done|].
  cbn [foldl]. rewrite bind_cons, foldl_app, IH. f_equal.
  by rewrite foldl_fmap.
Qed.

Lemma count_code_snoc (k : string) (L : list (string * Issue)) (e : string * Issue) :
  count_code k (L ++ [e])
  = (count_code k L + if decide (issue_code (snd e) = k) then 1 else 0)%nat.
Proof.
  unfold count_code. rewrite filter_app, length_app. f_equal.
  cbn [filter list_filter]. by case_decide.
Qed.

Lemma count_code_0 (k : string) (L : list (string * Issue)) (u : string) (i : Issue) :
  count_code k L = 0%nat → (u, i) ∈ L → issue_code i ≠ k.
Proof.
  unfold count_code. intros H0 Hin Hk.
  apply length_zero_iff_nil in H0.
  assert ((u, i) ∈ filter (λ e, issue_code (snd e) = k) L) as Hf
    by (by apply list_elem_of_filter).
  rewrite H0 in Hf. by apply not_elem_of_nil in Hf.
Qed.

Lemma group_ok_other (L : list (string * Issue)) (e : string * Issue) (k : string)
    (g : IssueGroup) :
  issue_code (snd e) ≠ k → group_ok L k g → group_ok (L ++ [e]) k g.
Proof.
  intros Hne [Hcode Htype Hdef Hc Hnd Hu].
  split; [exact Hcode | exact Htype | exact Hdef | clear Hdef | exact Hnd | clear Hdef].
  - rewrite count_code_snoc. case_decide; [done | lia].
  - intros u. rewrite Hu. split; intros (i & Hin & Hi); exists i; split; try done.
    + apply elem_of_app. by left.
    + apply elem_of_app in Hin as [Hin | Hin]; [done|].
      apply list_elem_of_singleton in Hin. subst e. done.
Qed.

Lemma map_ok_step (L : list (string * Issue)) (m : list (string * IssueGroup))
    (u : string) (i : Issue) :
  map_ok L m → map_ok (L ++ [(u, i)]) (group_add u m i).
Proof.
  intros [Hkeys Hsome Hnone]. unfold group_add.
  destruct (JSMap.get m (issue_code i)) as [g|] eqn:Hget.
  - (* the code has a group: its count grows, its URLs may *)
    destruct (Hsome _ _ Hget) as [Hcode Htype Hdef Hcount Hnd Hurls].
    split.
    + by rewrite (keys_set_Some _ _ _ _ Hget).
    + intros k g'. rewrite get_set. destruct (String.eqb_spec k (issue_code i)) as [-> | Hne].
      * intros [= <-]. split; cbn [group_code group_type group_title group_description group_issueType group_count group_urls fst snd]; [exact Hcode | exact Htype | exact Hdef | clear Hdef | clear Hdef | clear Hdef].
        -- rewrite count_code_snoc, Hcount. cbn [group_code group_type group_title group_description group_issueType group_count group_urls fst snd]. case_decide; [lia | done].
        -- destruct (JS.array_includes (group_urls g) u) eqn:Einc; cbn [negb]; [done|].
           apply NoDup_app. split; [done|]. split; [|apply NoDup_singleton].
           intros x Hx Hx'. apply list_elem_of_singleton in Hx'. subst x.
           apply array_includes_elem_of in Hx. congruence.
        -- intros x. split.
           ++ intros Hx.
              assert (x ∈ group_urls g ∨ x = u) as [Hx' | ->].
              { destruct (negb _); [|by left].
                apply elem_of_app in Hx as [? | Hx]; [by left|].
                right. by apply list_elem_of_singleton in Hx. }
              ** apply Hurls in Hx' as (i' & Hin & Hi'). exists i'. split; [|done].
                 apply elem_of_app. by left.
              ** exists i. split; [|done]. apply elem_of_app. right.
                 by apply list_elem_of_singleton.
           ++ intros (i' & Hin & Hi').
              apply elem_of_app in Hin as [Hin | Hin].
              ** assert (x ∈ group_urls g) as Hx by (apply Hurls; eauto).
                 destruct (negb _); [apply elem_of_app; by left | done].
              ** apply list_elem_of_singleton in Hin. injection Hin as -> ->.
                 destruct (JS.array_includes (group_urls g) u) eqn:Einc; cbn [negb].
                 --- by apply array_includes_elem_of.
                 --- apply elem_of_app. right. by apply list_elem_of_singleton.
      * intros Hk. clear Hdef. apply group_ok_other; [cbn [group_code group_type group_title group_description group_issueType group_count group_urls fst snd]; congruence | by apply Hsome].
    + clear Hdef. intros k. rewrite get_set. destruct (String.eqb_spec k (issue_code i)); [done|].
      intros Hk. destruct (Hnone k Hk) as [? | H0]; [by left|]. right.
      rewrite count_code_snoc, H0. cbn [group_code group_type group_title group_description group_issueType group_count group_urls fst snd]. case_decide; [congruence | done].
  - destruct (ISSUE_DEFINITIONS !! issue_code i) as [d|] eqn:Hdef.
    + (* a first occurrence of a code of the taxonomy *)
      assert (count_code (issue_code i) L = 0%nat) as H0.
      { destruct (Hnone _ Hget) as [? | ?]; [congruence | done]. }
      split.
      * rewrite (keys_set_None _ _ _ Hget). apply NoDup_app. split; [done|].
        split; [|apply NoDup_singleton].
        intros x Hx Hx'. apply list_elem_of_singleton in Hx'. subst x.
        by apply get_None_keys in Hget.
      * intros k g'. rewrite get_set.
        destruct (String.eqb_spec k (issue_code i)) as [-> | Hne].
        -- intros [= <-]. split; cbn [group_code group_type group_title group_description group_issueType group_count group_urls fst snd]; [reflexivity | reflexivity | | clear Hdef | clear Hdef | clear Hdef].
           ++ rewrite Hdef. by destruct d.
           ++ rewrite count_code_snoc, H0. cbn [group_code group_type group_title group_description group_issueType group_count group_urls fst snd]. by case_decide.
           ++ apply NoDup_singleton.
           ++ intros x. rewrite list_elem_of_singleton. split.
              ** intros ->. exists i. split; [|done]. apply elem_of_app. right.
                 by apply list_elem_of_singleton.
              ** intros (i' & Hin & Hi'). apply elem_of_app in Hin as [Hin | Hin].
                 --- by destruct (count_code_0 _ _ _ _ H0 Hin).
                 --- apply list_elem_of_singleton in Hin. by injection Hin as -> ->.
        -- intros Hk. clear Hdef. apply group_ok_other; [cbn [group_code group_type group_title group_description group_issueType group_count group_urls fst snd]; congruence | by apply Hsome].
      * clear Hdef. intros k. rewrite get_set. destruct (String.eqb_spec k (issue_code i)); [done|].
        intros Hk. destruct (Hnone k Hk) as [? | H0']; [by left|]. right.
        rewrite count_code_snoc, H0'. cbn [group_code group_type group_title group_description group_issueType group_count group_urls fst snd]. case_decide; [congruence | done].
    + (* a code outside the taxonomy is not grouped *)
      split; [done | |].
      * intros k g' Hk. apply group_ok_other; [|by apply Hsome].
        cbn [group_code group_type group_title group_description group_issueType group_count group_urls fst snd]. intros <-. congruence.
      * intros k Hk. destruct (decide (k = issue_code i)) as [-> | Hne]; [by left|].
        destruct (Hnone k Hk) as [? | H0]; [by left|]. right.
        rewrite count_code_snoc, H0. cbn [group_code group_type group_title group_description group_issueType group_count group_urls fst snd]. case_decide; [congruence | done].
Qed.

Lemma map_ok_fold (L : list (string * Issue)) :
  map_ok L (foldl (λ m e, group_add (fst e) m (snd e)) [] L).
Proof.
  induction L as [|[u i] L IH] using rev_ind.
  - split; cbn.
    + apply NoDup_nil_2.
    + done.
    + intros k _. by right.
  - rewrite foldl_snoc. by apply map_ok_step.
Qed.

Lemma issueMap_ok (pages : list PageData) :
  map_ok (occurrences pages) (issueMap_of pages).
Proof. rewrite issueMap_of_occurrences. apply map_ok_fold. Qed.

Lemma insert_by_count_perm (x : IssueGroup) (l : list IssueGroup) :
  insert_by_count x l ≡ₚ x :: l.
Proof.
  induction l as [|y l IH]; cbn [insert_by_count]; [done|].
  destruct (group_count x <? group_count y)%nat; [|done].
  rewrite IH. apply Permutation_swap.
Qed.

Lemma sort_by_count_perm (l : list IssueGroup) : sort_by_count l ≡ₚ l.
Proof.
  unfold sort_by_count. induction l as [|x l IH]; cbn [foldr]; [done|].
  by rewrite insert_by_count_perm, IH.
Qed.

Lemma insert_by_count_sorted (x : IssueGroup) (l : list IssueGroup) :
  StronglySorted (λ a b, (group_count b <= group_count a)%nat) l →
  StronglySorted (λ a b, (group_count b <= group_count a)%nat) (insert_by_count x l).
Proof.
  induction l as [|y l IH]; intros Hs; cbn [insert_by_count].
  - apply StronglySorted_cons. split; [constructor | done].
  - apply StronglySorted_cons in Hs as [Hy Hl].
    destruct (group_count x <? group_count y)%nat eqn:E.
    + apply Nat.ltb_lt in E. apply StronglySorted_cons. split; [|by apply IH].
      rewrite insert_by_count_perm. constructor; [lia | done].
    + apply Nat.ltb_ge in E. apply StronglySorted_cons. split.
      * constructor; [done|]. eapply Forall_impl; [exact Hy|]. cbn. intros z Hz. lia.
      * apply StronglySorted_cons. by split.
Qed.

Lemma sort_by_count_sorted (l : list IssueGroup) :
  StronglySorted (λ a b, (group_count b <= group_count a)%nat) (sort_by_count l).
Proof.
  unfold sort_by_count. induction l as [|x l IH]; cbn [foldr]; [constructor|].
  by apply insert_by_count_sorted.
Qed.

Lemma elem_of_List_filter {A : Type} (f : A → bool) (l : list A) (x : A) :
  x ∈ List.filter f l ↔ x ∈ l ∧ f x = true.
Proof. rewrite !list_elem_of_In. apply filter_In. Qed.

Lemma grouped_elem_of (pages : list PageData) (g : IssueGroup) :
  g ∈ errors (groupIssues pages) ++ warnings (groupIssues pages) ↔
  JSMap.get (issueMap_of pages) (group_code g) = Some g.
Proof.
  destruct (issueMap_ok pages) as [Hkeys Hsome _].
  unfold groupIssues. cbn [errors warnings].
  rewrite elem_of_app, !sort_by_count_perm, !elem_of_List_filter.
  unfold JSMap.values. rewrite list_elem_of_fmap. split.
  - intros Hg.
    assert (∃ e, g = snd e ∧ e ∈ issueMap_of pages) as ([k g'] & -> & Hin)
      by (destruct Hg as [[? _] | [? _]]; done).
    cbn [snd]. pose proof (elem_of_get_Some _ _ _ Hkeys Hin) as Hget.
    destruct (Hsome _ _ Hget) as [-> _ _ _ _ _]. exact Hget.
  - intros Hget. apply get_Some_elem_of in Hget.
    assert (∃ e, g = snd e ∧ e ∈ issueMap_of pages) as He
      by (by exists (group_code g, g)).
    unfold is_error, is_warning. destruct (group_issueType g); [left | right]; by split.
Qed.

Lemma count_code_occurrences (k : string) (pages : list PageData) :
  count_code k (occurrences pages)
  = length (filter (λ i, issue_code i = k) (pages ≫= issues)).
Proof.
  unfold count_code, occurrences.
  induction pages as [|page pages IH]; [done|].
  rewrite !bind_cons, !filter_app, !length_app, IH. f_equal.
  induction (issues page) as [|i l IHl]; [done|].
  rewrite fmap_cons, !filter_cons. cbn [snd].
  case_decide; cbn [length]; by rewrite IHl.
Qed.

Lemma elem_of_occurrences (pages : list PageData) (u : string) (i : Issue) :
  (u, i) ∈ occurrences pages ↔ ∃ page, page ∈ pages ∧ url page = u ∧ i ∈ issues page.
Proof.
  unfold occurrences. rewrite list_elem_of_bind. split.
  - intros (page & Hin & Hp). apply list_elem_of_fmap in Hin as (i' & [= -> ->] & Hi).
    by exists page.
  - intros (page & Hp & <- & Hi). exists page. split; [|done].
    apply list_elem_of_fmap. by exists i.
Qed.

(** Every group that [groupIssues] returns carries a code of the taxonomy
    with its title, description and severity; its count is the number of
    issues of that code over all pages, and its URLs are, without
    repetition, the URLs of the pages that have such an issue. *)
Theorem groupIssues_group_spec (pages : list PageData) (g : IssueGroup) :
  g ∈ errors (groupIssues pages) ++ warnings (groupIssues pages) →
  ISSUE_DEFINITIONS !! group_code g =
    Some {| def_title := group_title g;
            def_description := group_description g;
            def_type := group_issueType g |} ∧
  group_type g = group_code g ∧
  group_count g = length (filter (λ i, issue_code i = group_code g) (pages ≫= issues)) ∧
  NoDup (group_urls g) ∧
  ∀ u, u ∈ group_urls g ↔
       ∃ page i, page ∈ pages ∧ url page = u ∧ i ∈ issues page ∧
                 issue_code i = group_code g.
Proof.
  intros Hg. apply grouped_elem_of in Hg.
  destruct (issueMap_ok pages) as [_ Hsome _].
  destruct (Hsome _ _ Hg) as [_ Htype Hdef Hcount Hnd Hurls]. clear Hsome.
  split; [exact Hdef|]. clear Hdef.
  split; [exact Htype|]. split; [by rewrite Hcount, count_code_occurrences|].
  split; [exact Hnd|].
  intros u. rewrite Hurls. split.
  - intros (i & Hin & Hi). apply elem_of_occurrences in Hin as (page & ? & ? & ?).
    by exists page, i.
  - intros (page & i & ? & ? & ? & ?). exists i. split; [|done].
    apply elem_of_occurrences. by exists page.
Qed.

Lemma group_ok_severity (L : list (string * Issue)) (k : string) (g : IssueGroup) :
  group_ok L k g → severity k = Some (group_issueType g).
Proof. intros [_ _ Hdef _ _ _]. unfold severity. by rewrite Hdef. Qed.

Lemma type_total_step (t : IssueType) (L : list (string * Issue))
    (m : list (string * IssueGroup)) (u : string) (i : Issue) :
  map_ok L m →
  type_total t (JSMap.values m)
  = length (filter (λ e, severity (issue_code (snd e)) = Some t) L) →
  type_total t (JSMap.values (group_add u m i))
  = length (filter (λ e, severity (issue_code (snd e)) = Some t) (L ++ [(u, i)])).
Proof.
  intros [_ Hsome _] Htot.
  rewrite filter_app, length_app, <- Htot. clear Htot.
  unfold group_add, type_total.
  destruct (JSMap.get m (issue_code i)) as [existing|] eqn:Hget.
  - pose proof (group_ok_severity _ _ _ (Hsome _ _ Hget)) as Hsev. clear Hsome.
    match goal with |- context [JSMap.set m ?k ?v] =>
      pose proof (sum_set_Some
        (λ g, if decide (group_issueType g = t) then group_count g else 0%nat)
        m k v existing Hget) as Hsum end.
    cbn [group_issueType group_count] in Hsum.
    rewrite filter_cons, filter_nil. cbn [snd]. rewrite Hsev.
    destruct (decide (group_issueType existing = t)) as [Ht | Ht].
    + rewrite decide_True by congruence. cbn [length]. lia.
    + rewrite decide_False by congruence. cbn [length]. lia.
  - clear Hsome. rewrite filter_cons, filter_nil. cbn [snd]. unfold severity.
    destruct (ISSUE_DEFINITIONS !! issue_code i) as [d|]; cbn [fmap option_fmap option_map].
    + rewrite (sum_set_None _ _ _ _ Hget). cbn [group_issueType group_count].
      destruct (decide (def_type d = t)) as [Ht | Ht].
      * rewrite decide_True by congruence. cbn [length]. lia.
      * rewrite decide_False by congruence. cbn [length]. lia.
    + rewrite decide_False by discriminate. cbn [length]. lia.
Qed.

Lemma group_count_pos (L : list (string * Issue)) (k : string) (g : IssueGroup) :
  JSMap.get (foldl (λ m e, group_add (fst e) m (snd e)) [] L) k = Some g →
  (0 < group_count g)%nat.
Proof.
  revert k g. induction L as [|[u i] L IH] using rev_ind; intros k g; [done|].
  rewrite foldl_snoc. cbn [fst snd]. unfold group_add.
  destruct (JSMap.get _ (issue_code i)) as [existing|] eqn:Hget.
  - rewrite get_set. destruct (String.eqb k (issue_code i)); [|apply IH].
    intros [= <-]. cbn [group_count]. lia.
  - destruct (ISSUE_DEFINITIONS !! issue_code i) as [d|]; [|apply IH].
    rewrite get_set. destruct (String.eqb k (issue_code i)); [|apply IH].
    intros [= <-]. cbn [group_count]. lia.
Qed.

Lemma type_total_fold (t : IssueType) (L : list (string * Issue)) :
  type_total t (JSMap.values (foldl (λ m e, group_add (fst e) m (snd e)) [] L))
  = length (filter (λ e, severity (issue_code (snd e)) = Some t) L).
Proof.
  induction L as [|[u i] L IH] using rev_ind; [done|].
  rewrite foldl_snoc. apply type_total_step; [apply map_ok_fold | exact IH].
Qed.

Lemma type_total_occurrences (t : IssueType) (pages : list PageData) :
  length (filter (λ e, severity (issue_code (snd e)) = Some t) (occurrences pages))
  = length (issues_of_type t pages).
Proof.
  unfold issues_of_type, occurrences.
  induction pages as [|page pages IH]; [done|].
  rewrite !bind_cons, !filter_app, !length_app, IH. f_equal.
  induction (issues page) as [|i l IHl]; [done|].
  rewrite fmap_cons, !filter_cons. cbn [snd].
  case_decide; cbn [length]; by rewrite IHl.
Qed.

Lemma type_total_filter (t : IssueType) (f : IssueGroup → bool) (l : list IssueGroup) :
  (∀ g, f g = true ↔ group_issueType g = t) →
  sum_list_with group_count (sort_by_count (List.filter f l)) = type_total t l.
Proof.
  intros Hf. rewrite sort_by_count_perm. unfold type_total.
  induction l as [|g l IH]; [done|].
  cbn [List.filter sum_list_with]. destruct (f g) eqn:E.
  - apply Hf in E. rewrite decide_True by exact E. cbn [sum_list_with]. by rewrite IH.
  - rewrite decide_False; [exact IH|]. intros Ht. apply Hf in Ht. congruence.
Qed.

Lemma groupIssues_counts (pages : list PageData) :
  sum_list_with group_count (errors (groupIssues pages))
  = length (issues_of_type error pages) ∧
  sum_list_with group_count (warnings (groupIssues pages))
  = length (issues_of_type warning pages).
Proof.
  unfold groupIssues. cbn [errors warnings].
  rewrite (type_total_filter error), (type_total_filter warning).
  - rewrite issueMap_of_occurrences, !type_total_fold, !type_total_occurrences. done.
  - intros g. unfold is_warning. by destruct (group_issueType g).
  - intros g. unfold is_error. by destruct (group_issueType g).
Qed.

(** The counts of the groups add up to the issues: the counts of the error
    groups to the number of issues whose code the taxonomy has as an
    error, the counts of the warning groups to the number of those it has
    as a warning.  An issue whose code the taxonomy does not have is
    counted nowhere. *)
Theorem groupIssues_counts_add_up (pages : list PageData) :
  sum_list_with group_count (errors (groupIssues pages))
  = length (issues_of_type error pages) ∧
  sum_list_with group_count (warnings (groupIssues pages))
  = length (issues_of_type warning pages).
Proof. apply groupIssues_counts. Qed.

(** The groups have pairwise different codes; the groups listed as errors
    are of type error and those listed as warnings of type warning, each
    list in the order of falling counts; and a code has a group exactly
    when the taxonomy has it and some page has an issue of it. *)
Theorem groupIssues_group_lists (pages : list PageData) :
  let groups := errors (groupIssues pages) ++ warnings (groupIssues pages) in
  NoDup (group_code <$> groups) ∧
  (Forall (λ g, group_issueType g = error) (errors (groupIssues pages)) ∧
   StronglySorted (λ a b, (group_count b <= group_count a)%nat)
     (errors (groupIssues pages))) ∧
  (Forall (λ g, group_issueType g = warning) (warnings (groupIssues pages)) ∧
   StronglySorted (λ a b, (group_count b <= group_count a)%nat)
     (warnings (groupIssues pages))) ∧
  ∀ k, k ∈ group_code <$> groups ↔
       is_Some (severity k) ∧
       ∃ page i, page ∈ pages ∧ i ∈ issues page ∧ issue_code i = k.
Proof.
  cbn zeta.
  split; [|split; [split; [|apply sort_by_count_sorted]
                  |split; [split; [|apply sort_by_count_sorted]|]]].
  - destruct (issueMap_ok pages) as [Hkeys Hsome _].
    assert (group_code <$> JSMap.values (issueMap_of pages) = JSMap.keys (issueMap_of pages))
      as Hcodes.
    { unfold JSMap.values, JSMap.keys. rewrite <- list_fmap_compose.
      apply Forall_fmap_ext_1, Forall_forall. intros [k g] Hin. cbn.
      by destruct (Hsome _ _ (elem_of_get_Some _ _ _ Hkeys Hin)) as [-> _ _ _ _ _]. }
    clear Hsome. rewrite <- Hcodes in Hkeys. clear Hcodes.
    unfold groupIssues. cbn [errors warnings]. rewrite !sort_by_count_perm.
    induction (JSMap.values (issueMap_of pages)) as [|g l IH]; [apply NoDup_nil_2|].
    rewrite fmap_cons in Hkeys. apply NoDup_cons in Hkeys as [Hg Hl].
    specialize (IH Hl).
    assert (∀ f, group_code g ∉ group_code <$> List.filter f l) as Hnot.
    { intros f Hin. apply Hg. apply list_elem_of_fmap in Hin as (g' & -> & Hin).
      apply elem_of_List_filter in Hin as [Hin _].
      apply list_elem_of_fmap. by exists g'. }
    cbn [List.filter]. unfold is_error at 1, is_warning at 1.
    destruct (group_issueType g).
    + cbn [app]. rewrite fmap_cons. apply NoDup_cons. split; [|exact IH].
      rewrite fmap_app, elem_of_app. intros [Hin | Hin]; by eapply Hnot.
    + rewrite fmap_app, fmap_cons. rewrite <- Permutation_middle.
      apply NoDup_cons. split; [|by rewrite <- fmap_app].
      rewrite elem_of_app. intros [Hin | Hin]; by eapply Hnot.
  - apply Forall_forall. intros g. unfold groupIssues. cbn [errors].
    rewrite sort_by_count_perm, elem_of_List_filter. unfold is_error.
    intros [_ Hg]. by destruct (group_issueType g).
  - apply Forall_forall. intros g. unfold groupIssues. cbn [warnings].
    rewrite sort_by_count_perm, elem_of_List_filter. unfold is_warning.
    intros [_ Hg]. by destruct (group_issueType g).
  - intros k. rewrite list_elem_of_fmap.
    destruct (issueMap_ok pages) as [Hkeys Hsome Hnone]. split.
    + intros (g & -> & Hg). apply grouped_elem_of in Hg.
      pose proof (Hsome _ _ Hg) as Hok. clear Hsome Hnone.
      split; [rewrite (group_ok_severity _ _ _ Hok); by eexists|].
      destruct Hok as [_ _ _ Hcount _ _].
      rewrite issueMap_of_occurrences in Hg. apply group_count_pos in Hg.
      rewrite Hcount, count_code_occurrences in Hg.
      destruct (filter _ (pages ≫= issues)) as [|i l] eqn:Ef; [cbn in Hg; lia|].
      assert (i ∈ filter (λ i, issue_code i = group_code g) (pages ≫= issues)) as Hi
        by (rewrite Ef; apply list_elem_of_here).
      apply list_elem_of_filter in Hi as [Hcode Hi].
      apply list_elem_of_bind in Hi as (page & Hi & Hpage). by exists page, i.
    + intros ([t Ht] & page & i & Hpage & Hi & Hcode).
      destruct (JSMap.get (issueMap_of pages) k) as [g|] eqn:Hget.
      * exists g. destruct (Hsome _ _ Hget) as [Hk _ _ _ _ _]. clear Hsome Hnone.
        split; [done|]. apply grouped_elem_of. by rewrite Hk.
      * exfalso. destruct (Hnone _ Hget) as [Hdef | H0]; clear Hsome Hnone.
        -- unfold severity in Ht. rewrite Hdef in Ht. discriminate.
        -- eapply (count_code_0 _ _ (url page) i H0); [|exact Hcode].
           apply elem_of_occurrences. by exists page.
Qed.

(** ** Broken links *)

Section LinkCheckProperties.

Import LinkChecks.

Lemma has_issue_app (l1 l2 : list Issue) (code : string) :
  has_issue (l1 ++ l2) code = has_issue l1 code || has_issue l2 code.
Proof. unfold has_issue. apply existsb_app. Qed.

Lemma issue_code_createIssue (code : string) : issue_code (createIssue code) = code.
Proof. reflexivity. Qed.

Lemma has_issue_createIssue (l : list Issue) (code : string) :
  has_issue (l ++ [createIssue code]) code = true.
Proof.
  rewrite has_issue_app. unfold has_issue at 2. cbn [existsb].
  rewrite issue_code_createIssue, String.eqb_refl. apply orb_true_iff. right. done.
Qed.

(** The two loops over links have one shape: the first link that passes
    the test adds the issue, unless the page has it. *)
Lemma flag_fold (test : string → bool) (code : string) (links : list string)
    (l : list Issue) :
  foldl (λ l link,
           if test link then
             if negb (has_issue l code) then l ++ [createIssue code] else l
           else l) l links
  = if negb (has_issue l code) && existsb test links then l ++ [createIssue code] else l.
Proof.
  revert l. induction links as [|link links IH]; intros l; cbn [foldl existsb].
  - by rewrite andb_false_r.
  - rewrite IH. destruct (test link); cbn [orb]; [|done].
    destruct (has_issue l code) eqn:E; cbn [negb andb].
    + by rewrite E.
    + by rewrite has_issue_createIssue.
Qed.

Lemma set_issues_id (page : PageData) : set_issues page (issues page) = page.
Proof. by destruct page. Qed.

Lemma gains_fold (test : string → bool) (code : string) (links : list string)
    (page : PageData) :
  gains code (has_issue (issues page) code = false ∧ ∃ link, link ∈ links ∧ test link = true)
    page
    (set_issues page
       (if negb (has_issue (issues page) code) && existsb test links
        then issues page ++ [createIssue code] else issues page)).
Proof.
  split; [done|]. cbn [issues set_issues].
  destruct (has_issue (issues page) code) eqn:E; cbn [negb andb].
  - right. split; [|done]. intros [? _]. done.
  - destruct (existsb test links) eqn:Ex.
    + left. split; [|done]. split; [done|].
      apply existsb_exists in Ex as (link & Hin & Ht). exists link.
      split; [by apply list_elem_of_In | done].
    + right. split; [|done]. intros [_ (link & Hin & Ht)].
      assert (existsb test links = true) as Ex'
        by (apply existsb_exists; exists link; split; [by apply list_elem_of_In | done]).
      congruence.
Qed.

Lemma Forall2_fmap_diag {A B : Type} (R : A → B → Prop) (f : A → B) (l : list A) :
  (∀ x, R x (f x)) → Forall2 R l (f <$> l).
Proof. intros HR. induction l; constructor; auto. Qed.

Lemma crawledUrls_lookup (crawlResults : list CrawlResult.t) (k : string) :
  crawledUrls_of crawlResults !! k
  = CrawlResult.statusCode <$> last (List.filter (stored_under k) crawlResults).
Proof.
  unfold crawledUrls_of.
  induction crawlResults as [|r rs IH] using rev_ind; [done|].
  rewrite foldl_snoc, List.filter_app. cbn [List.filter]. cbn zeta.
  unfold stored_under at 2.
  destruct (String.eqb_spec k (CrawlResult.url r)) as [-> | Hne]; cbn [orb].
  - rewrite last_snoc. cbn.
    destruct (JS.endsWith (CrawlResult.url r) "/").
    + destruct (decide (JS.slice_0_m1 (CrawlResult.url r) = CrawlResult.url r)) as [-> | ?].
      * by rewrite lookup_insert_eq.
      * rewrite lookup_insert_ne by done. by rewrite lookup_insert_eq.
    + destruct (decide (CrawlResult.url r +:+ "/" = CrawlResult.url r)) as [-> | ?].
      * by rewrite lookup_insert_eq.
      * rewrite lookup_insert_ne by done. by rewrite lookup_insert_eq.
  - destruct (JS.endsWith (CrawlResult.url r) "/").
    + destruct (String.eqb_spec k (JS.slice_0_m1 (CrawlResult.url r))) as [-> | Hne'].
      * rewrite last_snoc. by rewrite lookup_insert_eq.
      * rewrite app_nil_r, !lookup_insert_ne by done. exact IH.
    + destruct (String.eqb_spec k (CrawlResult.url r +:+ "/")) as [-> | Hne'].
      * rewrite last_snoc. by rewrite lookup_insert_eq.
      * rewrite app_nil_r, !lookup_insert_ne by done. exact IH.
Qed.

Lemma link_status_from_result (crawlResults : list CrawlResult.t) (link : string) (s : Z) :
  link_status (crawledUrls_of crawlResults) link = Some s →
  ∃ r, r ∈ crawlResults ∧ CrawlResult.statusCode r = s.
Proof.
  assert (∀ k, crawledUrls_of crawlResults !! k = Some s →
               ∃ r, r ∈ crawlResults ∧ CrawlResult.statusCode r = s) as Hk.
  { intros k. rewrite crawledUrls_lookup.
    destruct (last _) as [r|] eqn:El; [|done]. intros [= <-]. exists r. split; [|done].
    apply last_Some in El as (l' & El).
    assert (r ∈ List.filter (stored_under k) crawlResults) as Hin
      by (rewrite El; apply elem_of_app; right; apply list_elem_of_here).
    apply elem_of_List_filter in Hin. tauto. }
  unfold link_status, num_or.
  repeat match goal with
         | |- context [crawledUrls_of crawlResults !! ?k] =>
             let o := fresh "o" in let E := fresh "E" in
             destruct (crawledUrls_of crawlResults !! k) as [o|] eqn:E
         | |- context [(?n =? 0)%Z] => destruct (n =? 0)%Z
         end; intros [= <-] || intros [=]; eauto.
Qed.

Lemma checkBrokenLinks_fold (pages : list PageData) (crawlResults : list CrawlResult.t) :
  checkBrokenLinks pages crawlResults
  = (λ page, set_issues page
       (if negb (has_issue (issues page) ERROR_CODES.BROKEN_INTERNAL_LINK)
           && existsb (broken_target crawlResults) (internalLinks page)
        then issues page ++ [createIssue ERROR_CODES.BROKEN_INTERNAL_LINK]
        else issues page)) <$> pages.
Proof.
  unfold checkBrokenLinks. cbn zeta. apply list_fmap_ext. intros _ page _. f_equal.
  apply (flag_fold (broken_target crawlResults)).
Qed.

(** [checkBrokenLinks] returns the pages in their order, each one as it
    was but for its issues: a page that has no issue
    [broken_internal_link] yet and has an internal link whose crawled
    status passes the test gets this one issue at the end of its issues,
    once; every other page keeps its issues. *)
Theorem checkBrokenLinks_spec (pages : list PageData) (crawlResults : list CrawlResult.t) :
  Forall2
    (λ page page',
       gains ERROR_CODES.BROKEN_INTERNAL_LINK
         (has_issue (issues page) ERROR_CODES.BROKEN_INTERNAL_LINK = false ∧
          ∃ link, link ∈ internalLinks page ∧ broken_target crawlResults link = true)
         page page')
    pages (checkBrokenLinks pages crawlResults).
Proof.
  rewrite checkBrokenLinks_fold.
  apply (Forall2_fmap_diag _ (λ page, set_issues page _)). intros page.
  apply (gains_fold (broken_target crawlResults)).
Qed.

(** The status that the map of [checkBrokenLinks] has under a key is that
    of the last crawl result stored under it: results of the same URL,
    or of URLs that differ in the trailing slash only, overwrite one
    another. *)
Theorem crawledUrls_last_result_wins (crawlResults : list CrawlResult.t) (k : string) :
  crawledUrls_of crawlResults !! k
  = CrawlResult.statusCode <$> last (List.filter (stored_under k) crawlResults).
Proof. apply crawledUrls_lookup. Qed.

(** When no crawl result has a status from 400 to 599, [checkBrokenLinks]
    changes nothing: a page that could not be fetched at all (status 0)
    does not make the links to it broken. *)
Theorem checkBrokenLinks_without_failures (pages : list PageData)
    (crawlResults : list CrawlResult.t) :
  Forall (λ r, ¬ (400 <= CrawlResult.statusCode r < 600)%Z) crawlResults →
  checkBrokenLinks pages crawlResults = pages.
Proof.
  intros Hrs. rewrite checkBrokenLinks_fold.
  rewrite <- (list_fmap_id pages) at 2. apply list_fmap_ext. intros _ page _.
  assert (existsb (broken_target crawlResults) (internalLinks page) = false) as ->.
  { apply not_true_is_false. intros Ex. apply existsb_exists in Ex as (link & _ & Hb).
    unfold broken_target, is_broken_status in Hb.
    destruct (link_status _ link) as [s|] eqn:Es; [|done].
    apply link_status_from_result in Es as (r & Hr & <-).
    rewrite Forall_forall in Hrs. specialize (Hrs r Hr).
    apply andb_true_iff in Hb as [Hb1 Hb3]. apply andb_true_iff in Hb1 as [_ Hb2].
    apply Z.leb_le in Hb2. apply Z.ltb_lt in Hb3. lia. }
  rewrite andb_false_r. apply set_issues_id.
Qed.

(** A second run of [checkBrokenLinks] over its own result changes
    nothing. *)
Theorem checkBrokenLinks_idempotent (pages : list PageData)
    (crawlResults : list CrawlResult.t) :
  checkBrokenLinks (checkBrokenLinks pages crawlResults) crawlResults
  = checkBrokenLinks pages crawlResults.
Proof.
  rewrite !checkBrokenLinks_fold, <- list_fmap_compose.
  apply list_fmap_ext. intros _ page _. cbn [compose issues set_issues internalLinks].
  destruct (has_issue (issues page) ERROR_CODES.BROKEN_INTERNAL_LINK) eqn:E;
    cbn [negb andb].
  - rewrite E. cbn [negb andb]. by destruct page.
  - destruct (existsb _ (internalLinks page)) eqn:Ex.
    + rewrite has_issue_createIssue. cbn [negb andb]. done.
    + rewrite E. cbn [negb andb]. by destruct page.
Qed.

(** An internal link is reported when the last crawl result stored under
    it has a status from 400 to 599: the page that has the link has the
    issue [broken_internal_link] afterwards. *)
Theorem broken_internal_link_is_reported (pages : list PageData)
    (crawlResults : list CrawlResult.t) (n : nat) (page : PageData) (link : string)
    (r : CrawlResult.t) :
  pages !! n = Some page →
  link ∈ internalLinks page →
  last (List.filter (stored_under link) crawlResults) = Some r →
  (400 <= CrawlResult.statusCode r < 600)%Z →
  ∃ page', checkBrokenLinks pages crawlResults !! n = Some page' ∧
           url page' = url page ∧
           has_issue (issues page') ERROR_CODES.BROKEN_INTERNAL_LINK = true.
Proof.
  intros Hn Hlink Hlast Hs. rewrite checkBrokenLinks_fold, list_lookup_fmap, Hn.
  eexists. split; [reflexivity|]. split; [reflexivity|]. cbn [issues set_issues].
  destruct (has_issue (issues page) ERROR_CODES.BROKEN_INTERNAL_LINK) eqn:E;
    cbn [negb andb]; [exact E|].
  assert (existsb (broken_target crawlResults) (internalLinks page) = true) as ->.
  { apply existsb_exists. exists link. split; [by apply list_elem_of_In|].
    unfold broken_target, link_status. rewrite crawledUrls_lookup, Hlast.
    cbn [fmap option_fmap option_map num_or].
    assert ((CrawlResult.statusCode r =? 0)%Z = false) as E0 by (apply Z.eqb_neq; lia).
    rewrite E0. cbn [num_or]. rewrite E0. unfold is_broken_status. rewrite E0.
    cbn [negb andb]. apply andb_true_iff. split; [apply Z.leb_le | apply Z.ltb_lt]; lia. }
  apply has_issue_createIssue.
Qed.

End LinkCheckProperties.

(** ** External links *)

Section ExternalLinkProperties.

Import LinkChecks.

Variable head : string → Z → option Z.

Lemma collect_links_nodup (links keys : list string) :
  NoDup keys →
  NoDup (foldl (λ keys link,
                  if negb (JS.array_includes keys link) then keys ++ [link] else keys)
               keys links).
Proof.
  revert keys. induction links as [|link links IH]; intros keys Hk; cbn [foldl]; [done|].
  apply IH. destruct (JS.array_includes keys link) eqn:E; cbn [negb]; [done|].
  apply NoDup_app. split; [done|]. split; [|apply NoDup_singleton].
  intros x Hx Hx'. apply list_elem_of_singleton in Hx'. subst x.
  apply array_includes_elem_of in Hx. congruence.
Qed.

Lemma collect_links_elem_of (links keys : list string) (x : string) :
  x ∈ foldl (λ keys link,
               if negb (JS.array_includes keys link) then keys ++ [link] else keys)
            keys links
  ↔ x ∈ keys ∨ x ∈ links.
Proof.
  revert keys. induction links as [|link links IH]; intros keys; cbn [foldl].
  - split; [by left | intros [? | Hx]; [done | by apply elem_of_nil in Hx]].
  - rewrite IH, elem_of_cons.
    destruct (JS.array_includes keys link) eqn:E; cbn [negb].
    + apply array_includes_elem_of in E. split; [tauto|].
      intros [? | [-> | ?]]; tauto.
    + rewrite elem_of_app, list_elem_of_singleton. tauto.
Qed.

Lemma collect_external_from (pages : list PageData) (keys : list string) :
  let collected :=
    foldl (λ keys page,
             foldl (λ keys link,
                      if negb (JS.array_includes keys link) then keys ++ [link] else keys)
                   keys (externalLinks page))
          keys pages in
  (NoDup keys → NoDup collected) ∧
  ∀ x, x ∈ collected ↔ x ∈ keys ∨ ∃ page, page ∈ pages ∧ x ∈ externalLinks page.
Proof.
  cbn zeta. revert keys. induction pages as [|page pages IH]; intros keys; cbn [foldl].
  - split; [done|]. intros x. split; [by left|].
    intros [? | (page & Hp & _)]; [done | by apply elem_of_nil in Hp].
  - destruct (IH (foldl (λ keys link,
                  if negb (JS.array_includes keys link) then keys ++ [link] else keys)
               keys (externalLinks page))) as [IHn IHe].
    split.
    + intros Hk. apply IHn. by apply collect_links_nodup.
    + intros x. rewrite IHe, collect_links_elem_of. split.
      * intros [[? | ?] | (page' & Hp & Hx)]; [by left | right | right].
        -- exists page. split; [apply list_elem_of_here | done].
        -- exists page'. split; [by apply list_elem_of_further | done].
      * intros [? | (page' & Hp & Hx)]; [by left; left|].
        apply elem_of_cons in Hp as [-> | Hp]; [by left; right|].
        right. by exists page'.
Qed.

Lemma checkExternalLinks_fold (pages : list PageData) (timeout : Z) :
  checkExternalLinks head pages timeout
  = (λ page, set_issues page
       (if negb (has_issue (issues page) ERROR_CODES.BROKEN_EXTERNAL_LINK)
           && existsb (λ link, bool_decide (link ∈ brokenLinks_of head pages timeout))
                (externalLinks page)
        then issues page ++ [createIssue ERROR_CODES.BROKEN_EXTERNAL_LINK]
        else issues page)) <$> pages.
Proof.
  unfold checkExternalLinks. cbn zeta. apply list_fmap_ext. intros _ page _. f_equal.
  apply (flag_fold (λ link, bool_decide (link ∈ brokenLinks_of head pages timeout))).
Qed.

Lemma brokenLinks_elem_of (pages : list PageData) (timeout : Z) (link : string) :
  link ∈ brokenLinks_of head pages timeout
  ↔ link ∈ linksToCheck pages ∧ probe_broken head timeout link = true.
Proof. unfold brokenLinks_of. by rewrite elem_of_list_to_set, elem_of_List_filter. Qed.

(** The links that [checkExternalLinks] probes are at most 50, pairwise
    different, and each is an external link of one of the pages; when the
    pages have at most 50 different external links, every one of them is
    probed. *)
Theorem linksToCheck_is_a_sample (pages : list PageData) :
  NoDup (linksToCheck pages) ∧
  (length (linksToCheck pages) <= 50)%nat ∧
  (∀ link, link ∈ linksToCheck pages →
           ∃ page, page ∈ pages ∧ link ∈ externalLinks page) ∧
  ((length (collect_external pages) <= 50)%nat →
   ∀ page link, page ∈ pages → link ∈ externalLinks page → link ∈ linksToCheck pages).
Proof.
  destruct (collect_external_from pages []) as [Hnd Hel]. cbn zeta in Hnd, Hel.
  fold (collect_external pages) in Hnd, Hel. unfold linksToCheck.
  split; [|split; [|split]].
  - eapply sublist_NoDup; [apply Hnd, NoDup_nil_2 | apply sublist_take].
  - rewrite length_take. lia.
  - intros link Hin. apply elem_of_take in Hin as (i & Hin & _).
    apply list_elem_of_lookup_2 in Hin. apply Hel in Hin as [Hin | ?]; [|done].
    by apply elem_of_nil in Hin.
  - intros Hlen page link Hp Hl. rewrite take_ge by exact Hlen.
    apply Hel. right. by exists page.
Qed.

(** [checkExternalLinks] returns the pages in their order, each one as it
    was but for its issues: a page that has no issue
    [broken_external_link] yet and has an external link that was probed
    and answered with a status of 400 or more, or not at all, gets this
    one issue at the end of its issues, once; every other page keeps its
    issues.  A link that is not among the probed ones is never reported. *)
Theorem checkExternalLinks_spec (pages : list PageData) (timeout : Z) :
  Forall2
    (λ page page',
       gains ERROR_CODES.BROKEN_EXTERNAL_LINK
         (has_issue (issues page) ERROR_CODES.BROKEN_EXTERNAL_LINK = false ∧
          ∃ link, link ∈ externalLinks page ∧
                  (link ∈ linksToCheck pages ∧ probe_broken head timeout link = true))
         page page')
    pages (checkExternalLinks head pages timeout).
Proof.
  rewrite checkExternalLinks_fold.
  apply (Forall2_fmap_diag _ (λ page, set_issues page _)). intros page.
  pose proof (gains_fold (λ link, bool_decide (link ∈ brokenLinks_of head pages timeout))
                ERROR_CODES.BROKEN_EXTERNAL_LINK (externalLinks page) page) as [Hset Hg].
  split; [exact Hset|].
  destruct Hg as [[[Hno (link & Hin & Hb)] Hi] | [Hn Hi]]; [left | right]; split; try done.
  - split; [done|]. exists link. split; [done|].
    apply bool_decide_eq_true in Hb. by apply brokenLinks_elem_of.
  - intros [Hno (link & Hin & Hb)]. apply Hn. split; [done|]. exists link.
    split; [done|]. apply bool_decide_eq_true. by apply brokenLinks_elem_of.
Qed.

(** When every probed link answers with a status below 400,
    [checkExternalLinks] changes nothing. *)
Theorem checkExternalLinks_all_reachable (pages : list PageData) (timeout : Z) :
  (∀ link, link ∈ linksToCheck pages →
           ∃ status, head link timeout = Some status ∧ (status < 400)%Z) →
  checkExternalLinks head pages timeout = pages.
Proof.
  intros Hok. rewrite checkExternalLinks_fold.
  transitivity (id <$> pages); [|apply list_fmap_id].
  apply list_fmap_ext. intros _ page _. unfold id.
  match goal with |- context [existsb ?f ?l] =>
    assert (existsb f l = false) as -> end.
  { apply not_true_is_false. intros Ex. apply existsb_exists in Ex as (link & _ & Hb).
    apply bool_decide_eq_true, brokenLinks_elem_of in Hb as [Hin Hb].
    destruct (Hok link Hin) as (status & Hs & Hlt). unfold probe_broken in Hb.
    rewrite Hs in Hb. apply Z.leb_le in Hb. lia. }
  rewrite andb_false_r. apply set_issues_id.
Qed.

End ExternalLinkProperties.

(** ** Scores and percentages in the arithmetic of JavaScript numbers *)

Section NumberOrder.

Import Number.
Local Open Scope Q_scope.

Lemma of_nat_mono (m n : nat) : (m <= n)%nat → of_nat m <= of_nat n.
Proof.
  intros Hmn. unfold of_nat. apply fl64_mono.
  rewrite <- Zle_Qle. lia.
Qed.

Lemma mul_mono_l (a b c : number) : 0 <= c → a <= b → mul a c <= mul b c.
Proof. intros Hc Hab. unfold mul. apply fl64_mono. by apply Qmult_le_compat_r. Qed.

Lemma add_mono (a b c d : number) : a <= b → c <= d → add a c <= add b d.
Proof. intros Hab Hcd. unfold add. apply fl64_mono. by apply Qplus_le_compat. Qed.

Lemma sub_anti_r (a b c : number) : b <= c → sub a c <= sub a b.
Proof. intros Hbc. unfold sub. apply fl64_mono. lra. Qed.

Lemma div_mono_l (a b c : number) : 0 < c → a <= b → div a c <= div b c.
Proof.
  intros Hc Hab. unfold div. apply fl64_mono. unfold Qdiv.
  apply Qmult_le_compat_r; [done|]. apply Qlt_le_weak. by apply Qinv_lt_0_compat.
Qed.

Lemma div_anti_r (a c d : Q) : 0 <= a → 0 < c → c <= d → div a d <= div a c.
Proof.
  intros Ha Hc Hcd. unfold div. apply fl64_mono.
  assert (0 < d) as Hd by (by apply Qlt_le_trans with c).
  assert (/ d <= / c) as Hinv.
  { apply Qle_shift_inv_r; [done|]. rewrite Qmult_comm.
    apply (Qle_shift_div_l 1 d c); [done|]. lra. }
  unfold Qdiv. rewrite (Qmult_comm a (/ d)), (Qmult_comm a (/ c)).
  by apply Qmult_le_compat_r.
Qed.

Lemma Math_max_mono (a b c : number) : b <= c → Math_max a b <= Math_max a c.
Proof.
  intros Hbc. unfold Math_max.
  destruct (Qle_bool a b) eqn:E1, (Qle_bool a c) eqn:E2; try done.
  - apply Qle_bool_iff in E1. assert (Qle_bool a c = true) as E
      by (apply Qle_bool_iff; by apply Qle_trans with b). congruence.
  - by apply Qle_bool_iff in E2.
  - apply Qle_refl.
Qed.

Lemma Math_round_mono (x y : number) : x <= y → (Math_round x <= Math_round y)%Z.
Proof. intros Hxy. unfold Math_round. apply Qfloor_resp_le. lra. Qed.

Lemma Math_round_range (x : number) (M : Z) :
  0 <= x → x <= inject_Z M → (0 <= Math_round x <= M)%Z.
Proof.
  intros H0 HM. split.
  - change 0%Z with (Math_round 0). by apply Math_round_mono.
  - assert (Math_round (inject_Z M) = M) as <-; [|by apply Math_round_mono].
    unfold Math_round.
    assert (Qfloor (inject_Z M) <= Qfloor (inject_Z M + (1 # 2)))%Z as H1
      by (apply Qfloor_resp_le; lra).
    assert (Qfloor (inject_Z M + (1 # 2)) < M + 1)%Z as H2.
    { rewrite Zlt_Qlt, inject_Z_plus.
      pose proof (Qfloor_le (inject_Z M + (1 # 2))) as Hf.
      change (inject_Z 1) with 1. lra. }
    rewrite Qfloor_Z in H1. lia.
Qed.

Lemma div_le_one (a b : number) : 0 <= a → 0 < b → a <= b → 0 <= div a b <= 1.
Proof.
  intros Ha Hb Hab. split.
  - apply div_nonneg; [done | by apply Qlt_le_weak].
  - unfold div. apply (fl64_le _ 1); [lia|].
    apply Qle_shift_div_r; [done|]. change (inject_Z 1) with 1. by rewrite Qmult_1_l.
Qed.

Lemma percent_range (a b : number) :
  0 <= a → 0 < b → a <= b → (0 <= Math_round (mul (div a b) 100%Q) <= 100)%Z.
Proof.
  intros Ha Hb Hab. destruct (div_le_one a b Ha Hb Hab) as [H0 H1].
  apply Math_round_range.
  - apply mul_nonneg; [done | discriminate].
  - unfold mul. apply (fl64_le _ 100); [lia|]. change (inject_Z 100) with 100. lra.
Qed.

Lemma score_defined (totalPages : nat) :
  totalPages ≠ 0%nat → Number.eqb (of_nat totalPages) 0 = false.
Proof.
  intros Hp. apply not_true_is_false. intros E. apply Qeq_bool_iff in E.
  pose proof (of_nat_pos totalPages Hp) as Hpos. rewrite E in Hpos. discriminate.
Qed.

Lemma score_range (errorsCount warningsCount totalPages : nat) :
  (0 <= calculateSiteHealthScore (of_nat errorsCount) (of_nat warningsCount)
          (of_nat totalPages) <= 100)%Z.
Proof.
  unfold calculateSiteHealthScore, CHECKS_PER_PAGE.
  destruct (Nat.eq_dec totalPages 0%nat) as [-> | Hp].
  - change (Number.eqb (of_nat 0%nat) 0) with true. cbn iota. lia.
  - rewrite score_defined by exact Hp. cbn zeta.
    apply rounded_score_range.
    apply mul_nonneg; [|discriminate].
    apply div_nonneg.
    + apply add_nonneg; apply mul_nonneg; try apply of_nat_nonneg; discriminate.
    + apply mul_nonneg; [apply of_nat_nonneg | discriminate].
Qed.

(** [emitProgress] reports a percentage from 0 to 100 whenever the pages
    crawled are no more than the pages found. *)
Theorem emitProgress_percent_range (status : ProgressStatus) (crawled found : nat)
    (currentUrl : string) :
  (crawled <= found)%nat →
  (0 <= percentComplete (Crawler.emitProgress status crawled found currentUrl) <= 100)%Z.
Proof.
  intros Hle. unfold Crawler.emitProgress. cbn [percentComplete].
  destruct (0 <? found)%nat eqn:E; [|lia]. apply Nat.ltb_lt in E.
  apply percent_range.
  - apply of_nat_nonneg.
  - apply of_nat_pos. lia.
  - by apply of_nat_mono.
Qed.

(** The percentage that [emitProgress] reports does not fall when more
    pages are crawled of the same number found. *)
Theorem emitProgress_percent_monotone (status status' : ProgressStatus)
    (crawled crawled' found : nat) (currentUrl currentUrl' : string) :
  (crawled <= crawled')%nat →
  (percentComplete (Crawler.emitProgress status crawled found currentUrl)
   <= percentComplete (Crawler.emitProgress status' crawled' found currentUrl'))%Z.
Proof.
  intros Hle. unfold Crawler.emitProgress. cbn [percentComplete].
  destruct (0 <? found)%nat eqn:E; [|lia]. apply Nat.ltb_lt in E.
  apply Math_round_mono, mul_mono_l; [discriminate|].
  apply div_mono_l; [apply of_nat_pos; lia | by apply of_nat_mono].
Qed.

(** Every progress event of a crawl carries a percentage from 0 to 100.
    The event at the end of the crawl carries 100, but for a crawl
    without any result, which is reported complete at 0 percent. *)
Theorem crawl_progress_percent (st : Crawler.State) (url : string) :
  (0 <= percentComplete (Crawler.crawlPage_progress st url) <= 100)%Z ∧
  percentComplete (Crawler.crawl_progress st)
  = match Crawler.results st with [] => 0%Z | _ :: _ => 100%Z end.
Proof.
  split.
  - unfold Crawler.crawlPage_progress, Crawler.emitProgress. cbn [percentComplete].
    destruct (0 <? _)%nat eqn:E; [|lia]. apply Nat.ltb_lt in E.
    apply percent_range; [apply of_nat_nonneg | apply of_nat_pos; lia |].
    apply of_nat_mono. lia.
  - unfold Crawler.crawl_progress, Crawler.emitProgress. cbn [percentComplete].
    destruct (Crawler.results st) as [|r rs]; [reflexivity|].
    change (0 <? length (r :: rs))%nat with true. cbn iota.
    set (n := of_nat (length (r :: rs))).
    assert (0 < n) as Hn by (apply of_nat_pos; discriminate).
    unfold div. rewrite (fl64_compat (n / n) 1).
    + reflexivity.
    + field. intros E. rewrite E in Hn. by apply Qlt_irrefl in Hn.
Qed.

(** The health score does not rise with more errors or more warnings, and
    does not fall with more pages. *)
Theorem site_health_score_monotone (errors errors' warnings warnings' pages pages' : nat) :
  (errors <= errors')%nat → (warnings <= warnings')%nat →
  (pages' <= pages)%nat → pages' ≠ 0%nat →
  (calculateSiteHealthScore (of_nat errors') (of_nat warnings') (of_nat pages')
   <= calculateSiteHealthScore (of_nat errors) (of_nat warnings) (of_nat pages))%Z.
Proof.
  intros He Hw Hp Hp0. unfold calculateSiteHealthScore, CHECKS_PER_PAGE.
  rewrite !score_defined by lia. cbn zeta.
  apply Math_round_mono, Math_max_mono, sub_anti_r, mul_mono_l; [discriminate|].
  apply Qle_trans with
    (div (add (mul (of_nat errors) 10) (mul (of_nat warnings) 2)) (mul (of_nat pages') 16)).
  - apply div_anti_r.
    + apply add_nonneg; apply mul_nonneg; try apply of_nat_nonneg; discriminate.
    + unfold mul. apply fl64_pos.
      pose proof (of_nat_pos pages' Hp0). lra.
    + apply mul_mono_l; [discriminate | by apply of_nat_mono].
  - apply div_mono_l.
    + unfold mul. apply fl64_pos. pose proof (of_nat_pos pages' Hp0). lra.
    + apply add_mono; (apply mul_mono_l; [discriminate | by apply of_nat_mono]).
Qed.

End NumberOrder.

(** ** The theorems at the examples *)

(** The group of [missing_og_tags] over the three example pages counts
    the two pages that lack the tags. *)
Lemma groupIssues_group_spec_witness :
  Cases.og_group ∈ errors (groupIssues Cases.three_pages)
                   ++ warnings (groupIssues Cases.three_pages) ∧
  group_count Cases.og_group
  = length (filter (λ i, issue_code i = "missing_og_tags") (Cases.three_pages ≫= issues)) ∧
  ("https://shop.example/b" ∈ group_urls Cases.og_group ↔
   ∃ page i, page ∈ Cases.three_pages ∧ url page = "https://shop.example/b" ∧
             i ∈ issues page ∧ issue_code i = "missing_og_tags").
Proof.
  assert (Cases.og_group ∈ errors (groupIssues Cases.three_pages)
                           ++ warnings (groupIssues Cases.three_pages)) as Hin.
  { apply list_elem_of_In. vm_compute. do 4 right. left. reflexivity. }
  split; [exact Hin|].
  destruct (groupIssues_group_spec Cases.three_pages Cases.og_group Hin)
    as (_ & _ & Hcount & _ & Hurls).
  split; [exact Hcount | apply Hurls].
Defined.

(** A link to a page that could not be fetched is not reported. *)
Lemma checkBrokenLinks_without_failures_witness :
  Forall (λ r, ¬ (400 <= CrawlResult.statusCode r < 600)%Z) Cases.crawl_with_timeout ∧
  LinkChecks.checkBrokenLinks [Cases.home_page] Cases.crawl_with_timeout = [Cases.home_page].
Proof.
  assert (Forall (λ r, ¬ (400 <= CrawlResult.statusCode r < 600)%Z)
            Cases.crawl_with_timeout) as Hrs.
  { repeat constructor; cbn; lia. }
  split; [exact Hrs|].
  apply (checkBrokenLinks_without_failures [Cases.home_page] Cases.crawl_with_timeout Hrs).
Defined.

(** The home page links to [/a], which answered [404]. *)
Lemma broken_internal_link_is_reported_witness :
  ∃ page',
    LinkChecks.checkBrokenLinks [Cases.home_page] Cases.crawl_with_404 !! 0%nat = Some page' ∧
    url page' = "https://shop.example/" ∧
    LinkChecks.has_issue (issues page') ERROR_CODES.BROKEN_INTERNAL_LINK = true.
Proof.
  apply (broken_internal_link_is_reported [Cases.home_page] Cases.crawl_with_404 0
           Cases.home_page "https://shop.example/a"
           (Cases.not_found "https://shop.example/a")).
  - reflexivity.
  - apply list_elem_of_In. vm_compute. left. reflexivity.
  - vm_compute. reflexivity.
  - cbn. lia.
Defined.

(** Both partner sites answer. *)
Lemma checkExternalLinks_all_reachable_witness :
  LinkChecks.checkExternalLinks Cases.all_up [Cases.partners_page] 5000
  = [Cases.partners_page].
Proof.
  apply (checkExternalLinks_all_reachable Cases.all_up [Cases.partners_page] 5000).
  intros link _. exists 200%Z. split; [reflexivity | lia].
Defined.

(** Three pages crawled of eight found, and five of eight. *)
Lemma emitProgress_percent_range_witness :
  (0 <= percentComplete (Crawler.emitProgress crawling 3 8 "https://shop.example/a") <= 100)%Z.
Proof. apply (emitProgress_percent_range crawling 3 8 "https://shop.example/a"). lia. Defined.

Lemma emitProgress_percent_monotone_witness :
  (percentComplete (Crawler.emitProgress crawling 3 8 "https://shop.example/a")
   <= percentComplete (Crawler.emitProgress crawling 5 8 "https://shop.example/b"))%Z.
Proof.
  apply (emitProgress_percent_monotone crawling crawling 3 5 8
           "https://shop.example/a" "https://shop.example/b").
  lia.
Defined.

(** One error more and five pages fewer. *)
Lemma site_health_score_monotone_witness :
  (calculateSiteHealthScore (Number.of_nat 22) (Number.of_nat 4) (Number.of_nat 20)
   <= calculateSiteHealthScore (Number.of_nat 21) (Number.of_nat 4) (Number.of_nat 25))%Z.
Proof. apply (site_health_score_monotone 21 22 4 4 25 20); lia. Defined.

(** ** The issues of one page *)

Section IssueCodeProperties.

Context `{UrlApi} `{Cheerio}.

Lemma codes_push_if (c : bool) (code : string) (l : list Issue) :
  codes (push_if c code l) = codes l ++ (if c then [code] else []).
Proof.
  unfold push_if, codes. destruct c; [|by rewrite app_nil_r].
  by rewrite fmap_app.
Qed.

Lemma created_push_if (c : bool) (code : string) (l : list Issue) :
  l = createIssue <$> codes l →
  push_if c code l = createIssue <$> codes (push_if c code l).
Proof.
  intros Hl. rewrite codes_push_if. unfold push_if.
  destruct c; [|by rewrite app_nil_r]. rewrite fmap_app. by rewrite <- Hl.
Qed.

Lemma check_title_codes (t : string) (l : list Issue) :
  ∃ T, codes (check_title t l) = codes l ++ T ∧
       T ∈ [ [ERROR_CODES.MISSING_TITLE]; []; [WARNING_CODES.TITLE_TOO_LONG];
             [WARNING_CODES.TITLE_TOO_SHORT] ].
Proof.
  unfold check_title. destruct (negb (JS.truthy t)).
  - rewrite codes_push_if. eexists. split; [reflexivity|]. apply list_elem_of_here.
  - cbn zeta. rewrite !codes_push_if, <- app_assoc.
    destruct (60 <? JS.length t)%nat eqn:E1, (JS.length t <? 30)%nat eqn:E2;
      (eexists; split; [reflexivity|]); cbn [app].
    + apply Nat.ltb_lt in E1, E2. lia.
    + do 2 apply list_elem_of_further. apply list_elem_of_here.
    + do 3 apply list_elem_of_further. apply list_elem_of_here.
    + apply list_elem_of_further, list_elem_of_here.
Qed.

Lemma check_metaDescription_codes (d : option string) (l : list Issue) :
  ∃ M, codes (check_metaDescription d l) = codes l ++ M ∧
       M ∈ [ [WARNING_CODES.MISSING_META_DESCRIPTION]; [];
             [WARNING_CODES.META_DESCRIPTION_TOO_LONG];
             [WARNING_CODES.META_DESCRIPTION_TOO_SHORT] ].
Proof.
  unfold check_metaDescription. destruct d as [d|].
  - cbn zeta. rewrite !codes_push_if, <- app_assoc.
    destruct (160 <? JS.length d)%nat eqn:E1, (JS.length d <? 70)%nat eqn:E2;
      (eexists; split; [reflexivity|]); cbn [app].
    + apply Nat.ltb_lt in E1, E2. lia.
    + do 2 apply list_elem_of_further. apply list_elem_of_here.
    + do 3 apply list_elem_of_further. apply list_elem_of_here.
    + apply list_elem_of_further, list_elem_of_here.
  - rewrite codes_push_if. eexists. split; [reflexivity|]. apply list_elem_of_here.
Qed.

Lemma check_h1_codes (n : nat) (l : list Issue) :
  ∃ H1, codes (check_h1 n l) = codes l ++ H1 ∧
        H1 ∈ [ [WARNING_CODES.MISSING_H1]; []; [WARNING_CODES.MULTIPLE_H1] ].
Proof.
  unfold check_h1. destruct (n =? 0)%nat.
  - rewrite codes_push_if. eexists. split; [reflexivity|]. apply list_elem_of_here.
  - rewrite codes_push_if. destruct (1 <? n)%nat; (eexists; split; [reflexivity|]).
    + do 2 apply list_elem_of_further. apply list_elem_of_here.
    + apply list_elem_of_further, list_elem_of_here.
Qed.

Lemma check_title_created (t : string) (l : list Issue) :
  l = createIssue <$> codes l → check_title t l = createIssue <$> codes (check_title t l).
Proof.
  intros Hl. unfold check_title. destruct (negb (JS.truthy t)); cbn zeta;
    repeat apply created_push_if; exact Hl.
Qed.

Lemma check_metaDescription_created (d : option string) (l : list Issue) :
  l = createIssue <$> codes l →
  check_metaDescription d l = createIssue <$> codes (check_metaDescription d l).
Proof.
  intros Hl. unfold check_metaDescription. destruct d; cbn zeta;
    repeat apply created_push_if; exact Hl.
Qed.

Lemma check_h1_created (n : nat) (l : list Issue) :
  l = createIssue <$> codes l → check_h1 n l = createIssue <$> codes (check_h1 n l).
Proof.
  intros Hl. unfold check_h1. destruct (n =? 0)%nat; apply created_push_if; exact Hl.
Qed.

Lemma optional_sublist (c : bool) (code : string) :
  (if c then [code] else []) `sublist_of` [code].
Proof. destruct c; [done | apply sublist_nil_l]. Qed.

Lemma analyzeMarkup_codes (result : CrawlResult.t) (baseUrl : string) (dom : Dom)
    (l : list Issue) :
  ∃ T M H1 R,
    codes (issues (analyzeMarkup result baseUrl dom l)) = codes l ++ T ++ M ++ H1 ++ R ∧
    T ∈ [ [ERROR_CODES.MISSING_TITLE]; []; [WARNING_CODES.TITLE_TOO_LONG];
          [WARNING_CODES.TITLE_TOO_SHORT] ] ∧
    M ∈ [ [WARNING_CODES.MISSING_META_DESCRIPTION]; [];
          [WARNING_CODES.META_DESCRIPTION_TOO_LONG];
          [WARNING_CODES.META_DESCRIPTION_TOO_SHORT] ] ∧
    H1 ∈ [ [WARNING_CODES.MISSING_H1]; []; [WARNING_CODES.MULTIPLE_H1] ] ∧
    R `sublist_of`
      [ WARNING_CODES.MISSING_CANONICAL; WARNING_CODES.MISSING_VIEWPORT;
        WARNING_CODES.MISSING_ROBOTS_META; WARNING_CODES.MISSING_OG_TAGS;
        WARNING_CODES.MISSING_ALT_TEXT; WARNING_CODES.LOW_TEXT_HTML_RATIO;
        WARNING_CODES.LARGE_PAGE_SIZE; WARNING_CODES.SLOW_RESPONSE ].
Proof.
  unfold analyzeMarkup. cbn [issues]. rewrite !codes_push_if.
  match goal with |- context [codes (check_h1 ?n ?l')] =>
    destruct (check_h1_codes n l') as (H1 & -> & HH1) end.
  match goal with |- context [codes (check_metaDescription ?d ?l')] =>
    destruct (check_metaDescription_codes d l') as (M & -> & HM) end.
  match goal with |- context [codes (check_title ?t ?l')] =>
    destruct (check_title_codes t l') as (T & -> & HT) end.
  rewrite <- !app_assoc.
  eexists T, M, H1, _. split; [reflexivity|]. do 3 (split; [assumption|]).
  repeat apply (sublist_app _ [_]); apply optional_sublist.
Qed.

(** The codes of a page are those of the status and the redirects, then
    one alternative for the title, one for the description, one for the
    headings, then those of the other checks. *)
Lemma analyzePage_codes (result : CrawlResult.t) (baseUrl : string)
    (config : AnalyzerConfig) :
  ∃ S T M H1 R,
    codes (issues (analyzePage result baseUrl config)) = S ++ T ++ M ++ H1 ++ R ∧
    S `sublist_of` [ERROR_CODES.SERVER_ERROR; ERROR_CODES.REDIRECT_CHAIN] ∧
    T ∈ [ [ERROR_CODES.MISSING_TITLE]; []; [WARNING_CODES.TITLE_TOO_LONG];
          [WARNING_CODES.TITLE_TOO_SHORT] ] ∧
    M ∈ [ [WARNING_CODES.MISSING_META_DESCRIPTION]; [];
          [WARNING_CODES.META_DESCRIPTION_TOO_LONG];
          [WARNING_CODES.META_DESCRIPTION_TOO_SHORT] ] ∧
    H1 ∈ [ [WARNING_CODES.MISSING_H1]; []; [WARNING_CODES.MULTIPLE_H1] ] ∧
    R `sublist_of`
      [ WARNING_CODES.MISSING_CANONICAL; WARNING_CODES.MISSING_VIEWPORT;
        WARNING_CODES.MISSING_ROBOTS_META; WARNING_CODES.MISSING_OG_TAGS;
        WARNING_CODES.MISSING_ALT_TEXT; WARNING_CODES.LOW_TEXT_HTML_RATIO;
        WARNING_CODES.LARGE_PAGE_SIZE; WARNING_CODES.SLOW_RESPONSE ].
Proof.
  set (start := push_if (3 <=? length (CrawlResult.redirectChain result))%nat
                  ERROR_CODES.REDIRECT_CHAIN
                  (push_if (500 <=? CrawlResult.statusCode result)%Z
                     ERROR_CODES.SERVER_ERROR [])).
  assert (codes start `sublist_of` [ERROR_CODES.SERVER_ERROR; ERROR_CODES.REDIRECT_CHAIN])
    as Hstart.
  { unfold start. rewrite !codes_push_if. cbn [codes fmap list_fmap app].
    apply (sublist_app _ [_] _ [_]); apply optional_sublist. }
  destruct (String.eqb_spec (CrawlResult.html result) "") as [E | E].
  - rewrite (analyzePage_without_html _ _ _ E). cbn [issues set_issues]. fold start.
    exists (codes start), [], [], [], []. rewrite !app_nil_r.
    split; [reflexivity|]. split; [exact Hstart|].
    split; [apply list_elem_of_further, list_elem_of_here|].
    split; [apply list_elem_of_further, list_elem_of_here|].
    split; [apply list_elem_of_further, list_elem_of_here | apply sublist_nil_l].
  - rewrite (analyzePage_with_html _ _ _ E). fold start.
    destruct (analyzeMarkup_codes result baseUrl (cheerio_load (CrawlResult.html result))
                start) as (T & M & H1 & R & -> & HT & HM & HH1 & HR).
    by exists (codes start), T, M, H1, R.
Qed.

Lemma analysis_order_segments (S T M H1 R : list string) :
  S `sublist_of` [ERROR_CODES.SERVER_ERROR; ERROR_CODES.REDIRECT_CHAIN] →
  T ∈ [ [ERROR_CODES.MISSING_TITLE]; []; [WARNING_CODES.TITLE_TOO_LONG];
        [WARNING_CODES.TITLE_TOO_SHORT] ] →
  M ∈ [ [WARNING_CODES.MISSING_META_DESCRIPTION]; [];
        [WARNING_CODES.META_DESCRIPTION_TOO_LONG];
        [WARNING_CODES.META_DESCRIPTION_TOO_SHORT] ] →
  H1 ∈ [ [WARNING_CODES.MISSING_H1]; []; [WARNING_CODES.MULTIPLE_H1] ] →
  R `sublist_of`
    [ WARNING_CODES.MISSING_CANONICAL; WARNING_CODES.MISSING_VIEWPORT;
      WARNING_CODES.MISSING_ROBOTS_META; WARNING_CODES.MISSING_OG_TAGS;
      WARNING_CODES.MISSING_ALT_TEXT; WARNING_CODES.LOW_TEXT_HTML_RATIO;
      WARNING_CODES.LARGE_PAGE_SIZE; WARNING_CODES.SLOW_RESPONSE ] →
  S ++ T ++ M ++ H1 ++ R `sublist_of` analysis_order.
Proof.
  intros HS HT HM HH1 HR.
  change analysis_order with
    ([ERROR_CODES.SERVER_ERROR; ERROR_CODES.REDIRECT_CHAIN]
     ++ [ERROR_CODES.MISSING_TITLE; WARNING_CODES.TITLE_TOO_LONG;
         WARNING_CODES.TITLE_TOO_SHORT]
     ++ [WARNING_CODES.MISSING_META_DESCRIPTION;
         WARNING_CODES.META_DESCRIPTION_TOO_LONG;
         WARNING_CODES.META_DESCRIPTION_TOO_SHORT]
     ++ [WARNING_CODES.MISSING_H1; WARNING_CODES.MULTIPLE_H1]
     ++ [ WARNING_CODES.MISSING_CANONICAL; WARNING_CODES.MISSING_VIEWPORT;
          WARNING_CODES.MISSING_ROBOTS_META; WARNING_CODES.MISSING_OG_TAGS;
          WARNING_CODES.MISSING_ALT_TEXT; WARNING_CODES.LOW_TEXT_HTML_RATIO;
          WARNING_CODES.LARGE_PAGE_SIZE; WARNING_CODES.SLOW_RESPONSE ]).
  apply sublist_app; [exact HS|]. apply sublist_app; [|apply sublist_app; [|apply sublist_app; [|exact HR]]].
  - rewrite !elem_of_cons, elem_of_nil in HT.
    destruct HT as [-> | [-> | [-> | [-> | []]]]]; one_of_the_lists.
  - rewrite !elem_of_cons, elem_of_nil in HM.
    destruct HM as [-> | [-> | [-> | [-> | []]]]]; one_of_the_lists.
  - rewrite !elem_of_cons, elem_of_nil in HH1.
    destruct HH1 as [-> | [-> | [-> | []]]]; one_of_the_lists.
Qed.

Lemma analyzePage_created (result : CrawlResult.t) (baseUrl : string)
    (config : AnalyzerConfig) :
  issues (analyzePage result baseUrl config)
  = createIssue <$> codes (issues (analyzePage result baseUrl config)).
Proof.
  destruct (String.eqb_spec (CrawlResult.html result) "") as [E | E].
  - rewrite (analyzePage_without_html _ _ _ E). cbn [issues set_issues].
    by repeat apply created_push_if.
  - rewrite (analyzePage_with_html _ _ _ E). unfold analyzeMarkup. cbn [issues].
    repeat apply created_push_if.
    apply check_h1_created, check_metaDescription_created, check_title_created.
    by repeat apply created_push_if.
Qed.

Lemma analysis_order_nodup : NoDup analysis_order.
Proof. apply (bool_decide_unpack _). by vm_compute. Qed.

Lemma analyzePage_in_order (result : CrawlResult.t) (baseUrl : string)
    (config : AnalyzerConfig) :
  codes (issues (analyzePage result baseUrl config)) `sublist_of` analysis_order.
Proof.
  destruct (analyzePage_codes result baseUrl config)
    as (S & T & M & H1 & R & -> & HS & HT & HM & HH1 & HR).
  by apply analysis_order_segments.
Qed.

(** The issues that [analyzePage] gives a page are made by [createIssue]
    from codes that follow one another in the order of the checks, each
    at most once; [redirect_loop], [orphan_page] and the two codes of
    broken links are never among them. *)
Theorem analyzePage_issue_codes (result : CrawlResult.t) (baseUrl : string)
    (config : AnalyzerConfig) :
  let page := analyzePage result baseUrl config in
  issues page = createIssue <$> codes (issues page) ∧
  codes (issues page) `sublist_of` analysis_order ∧
  NoDup (codes (issues page)) ∧
  Forall (λ code, code ∉ codes (issues page))
    [ ERROR_CODES.REDIRECT_LOOP; WARNING_CODES.ORPHAN_PAGE;
      ERROR_CODES.BROKEN_INTERNAL_LINK; ERROR_CODES.BROKEN_EXTERNAL_LINK ].
Proof.
  cbn zeta. pose proof (analyzePage_in_order result baseUrl config) as Hsub.
  split; [apply analyzePage_created|]. split; [exact Hsub|].
  split; [eapply sublist_NoDup; [apply analysis_order_nodup | exact Hsub]|].
  assert (Forall (λ code, code ∉ analysis_order)
            [ ERROR_CODES.REDIRECT_LOOP; WARNING_CODES.ORPHAN_PAGE;
              ERROR_CODES.BROKEN_INTERNAL_LINK; ERROR_CODES.BROKEN_EXTERNAL_LINK ])
    as Hout by (apply (bool_decide_unpack _); by vm_compute).
  eapply Forall_impl; [exact Hout|]. cbn beta. intros code Hcode Hin. apply Hcode.
  by eapply elem_of_sublist.
Qed.

Lemma exclusive_middle (S Mid R bigS bigR : list string) :
  S `sublist_of` bigS → R `sublist_of` bigR →
  Forall (λ p, ((fst p ∉ bigS) ∧ (fst p ∉ bigR)) ∧ ((snd p ∉ bigS) ∧ (snd p ∉ bigR)))
    exclusive_codes →
  exclusive Mid → exclusive (S ++ Mid ++ R).
Proof.
  unfold exclusive. rewrite !Forall_forall. intros HS HR Hout Hmid p Hp [Hfst Hsnd].
  destruct (Hout p Hp) as [[Hf1 Hf2] [Hs1 Hs2]]. apply (Hmid p Hp). split.
  - rewrite !elem_of_app in Hfst. destruct Hfst as [Hin | [Hin | Hin]]; [|done|].
    + destruct Hf1. by eapply elem_of_sublist.
    + destruct Hf2. by eapply elem_of_sublist.
  - rewrite !elem_of_app in Hsnd. destruct Hsnd as [Hin | [Hin | Hin]]; [|done|].
    + destruct Hs1. by eapply elem_of_sublist.
    + destruct Hs2. by eapply elem_of_sublist.
Qed.

(** No page is given two issues of checks that exclude one another: not
    a missing title and a title too long or too short, not a title too
    long and too short, the same for the meta description, and not a
    missing H1 and several H1. *)
Theorem analyzePage_exclusive_issues (result : CrawlResult.t) (baseUrl : string)
    (config : AnalyzerConfig) :
  exclusive (codes (issues (analyzePage result baseUrl config))).
Proof.
  destruct (analyzePage_codes result baseUrl config)
    as (S & T & M & H1 & R & -> & HS & HT & HM & HH1 & HR).
  replace (S ++ T ++ M ++ H1 ++ R) with (S ++ (T ++ M ++ H1) ++ R)
    by (by rewrite <- !app_assoc).
  eapply exclusive_middle; [exact HS | exact HR | |].
  - apply (bool_decide_unpack _). by vm_compute.
  - clear HS HR.
    rewrite !elem_of_cons, elem_of_nil in HT.
    rewrite !elem_of_cons, elem_of_nil in HM.
    rewrite !elem_of_cons, elem_of_nil in HH1.
    destruct HT as [-> | [-> | [-> | [-> | []]]]];
      destruct HM as [-> | [-> | [-> | [-> | []]]]];
      destruct HH1 as [-> | [-> | [-> | []]]];
      apply (bool_decide_unpack _); by vm_compute.
Qed.

End IssueCodeProperties.

(** ** The results of an audit *)

Section AuditProperties.

Context `{UrlApi} `{Cheerio}.

Variable head : string → Z → option Z.

Lemma known_createIssue (code : string) :
  is_Some (severity code) → known_issue (createIssue code).
Proof. intros Hc. split; [reflexivity | exact Hc]. Qed.

Lemma taxonomy_has_the_codes :
  Forall (λ code, is_Some (severity code))
    (analysis_order ++ [ WARNING_CODES.ORPHAN_PAGE; ERROR_CODES.BROKEN_INTERNAL_LINK;
                         ERROR_CODES.BROKEN_EXTERNAL_LINK ]).
Proof. apply (bool_decide_unpack _). by vm_compute. Qed.

Lemma known_code (code : string) :
  code ∈ analysis_order ++ [ WARNING_CODES.ORPHAN_PAGE; ERROR_CODES.BROKEN_INTERNAL_LINK;
                             ERROR_CODES.BROKEN_EXTERNAL_LINK ] →
  known_issue (createIssue code).
Proof.
  intros Hin. apply known_createIssue.
  pose proof taxonomy_has_the_codes as Hall. rewrite Forall_forall in Hall. by apply Hall.
Qed.

Lemma known_issue_type (i : Issue) (t : IssueType) :
  known_issue i → severity (issue_code i) = Some t ↔ issue_type i = t.
Proof.
  intros [Hi [t' Ht']]. rewrite Hi at 2. rewrite Ht'. unfold severity in Ht'.
  unfold createIssue. cbn [issue_type].
  destruct (ISSUE_DEFINITIONS !! issue_code i) as [d|]; [|discriminate].
  injection Ht' as <-. cbn [from_option]. split; [intros [= <-] | intros <-]; reflexivity.
Qed.

Lemma analyzePage_known (result : CrawlResult.t) (baseUrl : string)
    (config : AnalyzerConfig) :
  Forall known_issue (issues (analyzePage result baseUrl config)).
Proof.
  rewrite analyzePage_created. apply Forall_fmap, Forall_forall. intros code Hin.
  cbn [compose]. apply known_code, elem_of_app. left.
  eapply elem_of_sublist; [exact Hin | apply analyzePage_in_order].
Qed.

Lemma known_append (code : string) (c : bool) (page : PageData) :
  code ∈ [ WARNING_CODES.ORPHAN_PAGE; ERROR_CODES.BROKEN_INTERNAL_LINK;
           ERROR_CODES.BROKEN_EXTERNAL_LINK ] →
  Forall known_issue (issues page) →
  Forall known_issue
    (issues (set_issues page (if c then issues page ++ [createIssue code] else issues page))).
Proof.
  intros Hcode Hp. cbn [issues set_issues]. destruct c; [|exact Hp].
  apply Forall_app. split; [exact Hp|]. apply Forall_singleton, known_code, elem_of_app.
  by right.
Qed.

Lemma analyzed_pages_known (startUrl : string) (crawlResults : list CrawlResult.t) :
  Forall (λ page, Forall known_issue (issues page))
    (Audit.analyzed_pages head startUrl crawlResults).
Proof.
  unfold Audit.analyzed_pages. cbn zeta.
  rewrite checkExternalLinks_fold, checkBrokenLinks_fold.
  unfold analyzeCrawlResults, detectOrphanPages. cbn zeta.
  rewrite !Forall_fmap. apply Forall_forall. intros result _. cbn [compose].
  match goal with |- context [existsb ?f (externalLinks ?p)] =>
    generalize (existsb f (externalLinks p)) end.
  intros c2.
  match goal with |- context [existsb ?f (internalLinks ?p)] =>
    generalize (existsb f (internalLinks p)) end.
  intros c1.
  match goal with |- context [orphan_check ?s _ _] => generalize s end.
  intros s.
  apply (known_append ERROR_CODES.BROKEN_EXTERNAL_LINK (_ && c2));
    [do 2 apply list_elem_of_further; apply list_elem_of_here|].
  apply (known_append ERROR_CODES.BROKEN_INTERNAL_LINK (_ && c1));
    [apply list_elem_of_further, list_elem_of_here|].
  destruct (orphan_check_cases s startUrl (analyzePage result startUrl DEFAULT_CONFIG))
    as [-> | ->].
  - apply analyzePage_known.
  - apply (known_append WARNING_CODES.ORPHAN_PAGE true); [apply list_elem_of_here|].
    apply analyzePage_known.
Qed.

Lemma analyzePage_url (result : CrawlResult.t) (baseUrl : string) (config : AnalyzerConfig) :
  url (analyzePage result baseUrl config) = CrawlResult.url result.
Proof. unfold analyzePage. by repeat case_match. Qed.

Lemma analyzed_pages_urls (startUrl : string) (crawlResults : list CrawlResult.t) :
  url <$> Audit.analyzed_pages head startUrl crawlResults
  = CrawlResult.url <$> crawlResults.
Proof.
  unfold Audit.analyzed_pages. cbn zeta.
  rewrite checkExternalLinks_fold, checkBrokenLinks_fold.
  unfold analyzeCrawlResults, detectOrphanPages. cbn zeta.
  rewrite <- !list_fmap_compose. apply list_fmap_ext. intros _ result _.
  cbn [compose url set_issues].
  match goal with |- context [orphan_check ?s _ _] => generalize s end.
  intros s.
  destruct (orphan_check_cases s startUrl (analyzePage result startUrl DEFAULT_CONFIG))
    as [-> | ->]; cbn [url set_issues]; apply analyzePage_url.
Qed.

Lemma sum_counts_sum (groups : list IssueGroup) :
  Audit.sum_counts groups = sum_list_with group_count groups.
Proof.
  unfold Audit.sum_counts.
  assert (∀ a, foldl (λ sum e, sum + group_count e)%nat a groups
               = (a + sum_list_with group_count groups)%nat) as Hf.
  { induction groups as [|g l IH]; intros a; cbn [foldl sum_list_with]; [lia|].
    rewrite IH. lia. }
  by rewrite Hf.
Qed.

Lemma filter_ext_Forall {A : Type} (P Q : A → Prop) `{!∀ x, Decision (P x)}
    `{!∀ x, Decision (Q x)} (l : list A) :
  Forall (λ x, P x ↔ Q x) l → filter P l = filter Q l.
Proof.
  induction 1 as [|x l Hx _ IH]; [done|]. rewrite !filter_cons, IH.
  destruct (decide (P x)) as [HP | HP], (decide (Q x)) as [HQ | HQ]; tauto.
Qed.

Lemma known_issues_by_type (t : IssueType) (pages : list PageData) :
  Forall (λ page, Forall known_issue (issues page)) pages →
  issues_of_type t pages = filter (λ i, issue_type i = t) (all_issues pages).
Proof.
  intros Hk. unfold issues_of_type, all_issues. apply filter_ext_Forall.
  apply Forall_forall. intros i Hi. apply list_elem_of_bind in Hi as (page & Hi & Hp).
  rewrite Forall_forall in Hk. specialize (Hk page Hp). rewrite Forall_forall in Hk.
  apply known_issue_type. by apply Hk.
Qed.

Lemma issues_by_type_total (l : list Issue) :
  (length (filter (λ i, issue_type i = error) l)
   + length (filter (λ i, issue_type i = warning) l) = length l)%nat.
Proof.
  induction l as [|i l IH]; [done|]. rewrite !filter_cons.
  destruct (issue_type i); cbn [length];
    repeat (case_decide; try congruence); cbn [length]; lia.
Qed.

(** The results of an audit over the crawl results: the pages are those
    of the results, in their order; every issue of every page is counted,
    the errors in [errorsCount] and the warnings in [warningsCount]; the
    score is from 0 to 100, and 0 for an empty crawl. *)
Theorem runAudit_summary (startUrl : string) (crawlResults : list CrawlResult.t) :
  let r := Audit.runAudit head startUrl crawlResults in
  url <$> Audit.pages r = CrawlResult.url <$> crawlResults ∧
  Audit.totalPages r = length crawlResults ∧
  Audit.pagesCrawled r = length crawlResults ∧
  total (Audit.crawledPages r) = length crawlResults ∧
  Audit.errorsCount r
  = length (filter (λ i, issue_type i = error) (all_issues (Audit.pages r))) ∧
  Audit.warningsCount r
  = length (filter (λ i, issue_type i = warning) (all_issues (Audit.pages r))) ∧
  (Audit.errorsCount r + Audit.warningsCount r)%nat = length (all_issues (Audit.pages r)) ∧
  (0 <= Audit.siteHealthScore r <= 100)%Z ∧
  (crawlResults = [] → Audit.siteHealthScore r = 0%Z).
Proof.
  cbn zeta. unfold Audit.runAudit. cbn zeta.
  cbn [Audit.pages Audit.totalPages Audit.pagesCrawled Audit.crawledPages
       Audit.errorsCount Audit.warningsCount Audit.siteHealthScore].
  pose proof (analyzed_pages_urls startUrl crawlResults) as Hurls.
  pose proof (analyzed_pages_known startUrl crawlResults) as Hknown.
  set (pages := Audit.analyzed_pages head startUrl crawlResults) in *.
  assert (length pages = length crawlResults) as Hlen.
  { rewrite <- (length_fmap url pages), Hurls. apply length_fmap. }
  destruct (groupIssues_counts pages) as [He Hw].
  unfold Audit.error_groups, Audit.warning_groups.
  rewrite !sum_counts_sum, He, Hw, !(known_issues_by_type _ pages Hknown).
  split; [exact Hurls|]. split; [exact Hlen|]. split; [exact Hlen|].
  split.
  { unfold calculateCrawledPagesBreakdown.
    destruct (breakdown_fold pages
                {| total := length pages; healthy := 0; withIssues := 0;
                   redirects := 0; broken := 0 |}) as (Ht & _).
    cbn zeta in Ht. rewrite Ht. exact Hlen. }
  split; [reflexivity|]. split; [reflexivity|].
  split; [apply issues_by_type_total|].
  split; [apply score_range|].
  intros ->. destruct pages; [reflexivity | discriminate].
Qed.

End AuditProperties.

(** ** Orphan pages *)

Section OrphanProperties.

Lemma add_link_elem_of (s : gset string) (link x : string) :
  x ∈ add_link s link ↔ x ∈ s ∨ added_for link x = true.
Proof.
  unfold add_link, added_for. cbn zeta.
  destruct (JS.endsWith link "/");
    rewrite !elem_of_union, !elem_of_singleton, orb_true_iff, !String.eqb_eq; tauto.
Qed.

Lemma fold_add_link_elem_of (links : list string) (s : gset string) (x : string) :
  x ∈ foldl add_link s links
  ↔ x ∈ s ∨ ∃ link, link ∈ links ∧ added_for link x = true.
Proof.
  revert s. induction links as [|link links IH]; intros s; cbn [foldl].
  - split; [by left|]. intros [? | (link & Hin & _)]; [done | by apply elem_of_nil in Hin].
  - rewrite IH, add_link_elem_of. split.
    + intros [[? | ?] | (l & Hin & Hl)]; [by left | right | right].
      * exists link. split; [apply list_elem_of_here | done].
      * exists l. split; [by apply list_elem_of_further | done].
    + intros [? | (l & Hin & Hl)]; [by left; left|].
      apply elem_of_cons in Hin as [-> | Hin]; [by left; right|].
      right. by exists l.
Qed.

Lemma fold_pages_elem_of (pages : list PageData) (s : gset string) (x : string) :
  x ∈ foldl (λ linkedPages page, foldl add_link linkedPages (internalLinks page)) s pages
  ↔ x ∈ s ∨ ∃ page link, page ∈ pages ∧ link ∈ internalLinks page ∧
                         added_for link x = true.
Proof.
  revert s. induction pages as [|page pages IH]; intros s; cbn [foldl].
  - split; [by left|].
    intros [? | (page & link & Hin & _)]; [done | by apply elem_of_nil in Hin].
  - rewrite IH, fold_add_link_elem_of. split.
    + intros [[? | (l & Hin & Hl)] | (p & l & Hp & Hin & Hl)]; [by left | right | right].
      * exists page, l. split; [apply list_elem_of_here | done].
      * exists p, l. split; [by apply list_elem_of_further | done].
    + intros [? | (p & l & Hp & Hin & Hl)]; [by left; left|].
      apply elem_of_cons in Hp as [-> | Hp]; [left; right; by exists l|].
      right. by exists p, l.
Qed.

Lemma linkedPages_elem_of (pages : list PageData) (baseUrl x : string) :
  x ∈ linkedPages_of pages baseUrl ↔ is_linked pages baseUrl x.
Proof.
  unfold linkedPages_of, is_linked. rewrite fold_pages_elem_of.
  rewrite !elem_of_union, !elem_of_singleton, elem_of_empty. tauto.
Qed.

Lemma has_linked (pages : list PageData) (baseUrl x : string) :
  has (linkedPages_of pages baseUrl) x = false ↔ ¬ is_linked pages baseUrl x.
Proof.
  unfold has. rewrite <- linkedPages_elem_of.
  destruct (bool_decide_reflect (x ∈ linkedPages_of pages baseUrl)); split; done.
Qed.

Lemma orphan_check_gains (pages : list PageData) (baseUrl : string) (page : PageData) :
  gains WARNING_CODES.ORPHAN_PAGE
    (¬ is_linked pages baseUrl (url page) ∧
     ¬ is_linked pages baseUrl (with_slash (url page)) ∧
     ¬ is_linked pages baseUrl (without_slash (url page)))
    page (orphan_check (linkedPages_of pages baseUrl) baseUrl page).
Proof.
  unfold orphan_check. cbn zeta. fold (with_slash (url page)) (without_slash (url page)).
  destruct (has _ (url page)) eqn:E1; cbn [negb andb].
  { split; [by rewrite set_issues_id|]. right. split; [|done].
    intros (Hn & _ & _). apply has_linked in Hn. congruence. }
  destruct (has _ (with_slash (url page))) eqn:E2; cbn [negb andb].
  { split; [by rewrite set_issues_id|]. right. split; [|done].
    intros (_ & Hn & _). apply has_linked in Hn. congruence. }
  destruct (has _ (without_slash (url page))) eqn:E3; cbn [negb andb].
  { split; [by rewrite set_issues_id|]. right. split; [|done].
    intros (_ & _ & Hn). apply has_linked in Hn. congruence. }
  apply has_linked in E1, E2, E3.
  destruct (String.eqb_spec (url page) baseUrl) as [E | _].
  { destruct E1. by left. }
  destruct (String.eqb_spec (url page) (baseUrl +:+ "/")) as [E | _].
  { destruct E1. right. by left. }
  cbn [negb andb]. split; [done|]. left. by split.
Qed.

(** [detectOrphanPages] returns the pages in their order, each one as it
    was but for its issues: a page gets one issue [orphan_page] at the
    end of its issues when neither its URL, nor its URL with a trailing
    slash, nor its URL without one is the base URL, the base URL with a
    slash, or an internal link of a page, taken as it is or with its
    trailing slash taken away or put on; every other page keeps its
    issues.  The test for the home page inside the loop never decides. *)
Theorem detectOrphanPages_spec (pages : list PageData) (baseUrl : string) :
  Forall2
    (λ page page',
       gains WARNING_CODES.ORPHAN_PAGE
         (¬ is_linked pages baseUrl (url page) ∧
          ¬ is_linked pages baseUrl (with_slash (url page)) ∧
          ¬ is_linked pages baseUrl (without_slash (url page)))
         page page')
    pages (detectOrphanPages pages baseUrl).
Proof.
  unfold detectOrphanPages. cbn zeta.
  apply (Forall2_fmap_diag _ (orphan_check (linkedPages_of pages baseUrl) baseUrl)).
  intros page. apply orphan_check_gains.
Qed.

(** A page that an internal link of some page names, be it a link of the
    page itself, is not an orphan. *)
Theorem linked_page_is_not_orphan (pages : list PageData) (baseUrl : string) (n : nat)
    (page linking : PageData) :
  pages !! n = Some page →
  linking ∈ pages →
  url page ∈ internalLinks linking →
  detectOrphanPages pages baseUrl !! n = Some page.
Proof.
  intros Hn Hq Hlink. unfold detectOrphanPages. cbn zeta.
  rewrite list_lookup_fmap, Hn. cbn [fmap option_fmap option_map]. f_equal.
  destruct (orphan_check_gains pages baseUrl page) as [Hset [[[Hnot _] _] | [_ Hsame]]].
  - destruct Hnot. right. right. exists linking, (url page).
    split; [done|]. split; [done|]. unfold added_for. by rewrite String.eqb_refl.
  - rewrite Hset, Hsame. apply set_issues_id.
Qed.

End OrphanProperties.

(** ** The requests of a crawl *)

Section CrawlerRequests.

Import Crawler.

Context `{UrlApi} `{Cheerio}.

Variable config : CrawlerConfig.
Variable robotsTxt : option (string → string → option bool).
Variable baseUrl : string.

Lemma polite_dispatch (q : list Target) (st : State) :
  crawler_polite config robotsTxt st →
  crawler_polite config robotsTxt (dispatch config robotsTxt q st).
Proof.
  revert st. induction q as [|item q IH]; intros st Hst; cbn [dispatch].
  - destruct Hst. by split.
  - destruct (_ && _ && _) eqn:Ego; [|destruct Hst; by split].
    apply andb_true_iff in Ego as [Ego _]. apply andb_true_iff in Ego as [Hact _].
    apply Nat.ltb_lt in Hact. cbn zeta.
    case_bool_decide; [by apply IH|].
    destruct (maxDepth config <? target_depth item)%nat eqn:Ed; [by apply IH|].
    apply Nat.ltb_ge in Ed.
    destruct (isAllowedByRobots config robotsTxt _) eqn:Er; cbn [negb]; [|by apply IH].
    apply IH. destruct Hst as [Hr Hp Ha Hc]. split; cbn [start_request results pending
      activeRequests].
    + exact Hr.
    + apply Forall_app. split; [exact Hp|]. apply Forall_singleton. by split.
    + rewrite length_app, Ha. cbn. lia.
    + lia.
Qed.

Lemma polite_processQueue_iter (st : State) :
  crawler_polite config robotsTxt st →
  crawler_polite config robotsTxt (processQueue_iter config robotsTxt st).
Proof.
  intros Hst. unfold processQueue_iter.
  assert (∀ s p, crawler_polite config robotsTxt s →
                 crawler_polite config robotsTxt (set_phase s p)) as Hphase
    by (intros s p [? ? ? ?]; by split).
  destruct (_ && _); [|by apply Hphase]. cbn zeta.
  pose proof (polite_dispatch (queue st) st Hst) as Hd.
  repeat case_match; by apply Hphase.
Qed.

Lemma polite_crawlPage_resume (st : State) (i : nat) (t : Target) (o : Outcome) :
  crawler_polite config robotsTxt st →
  pending st !! i = Some t →
  crawler_polite config robotsTxt
    (crawlPage_resume config baseUrl (set_pending st (delete i (pending st)))
       (target_url t) (target_depth t) o).
Proof.
  intros [Hr Hp Ha Hc] Hi.
  assert (Forall (λ t, isAllowedByRobots config robotsTxt (target_url t) = true ∧
                       (target_depth t <= maxDepth config)%nat)
            (delete i (pending st))) as Hp'.
  { by apply Forall_delete. }
  assert (isAllowedByRobots config robotsTxt (target_url t) = true) as Ht.
  { rewrite Forall_forall in Hp. apply (Hp t). by eapply list_elem_of_lookup_2. }
  assert (length (delete i (pending st)) = pred (length (pending st))) as Hlen.
  { rewrite length_delete by (by eexists). lia. }
  destruct o; unfold crawlPage_resume; split;
    cbn [results pending activeRequests set_pending CrawlResult.url];
    try (apply Forall_app; split; [exact Hr | by apply Forall_singleton]);
    try exact Hp'; try (rewrite Hlen, Ha; reflexivity); lia.
Qed.

Lemma polite_step (st : State) (e : Event) :
  crawler_polite config robotsTxt st →
  crawler_polite config robotsTxt (step config robotsTxt baseUrl st e).
Proof.
  intros Hst. unfold step. destruct (phase st) eqn:Ep; try done.
  - destruct e as [|i o|]; [by apply polite_processQueue_iter | |].
    + destruct (pending st !! i) as [t|] eqn:Ei; [|done].
      by apply polite_crawlPage_resume.
    + destruct Hst. by split.
  - destruct e as [|i o|]; [done | |].
    + destruct (pending st !! i) as [t|] eqn:Ei; [|done].
      by apply polite_crawlPage_resume.
    + destruct Hst. by split.
Qed.

Lemma polite_run (events : list Event) (st : State) :
  crawler_polite config robotsTxt st →
  crawler_polite config robotsTxt (run config robotsTxt baseUrl st events).
Proof.
  revert st. induction events as [|e events IH]; intros st Hst; [done|].
  cbn. apply IH. by apply polite_step.
Qed.

Lemma polite_crawl_start (startUrl : string) :
  crawler_polite config robotsTxt (crawl_start config robotsTxt startUrl).
Proof.
  unfold crawl_start. apply polite_processQueue_iter.
  split; cbn; [constructor | constructor | reflexivity | lia].
Qed.

End CrawlerRequests.

(** At any moment of any schedule, robots.txt allows the URL of every
    result and of every request in flight, no request in flight is deeper
    than [maxDepth], and there are no more than [maxConcurrentRequests]
    of them. *)
Theorem crawl_is_polite `{UrlApi} `{Cheerio}
    (config : Crawler.CrawlerConfig)
    (robotsTxt : option (string → string → option bool))
    (startUrl : string) (events : list Crawler.Event) :
  let st := Crawler.crawl config robotsTxt startUrl events in
  Forall (λ r, Crawler.isAllowedByRobots config robotsTxt (CrawlResult.url r) = true)
    (Crawler.results st) ∧
  Forall (λ t, Crawler.isAllowedByRobots config robotsTxt (Crawler.target_url t) = true ∧
               (Crawler.target_depth t <= Crawler.maxDepth config)%nat)
    (Crawler.pending st) ∧
  (length (Crawler.pending st) <= Crawler.maxConcurrentRequests config)%nat.
Proof.
  cbn zeta.
  destruct (polite_run config robotsTxt startUrl events _
              (polite_crawl_start config robotsTxt startUrl)) as [Hr Hp Ha Hc].
  fold (Crawler.crawl config robotsTxt startUrl events) in *.
  split; [exact Hr|]. split; [exact Hp|]. rewrite <- Ha. exact Hc.
Qed.

(** ** The text of a page *)

Section TextProperties.

(** The lengths of a text, in bytes and in code units, are both sums over
    its bytes; the scanners are followed for any such sum in which a
    space weighs no more than [<] and than any white space. *)
Variable w : ascii → nat.

Hypothesis space_lt : (w " "%char <= w "<"%char)%nat.
Hypothesis space_1 : ∀ c, JS.is_space1 c = true → (w " "%char <= w c)%nat.
Hypothesis space_2 : ∀ c1 c2, JS.is_space2 c1 c2 = true → (w " "%char <= w c1 + w c2)%nat.
Hypothesis space_3 :
  ∀ c1 c2 c3, JS.is_space3 c1 c2 c3 = true → (w " "%char <= w c1 + w c2 + w c3)%nat.

Lemma weight_rev_app (s1 s2 : string) :
  weight w (String.rev_app s1 s2) = (weight w s1 + weight w s2)%nat.
Proof.
  revert s2. induction s1 as [|a s1 IH]; intros s2; cbn; [done|].
  rewrite IH. cbn. lia.
Qed.

Lemma weight_rev (s : string) : weight w (String.rev s) = weight w s.
Proof. unfold String.rev. rewrite weight_rev_app. cbn. lia. Qed.

Lemma weight_strip (sp1 : ascii → bool) (sp2 : ascii → ascii → bool)
    (sp3 : ascii → ascii → ascii → bool) (s : string) :
  (weight w (JS.strip sp1 sp2 sp3 s) <= weight w s)%nat.
Proof.
  assert (∀ n s, (String.length s <= n)%nat →
                 (weight w (JS.strip sp1 sp2 sp3 s) <= weight w s)%nat) as Hn.
  { clear s. induction n as [|n IH]; intros s Hs.
    - destruct s; [done | cbn in Hs; lia].
    - destruct s as [|c1 s1]; [done|]. cbn [JS.strip]. cbn in Hs.
      destruct (sp1 c1).
      { specialize (IH s1 ltac:(lia)). cbn [weight]. lia. }
      destruct s1 as [|c2 s2]; [done|]. cbn in Hs.
      destruct (sp2 c1 c2).
      { specialize (IH s2 ltac:(lia)). cbn [weight]. lia. }
      destruct s2 as [|c3 s3]; [done|]. cbn in Hs.
      destruct (sp3 c1 c2 c3); [|done].
      specialize (IH s3 ltac:(lia)). cbn [weight]. lia. }
  by apply (Hn (String.length s)).
Qed.

Lemma weight_trim (s : string) : (weight w (JS.trim s) <= weight w s)%nat.
Proof.
  unfold JS.trim, JS.trimEnd, JS.trimStart. rewrite weight_rev.
  etrans; [apply weight_strip|]. rewrite weight_rev. apply weight_strip.
Qed.

Lemma weight_string_drop (n : nat) (s : string) :
  (weight w (string_drop n s) <= weight w s)%nat.
Proof.
  revert s. induction n as [|n IH]; intros s; cbn; [done|].
  destruct s as [|c s]; cbn; [done|]. specialize (IH s). lia.
Qed.

Lemma weight_after_first_ci (p s r : string) :
  after_first_ci p s = Some r → (weight w r <= weight w s)%nat.
Proof.
  induction s as [|c s IH]; cbn [after_first_ci].
  - destruct (prefix_ci p ""); [|done]. intros [= <-]. apply weight_string_drop.
  - destruct (prefix_ci p (String c s)).
    + intros [= <-]. apply weight_string_drop.
    + intros Hr. specialize (IH Hr). cbn. lia.
Qed.

Lemma weight_upto_gt (min : nat) (s r : string) :
  upto_gt min s = Some r → (weight w r <= weight w s)%nat.
Proof.
  revert min. induction s as [|c s IH]; intros min; cbn [upto_gt]; [done|].
  destruct (Ascii.eqb c ">"%char).
  - destruct min; [|done]. intros [= <-]. cbn. lia.
  - intros Hr. specialize (IH _ Hr). cbn. lia.
Qed.

Lemma weight_match_block (tag s r : string) :
  match_block tag s = Some r → (weight w r <= weight w s)%nat.
Proof.
  unfold match_block. destruct (prefix_ci _ s); [|done].
  destruct (upto_gt 0 _) as [body|] eqn:Eb; [|done].
  intros Hr. apply weight_after_first_ci in Hr. apply weight_upto_gt in Eb.
  pose proof (weight_string_drop (S (String.length tag)) s). lia.
Qed.

Lemma weight_replace_block (tag : string) (fuel : nat) (s : string) :
  (weight w (replace_block tag fuel s) <= weight w s)%nat.
Proof.
  revert s. induction fuel as [|fuel IH]; intros s; cbn [replace_block]; [done|].
  destruct s as [|c s]; [done|].
  destruct (match_block tag (String c s)) as [rest|] eqn:Em.
  - apply weight_match_block in Em. specialize (IH rest). lia.
  - specialize (IH s). cbn. lia.
Qed.

Lemma weight_replace_tags (fuel : nat) (s : string) :
  (weight w (replace_tags fuel s) <= weight w s)%nat.
Proof.
  revert s. induction fuel as [|fuel IH]; intros s; cbn [replace_tags]; [done|].
  destruct s as [|c s]; [done|].
  destruct (Ascii.eqb_spec c "<"%char) as [-> | _].
  - destruct (upto_gt 1 s) as [rest|] eqn:Eu.
    + apply weight_upto_gt in Eu. specialize (IH rest). cbn [weight]. lia.
    + specialize (IH s). cbn. lia.
  - specialize (IH s). cbn. lia.
Qed.

Lemma weight_collapse_spaces_from (in_run : bool) (s : string) :
  (weight w (collapse_spaces_from in_run s) <= weight w s)%nat.
Proof.
  assert (∀ n s in_run, (String.length s <= n)%nat →
            (weight w (collapse_spaces_from in_run s) <= weight w s)%nat) as Hn.
  { clear s in_run. induction n as [|n IH]; intros s in_run Hs.
    - destruct s; [done | cbn in Hs; lia].
    - destruct s as [|c1 s1]; [done|]. cbn [collapse_spaces_from]. cbn in Hs.
      destruct (JS.is_space1 c1) eqn:E1.
      { pose proof (space_1 c1 E1). pose proof (IH s1 true ltac:(lia)).
        destruct in_run; cbn [weight]; lia. }
      pose proof (IH s1 false ltac:(lia)) as Hskip.
      destruct s1 as [|c2 s2]; [cbn [weight] in *; lia|]. cbn in Hs.
      destruct (JS.is_space2 c1 c2) eqn:E2.
      { pose proof (space_2 c1 c2 E2). pose proof (IH s2 true ltac:(lia)).
        destruct in_run; cbn [weight]; lia. }
      destruct s2 as [|c3 s3]; [cbn [weight] in *; lia|]. cbn in Hs.
      destruct (JS.is_space3 c1 c2 c3) eqn:E3; [|cbn [weight] in *; lia].
      pose proof (space_3 c1 c2 c3 E3). pose proof (IH s3 true ltac:(lia)).
      destruct in_run; cbn [weight]; lia. }
  by apply (Hn (String.length s)).
Qed.

Lemma weight_extractTextContent (html : string) :
  (weight w (extractTextContent html) <= weight w html)%nat.
Proof.
  unfold extractTextContent. cbn zeta.
  set (t1 := replace_block "script" (String.length html) html).
  set (t2 := replace_block "style" (String.length t1) t1).
  set (t3 := replace_tags (String.length t2) t2).
  assert (weight w t1 <= weight w html)%nat by apply weight_replace_block.
  assert (weight w t2 <= weight w t1)%nat by apply weight_replace_block.
  assert (weight w t3 <= weight w t2)%nat by apply weight_replace_tags.
  pose proof (weight_collapse_spaces_from false t3).
  pose proof (weight_trim (collapse_spaces t3)).
  unfold collapse_spaces in *. lia.
Qed.

End TextProperties.

Lemma weight_bytes (s : string) : weight (λ _, 1%nat) s = String.length s.
Proof. induction s as [|c s IH]; cbn; [done | by rewrite IH]. Qed.

Lemma weight_code_units (s : string) : weight JS.code_units s = JS.length s.
Proof. induction s as [|c s IH]; cbn; [done | by rewrite IH]. Qed.

Lemma code_units_of (c : ascii) (n : N) :
  (N_of_ascii c =? n)%N = true → JS.code_units c = JS.code_units (ascii_of_N n).
Proof. intros E. apply N.eqb_eq in E. by rewrite <- E, ascii_N_embedding. Qed.

Lemma code_units_space1 (c : ascii) :
  JS.is_space1 c = true → (1 <= JS.code_units c)%nat.
Proof.
  unfold JS.is_space1, JS.code_units. cbn zeta. intros E.
  assert (N_of_ascii c < 128)%N as Hc.
  { apply orb_true_iff in E as [E | E].
    - apply andb_true_iff in E as [_ E]. apply N.leb_le in E. lia.
    - apply N.eqb_eq in E. lia. }
  replace (128 <=? N_of_ascii c)%N with false by (symmetry; apply N.leb_gt; lia).
  replace (240 <=? N_of_ascii c)%N with false by (symmetry; apply N.leb_gt; lia).
  cbn. lia.
Qed.

Lemma code_units_space2 (c1 c2 : ascii) :
  JS.is_space2 c1 c2 = true → (1 <= JS.code_units c1 + JS.code_units c2)%nat.
Proof.
  unfold JS.is_space2. intros E. apply andb_true_iff in E as [E _].
  rewrite (code_units_of c1 _ E).
  assert (JS.code_units (ascii_of_N 194) = 1%nat) as -> by (vm_compute; reflexivity).
  lia.
Qed.

Lemma code_units_space3 (c1 c2 c3 : ascii) :
  JS.is_space3 c1 c2 c3 = true →
  (1 <= JS.code_units c1 + JS.code_units c2 + JS.code_units c3)%nat.
Proof.
  unfold JS.is_space3. cbn zeta. intros E.
  assert (∃ n, (N_of_ascii c1 =? n)%N = true ∧ n ∈ [225; 226; 227; 239]%N) as (n & En & Hn).
  { repeat (apply orb_true_iff in E as [E | E]);
      repeat (apply andb_true_iff in E as [E _]);
      eexists; (split; [exact E|]);
      repeat first [apply list_elem_of_here | apply list_elem_of_further]. }
  rewrite (code_units_of c1 n En).
  rewrite !elem_of_cons, elem_of_nil in Hn.
  destruct Hn as [-> | [-> | [-> | [-> | []]]]];
    match goal with |- context [JS.code_units (ascii_of_N ?n)] =>
      assert (JS.code_units (ascii_of_N n) = 1%nat) as -> by (vm_compute; reflexivity)
    end; lia.
Qed.

Lemma length_extractTextContent (html : string) :
  (String.length (extractTextContent html) <= String.length html)%nat ∧
  (JS.length (extractTextContent html) <= JS.length html)%nat.
Proof.
  split.
  - rewrite <- !weight_bytes. apply weight_extractTextContent; intros; lia.
  - assert (JS.code_units " "%char = 1%nat) as Hsp by reflexivity.
    rewrite <- !weight_code_units. apply weight_extractTextContent; rewrite Hsp.
    + vm_compute. lia.
    + intros c E. pose proof (code_units_space1 c E). lia.
    + intros c1 c2 E. pose proof (code_units_space2 c1 c2 E). lia.
    + intros c1 c2 c3 E. pose proof (code_units_space3 c1 c2 c3 E). lia.
Qed.

(** The text that [extractTextContent] takes out of a document is never
    longer than the document, in bytes and in UTF-16 code units, and
    [calculateTextToHtmlRatio] is a number from 0 to 100. *)
Theorem text_to_html_ratio_range (html : string) :
  (String.length (extractTextContent html) <= String.length html)%nat ∧
  (JS.length (extractTextContent html) <= JS.length html)%nat ∧
  (0 <= calculateTextToHtmlRatio html <= 100)%Q.
Proof.
  destruct (length_extractTextContent html) as [Hbytes Hlen].
  split; [exact Hbytes|]. split; [exact Hlen|].
  unfold calculateTextToHtmlRatio. cbn zeta.
  destruct (JS.length html =? 0)%nat eqn:E; [split; discriminate|].
  apply Nat.eqb_neq in E.
  destruct (div_le_one (Number.of_nat (JS.length (extractTextContent html)))
              (Number.of_nat (JS.length html))) as [H0 H1].
  - apply of_nat_nonneg.
  - by apply of_nat_pos.
  - by apply of_nat_mono.
  - split.
    + apply mul_nonneg; [done | discriminate].
    + unfold Number.mul. apply (fl64_le _ 100); [lia|].
      change (inject_Z 100) with 100%Q. lra.
Qed.

(** ** Sanitised URLs *)

Section SanitizeProperties.

Context `{UrlApi}.

Lemma filter_filter_iff {A : Type} (P Q R : A → Prop) `{!∀ x, Decision (P x)}
    `{!∀ x, Decision (Q x)} `{!∀ x, Decision (R x)} (l : list A) :
  (∀ x, R x ↔ Q x ∧ P x) → filter Q (filter P l) = filter R l.
Proof.
  intros HR. induction l as [|x l IH]; [done|]. rewrite !(filter_cons _ x).
  destruct (decide (P x)) as [HP | HP].
  - rewrite filter_cons, IH.
    destruct (decide (Q x)) as [HQ | HQ], (decide (R x)) as [Hx | Hx];
      try done; exfalso; apply HR in Hx || (apply Hx, HR); tauto.
  - rewrite IH. destruct (decide (R x)) as [Hx | Hx]; [|done].
    apply HR in Hx. tauto.
Qed.

Lemma filter_all {A : Type} (P : A → Prop) `{!∀ x, Decision (P x)} (l : list A) :
  (∀ x, P x) → filter P l = l.
Proof.
  intros HP. induction l as [|x l IH]; [done|]. by rewrite filter_cons_True, IH.
Qed.

Lemma delete_all_params (params : list string) (u : URL) :
  foldl (λ u param, searchParams_delete param u) u params
  = {| protocol := protocol u; userinfo := userinfo u; hostname := hostname u;
       port := port u; pathname := pathname u;
       searchParams := filter (λ kv, fst kv ∉ params) (searchParams u);
       hash := hash u |}.
Proof.
  revert u. induction params as [|param params IH]; intros u; cbn [foldl].
  - rewrite filter_all; [by destruct u|]. intros kv. apply not_elem_of_nil.
  - rewrite IH. cbn [searchParams_delete protocol userinfo hostname port pathname
                      searchParams hash].
    f_equal. apply filter_filter_iff. intros kv. rewrite not_elem_of_cons.
    destruct (String.eqb_spec (fst kv) param) as [E | E]; cbn; tauto.
Qed.

(** [sanitizeUrlForCrawl] returns a string that does not parse as it is;
    of a URL that parses it returns the [href] of that URL without its
    fragment and without the query parameters of the seven tracking
    names, the other parameters in their order and every other part as
    it was. *)
Theorem sanitizeUrlForCrawl_spec (url : string) :
  match url_parse url with
  | Some parsed =>
      sanitizeUrlForCrawl url
      = url_href
          {| protocol := protocol parsed; userinfo := userinfo parsed;
             hostname := hostname parsed; port := port parsed;
             pathname := pathname parsed;
             searchParams :=
               filter (λ kv, fst kv ∉ paramsToRemove) (searchParams parsed);
             hash := "" |}
  | None => sanitizeUrlForCrawl url = url
  end.
Proof.
  unfold sanitizeUrlForCrawl. destruct (url_parse url) as [parsed|]; [|reflexivity].
  cbn zeta. by rewrite delete_all_params.
Qed.

End SanitizeProperties.

(** ** Stopping a crawl *)

Section StopProperties.

Import Crawler.

Context `{UrlApi} `{Cheerio}.

Variable config : CrawlerConfig.
Variable robotsTxt : option (string → string → option bool).
Variable baseUrl : string.

Lemma stopped_dispatch (q : list Target) (st : State) :
  stopped st = true → dispatch config robotsTxt q st = set_queue st q.
Proof.
  intros Hs. destruct q as [|item q]; cbn [dispatch]; [done|].
  by rewrite Hs, andb_false_r.
Qed.

Lemma stopped_step (st0 st : State) (e : Event) :
  stopped st = true → only_settled st0 st →
  stopped (step config robotsTxt baseUrl st e) = true ∧
  only_settled st0 (step config robotsTxt baseUrl st e).
Proof.
  intros Hs (Hp & Hr & Hl). unfold step.
  assert (∀ i o t, pending st !! i = Some t →
            stopped (crawlPage_resume config baseUrl
                       (set_pending st (delete i (pending st)))
                       (target_url t) (target_depth t) o) = true ∧
            only_settled st0 (crawlPage_resume config baseUrl
                                (set_pending st (delete i (pending st)))
                                (target_url t) (target_depth t) o)) as Hsettle.
  { intros i o t Hi.
    assert (length (delete i (pending st)) = pred (length (pending st))) as Hlen
      by (rewrite length_delete by (by eexists); lia).
    assert (0 < length (pending st))%nat as Hpos
      by (apply lookup_lt_Some in Hi; lia).
    destruct o; unfold crawlPage_resume; (split; [exact Hs|]); unfold only_settled;
      cbn [results pending set_pending]; rewrite length_app, Hlen; cbn [length];
      (split; [etrans; [apply sublist_delete | exact Hp]|]);
      (split; [by apply prefix_app_r | lia]). }
  destruct (phase st) eqn:Ep.
  - destruct e as [|i o|].
    + unfold processQueue_iter. rewrite Hs, andb_false_r. by split.
    + destruct (pending st !! i) as [t|] eqn:Ei; [by apply Hsettle | by split].
    + by split.
  - by split.
  - destruct e as [|i o|].
    + by split.
    + destruct (pending st !! i) as [t|] eqn:Ei; [by apply Hsettle | by split].
    + by split.
Qed.

Lemma stopped_run (events : list Event) (st0 st : State) :
  stopped st = true → only_settled st0 st →
  only_settled st0 (run config robotsTxt baseUrl st events).
Proof.
  revert st. induction events as [|e events IH]; intros st Hs Hst; [done|].
  cbn [run foldl]. destruct (stopped_step st0 st e Hs Hst) as [Hs' Hst'].
  by apply IH.
Qed.

End StopProperties.

(** Once [stop] has been called no request is started any more: whatever
    happens afterwards, the requests in flight are among those in flight
    at the call, the results at the call are the first of the results,
    and every further result is that of one of those requests. *)
Theorem crawl_stop_starts_nothing `{UrlApi} `{Cheerio}
    (config : Crawler.CrawlerConfig)
    (robotsTxt : option (string → string → option bool))
    (startUrl : string) (before after : list Crawler.Event) :
  let at_stop := Crawler.crawl config robotsTxt startUrl (before ++ [Crawler.Stop]) in
  let later := Crawler.crawl config robotsTxt startUrl (before ++ Crawler.Stop :: after) in
  Crawler.pending later `sublist_of` Crawler.pending at_stop ∧
  Crawler.results at_stop `prefix_of` Crawler.results later ∧
  (length (Crawler.results later) + length (Crawler.pending later)
   = length (Crawler.results at_stop) + length (Crawler.pending at_stop))%nat.
Proof.
  cbn zeta. unfold Crawler.crawl, Crawler.run.
  rewrite (foldl_app _ before (Crawler.Stop :: after)), (foldl_app _ before [Crawler.Stop]).
  cbn [foldl].
  set (st := foldl _ _ before).
  fold (Crawler.run config robotsTxt startUrl
          (Crawler.step config robotsTxt startUrl st Crawler.Stop) after).
  destruct (Crawler.phase st) eqn:Ep.
  - apply (stopped_run config robotsTxt startUrl).
    + unfold Crawler.step. by rewrite Ep.
    + split; [done|]. split; done.
  - rewrite spinning_is_final; [split; [done|]; split; done|].
    unfold Crawler.step. by rewrite Ep.
  - apply (stopped_run config robotsTxt startUrl).
    + unfold Crawler.step. by rewrite Ep.
    + split; [done|]. split; done.
Qed.

(** The home page links to [/b]: the page at [/b] is not an orphan. *)
Lemma linked_page_is_not_orphan_witness :
  detectOrphanPages [Cases.home_page; Cases.leaf_page] "https://shop.example" !! 1%nat
  = Some Cases.leaf_page.
Proof.
  apply (linked_page_is_not_orphan [Cases.home_page; Cases.leaf_page]
           "https://shop.example" 1 Cases.leaf_page Cases.home_page).
  - reflexivity.
  - apply list_elem_of_here.
  - apply list_elem_of_In. vm_compute. right. left. reflexivity.
Defined.

(** ** Text outside ASCII *)

(** [length] counts code units and [trim] strips the white space of
    Unicode: the French title is neither too long nor too short, the
    Japanese one is too short, and the padded one is the title of 45
    characters. *)
Lemma titles_are_measured_in_code_units :
  String.length Cases.french_title = 64%nat ∧
  JS.length Cases.french_title = 58%nat ∧
  check_title (JS.trim Cases.french_title) [] = [] ∧
  String.length Cases.japanese_title = 48%nat ∧
  JS.length Cases.japanese_title = 16%nat ∧
  codes (check_title (JS.trim Cases.japanese_title) []) = ["title_too_short"] ∧
  JS.trim Cases.padded_title = "Handcrafted oak tables and chairs for my home" ∧
  JS.length (JS.trim Cases.padded_title) = 45%nat ∧
  check_title (JS.trim Cases.padded_title) [] = [].
Proof. vm_compute. repeat split. Qed.

(** ** The homepage of an audit *)

(** C6, as stated, fails. The audit of [Shop.Example/] passes validation
    and runs on [https://Shop.Example]; the crawler fetches the start URL
    under its sanitised form [https://shop.example/], which is neither
    the base URL nor the base URL with a slash, and which no page links
    to: [detectOrphanPages], called with the base URL of the audit, gives
    the homepage the issue [orphan_page], where its comments say that
    the homepage is always considered linked and is skipped.  The same
    site audited as [shop.example/] has no orphan. *)
Lemma homepage_is_flagged_as_orphan :
  let pages_of (input : string) :=
    let startUrl := normalizeUrl input in
    let st := Crawler.crawl Crawler.DEFAULT_CONFIG None startUrl schedule in
    analyzeCrawlResults (Crawler.results st) startUrl DEFAULT_CONFIG in
  let startUrl := normalizeUrl "Shop.Example/" in
  let st := Crawler.crawl Crawler.DEFAULT_CONFIG None startUrl schedule in
  startUrl = "https://Shop.Example" ∧
  valid (validateUrl startUrl) = true ∧
  Crawler.returned st = Some (Crawler.results st) ∧
  CrawlResult.url <$> Crawler.results st
  = ["https://shop.example/"; "https://shop.example/a"; "https://shop.example/b"] ∧
  (λ page, (url page, LinkChecks.has_issue (issues page) WARNING_CODES.ORPHAN_PAGE))
    <$> pages_of "Shop.Example/"
  = [ ("https://shop.example/", true);
      ("https://shop.example/a", false);
      ("https://shop.example/b", false) ] ∧
  (λ page, (url page, LinkChecks.has_issue (issues page) WARNING_CODES.ORPHAN_PAGE))
    <$> pages_of "shop.example/"
  = [ ("https://shop.example/", false);
      ("https://shop.example/a", false);
      ("https://shop.example/b", false) ].
Proof. vm_compute. repeat split. Qed.
